(** * JavaScript Grand Prix: the race engine of [index.tsx]

    A shallow embedding of the classes [Car], [Stage] and [RacingGame] and of
    [saveGameState] / [loadGameState], followed by the properties the
    specification states about them.

    Conventions of the embedding.
    - A JavaScript number is a rational ([Q]): the arithmetic of the physics
      step is read exactly, without the rounding of IEEE doubles, and there
      is no NaN (the only place the engine can produce one from a reset car
      is [position %= stage.length] with [stage.length = 0]; statements
      about positions assume a positive length).  The sort key of the leader
      detection is the exception: two keys that round to the same double tie
      in the engine, so the key and its comparison are rounded to doubles
      ([Js.double]).  Lap and win counters are [Z].
    - [Math.random()], [performance.now()] and [Math.pow] belong to the host.
      They are parameters of the development: the k-th call of
      [Math.random()] made by the physics step returns [Math_random k] (the
      draws that [updateAllVisuals] makes for its particles are not
      counted), the k-th call of [performance.now()] returns
      [performance_now k], and [Math_pow] is any function (ECMA-262 leaves
      its results implementation-approximated).
    - A reference to a car object is its index in [this.cars].
    - Calls into the collaborators (sound manager, commentator) are recorded,
      in order, in a trace of events.  DOM updates and [console.log] are not
      part of the model. *)

From Stdlib Require Import QArith Qabs Qminmax Qround Qpower ZArith List String.
From Stdlib Require Import Bool Ascii.
From Stdlib Require Import Lia Lqa Psatz Permutation Sorted.
Import ListNotations.
Local Open Scope Q_scope.

(** ** JavaScript primitives *)

Module Js.

(** Truncation toward zero of a rational. *)
Definition trunc (q : Q) : Z := Z.quot (Qnum q) (Zpos (Qden q)).

(** [a % n] on numbers: the remainder has the sign of the dividend.
    (For [n = 0] JavaScript yields NaN; here the value is [a].) *)
Definition rem (a n : Q) : Q := a - n * inject_Z (trunc (a / n)).

(** The double nearest to a rational: the significand is rounded to 53 bits,
    a tie going to the even one.  The range of the exponent is not bounded
    (no overflow to [Infinity], no subnormal numbers), which keeps the sign
    of a difference of two doubles, as the subnormal numbers do.  [ilog2 x]
    is the exponent of a positive [x]: [2 ^ ilog2 x <= x < 2 ^ (ilog2 x + 1)]. *)
Definition ilog2 (x : Q) : Z :=
  let k := (Z.log2 (Qnum x) - Z.log2 (Zpos (Qden x)))%Z in
  if Qle_bool (2 ^ k) x then k else (k - 1)%Z.

Definition nearestEven (x : Q) : Z :=
  let f := Qfloor x in
  match Qcompare (x - inject_Z f) (1 # 2) with
  | Lt => f
  | Gt => (f + 1)%Z
  | Eq => if Z.even f then f else (f + 1)%Z
  end.

Definition magnitude (a : Q) : Q :=
  inject_Z (nearestEven (a / 2 ^ (ilog2 a - 52))) * 2 ^ (ilog2 a - 52).

Definition double (x : Q) : Q :=
  match Qnum x with
  | Z0 => 0
  | Zpos _ => magnitude x
  | Zneg _ => - magnitude (- x)
  end.

(** [a >= b]. *)
Definition geb (a b : Q) : bool := Qle_bool b a.

(** [a > b]. *)
Definition gtb (a b : Q) : bool := negb (Qle_bool a b).

(** [x.toFixed(1)]: the decimal string with one fractional digit nearest to
    [x], the larger candidate on a tie, the sign handled apart.  The string
    [d.d] is represented by the integer number of tenths it denotes. *)
Definition toFixed1 (x : Q) : Z :=
  if Qle_bool 0 x then Qfloor (x * 10 + 1 / 2)
  else (- Qfloor (- x * 10 + 1 / 2))%Z.

(** [parseFloat] of a string produced by [toFixed(1)]. *)
Definition parseFloat (tenths : Z) : Q := inject_Z tenths / 10.

(** [Array.prototype.sort(cmp)]: a stable sort; [a] is kept before [b] unless
    [cmp a b > 0]. *)
Fixpoint insert {A : Type} (cmp : A -> A -> Q) (x : A) (l : list A) : list A :=
  match l with
  | [] => [x]
  | y :: l' => if Qle_bool (cmp x y) 0 then x :: y :: l' else y :: insert cmp x l'
  end.

Fixpoint sort {A : Type} (cmp : A -> A -> Q) (l : list A) : list A :=
  match l with
  | [] => []
  | x :: l' => insert cmp x (sort cmp l')
  end.

(** The truth value of a reference that may be [null]. *)
Definition truthy {A : Type} (x : option A) : bool :=
  match x with
  | Some _ => true
  | None => false
  end.

(** [Array.prototype.join(sep)] on strings. *)
Fixpoint join (sep : string) (l : list string) : string :=
  match l with
  | [] => EmptyString
  | [x] => x
  | x :: l' => (x ++ sep ++ join sep l')%string
  end.

(** [[...a].map((x, i) => (i, x))]: the elements with their indices from [i]. *)
Fixpoint indexed {A : Type} (i : nat) (l : list A) : list (nat * A) :=
  match l with
  | [] => []
  | x :: l' => (i, x) :: indexed (S i) l'
  end.

End Js.

(** ** Objects used as dictionaries

    [{ [key: string]: V }]: the own properties in enumeration order.  A new
    key is appended, an existing key keeps its place.  An object differs
    from this on two kinds of keys: assigning a number to ["__proto__"]
    creates no property, and the keys that are numerals of array indices
    are enumerated first, in ascending order.  [assignable] and [numeral]
    tell these keys; the statements that depend on the presence of a key
    or on the order of the keys assume names that are not among them. *)

Module Dict.

Definition t (V : Type) : Type := list (string * V).

Definition assignable (k : string) : bool := negb (String.eqb k "__proto__").

Definition digit (c : ascii) : bool :=
  (48 <=? nat_of_ascii c)%nat && (nat_of_ascii c <=? 57)%nat.

Fixpoint digits (k : string) : bool :=
  match k with
  | EmptyString => true
  | String c k' => digit c && digits k'
  end.

(** A decimal numeral without a leading zero (the numerals of the array
    indices are those below [2^32 - 1]). *)
Definition numeral (k : string) : bool :=
  match k with
  | EmptyString => false
  | String c k' =>
      digits k && (negb (Ascii.eqb c "0") || String.eqb k' EmptyString)
  end.

Fixpoint get {V : Type} (k : string) (d : t V) : option V :=
  match d with
  | [] => None
  | (k', v) :: d' => if String.eqb k k' then Some v else get k d'
  end.

Fixpoint set {V : Type} (k : string) (v : V) (d : t V) : t V :=
  match d with
  | [] => [(k, v)]
  | (k', v') :: d' =>
      if String.eqb k k' then (k', v) :: d' else (k', v') :: set k v d'
  end.

Definition keys {V : Type} (d : t V) : list string := map fst d.

(** [d[k]++] on an entry that holds an integer.  (On a missing key
    JavaScript stores NaN; the dictionary is left as it is here, and the
    engine only increments keys that [resetForNewRace] created.) *)
Definition incr (k : string) (d : t Z) : t Z :=
  match get k d with
  | Some v => set k (v + 1)%Z d
  | None => d
  end.

End Dict.

(** ** Game classes *)

Module Car.

Record t : Type := mk {
  name : string;
  speed : Q;
  handling : Q;
  color : string;
  position : Q;
  currentLap : Z;
  damage : Q;
  tireWear : Q
}.

Definition reset (c : t) : t :=
  mk (name c) (speed c) (handling c) (color c) 0 1 0 100.

(** [new Car(name, speed, handling, color)]: the constructor ends in
    [this.reset()]. *)
Definition new (name : string) (speed handling : Q) (color : string) : t :=
  reset (mk name speed handling color 0 0 0 0).

End Car.

Module Stage.

Record t : Type := mk {
  name : string;
  length : Q;
  laps : Z
}.

End Stage.

(** ** Collaborators: what the engine asks of them *)

(** The prompts handed to [tryGenerateCommentary]. *)
Inductive Prompt : Type :=
| StageStarting (stageName : string)
| StageWon (winnerName stageName : string)
| Overtake (newLeaderName oldLeaderName : string)
| Champion (overallWinner : string).

(** The English text of a prompt, as the template literals build it. *)
Definition promptText (p : Prompt) : string :=
  match p with
  | StageStarting s =>
      "The race is starting for stage: " ++ s
      ++ "! All cars are revving their engines."
  | StageWon c s =>
      "And that's the checkered flag! " ++ c ++ " wins stage " ++ s
      ++ "! An amazing performance!"
  | Overtake c p =>
      "Incredible! " ++ c ++ " overtakes " ++ p
      ++ " for the lead! What a move!"
  | Champion c =>
      "What a Grand Prix! After all the stages, the overall champion is "
      ++ c ++ "! A victory for the ages!"
  end%string.

(** Calls that leave the engine, in the order they are made. *)
Inductive Event : Type :=
| PlayRaceStartCountdown
| StartEngineHum
| StopEngineHum
| PlayLapCompletion
| PlayStageWin
| PlayRaceWin
| GenerateCommentary (p : Prompt)
| UpdateAllVisuals (distanceIncrements : Dict.t Q).

Module Standing.

(** One entry of [finalStandings]; [damage] and [tireWear] are the
    [toFixed(1)] strings, in tenths. *)
Record t : Type := mk {
  name : string;
  damage : Z;
  tireWear : Z
}.

End Standing.

Module StageResult.

Record t : Type := mk {
  stageName : string;
  winner : string;
  finalStandings : list Standing.t
}.

End StageResult.

Module RaceResult.

(** The object handed to [updateRaceHistory] and [showRaceSummary]
    (without its [date]). *)
Record t : Type := mk {
  winner : string;
  leaderboard : Dict.t Z;
  stages : list StageResult.t
}.

End RaceResult.

(** The fields of [RacingGame] the engine reads and writes.
    [lastCommentaryTime = None] stands for [-Infinity]. *)
Record RacingGame : Type := mkRacingGame {
  cars : list Car.t;
  stages : list Stage.t;
  leaderboard : Dict.t Z;
  isFinished : bool;
  lastCommentaryTime : option Q;
  previousLeader : option nat;
  stageResults : list StageResult.t;
  currentStageIndex : nat
}.

Definition commentaryCooldown : Q := 7000.

Definition with_cars (x : list Car.t) (g : RacingGame) : RacingGame :=
  mkRacingGame x (stages g) (leaderboard g) (isFinished g)
    (lastCommentaryTime g) (previousLeader g) (stageResults g)
    (currentStageIndex g).

Definition with_leaderboard (x : Dict.t Z) (g : RacingGame) : RacingGame :=
  mkRacingGame (cars g) (stages g) x (isFinished g)
    (lastCommentaryTime g) (previousLeader g) (stageResults g)
    (currentStageIndex g).

Definition with_isFinished (x : bool) (g : RacingGame) : RacingGame :=
  mkRacingGame (cars g) (stages g) (leaderboard g) x
    (lastCommentaryTime g) (previousLeader g) (stageResults g)
    (currentStageIndex g).

Definition with_lastCommentaryTime (x : option Q) (g : RacingGame)
  : RacingGame :=
  mkRacingGame (cars g) (stages g) (leaderboard g) (isFinished g)
    x (previousLeader g) (stageResults g) (currentStageIndex g).

Definition with_previousLeader (x : option nat) (g : RacingGame)
  : RacingGame :=
  mkRacingGame (cars g) (stages g) (leaderboard g) (isFinished g)
    (lastCommentaryTime g) x (stageResults g) (currentStageIndex g).

Definition with_stageResults (x : list StageResult.t) (g : RacingGame)
  : RacingGame :=
  mkRacingGame (cars g) (stages g) (leaderboard g) (isFinished g)
    (lastCommentaryTime g) (previousLeader g) x (currentStageIndex g).

Definition with_currentStageIndex (x : nat) (g : RacingGame) : RacingGame :=
  mkRacingGame (cars g) (stages g) (leaderboard g) (isFinished g)
    (lastCommentaryTime g) (previousLeader g) (stageResults g) x.

(** The game together with the state of its surroundings: how many times
    [Math.random()] and [performance.now()] were called, and the calls made
    to the collaborators so far. *)
Record World : Type := mkWorld {
  game : RacingGame;
  randomCalls : nat;
  clockCalls : nat;
  trace : list Event
}.

Definition onGame (f : RacingGame -> RacingGame) (w : World) : World :=
  mkWorld (f (game w)) (randomCalls w) (clockCalls w) (trace w).

Definition emit (e : Event) (w : World) : World :=
  mkWorld (game w) (randomCalls w) (clockCalls w) (trace w ++ [e]).

(** [resetForNewRace()]. *)
Definition resetForNewRace (g : RacingGame) : RacingGame :=
  mkRacingGame (cars g) (stages g)
    (fold_left (fun lb car => Dict.set (Car.name car) 0%Z lb) (cars g) [])
    false None None [] 0.

(** [new RacingGame(cars, stages)]. *)
Definition newRacingGame (cars : list Car.t) (stages : list Stage.t)
  : RacingGame :=
  resetForNewRace (mkRacingGame cars stages [] false None None [] 0).

(** [getOverallWinner()]: the loop over the leaderboard, then the join. *)
Definition overallWinners (lb : Dict.t Z) : Z * list string :=
  fold_left
    (fun (acc : Z * list string) (entry : string * Z) =>
       let '(maxWins, winners) := acc in
       let '(carName, wins) := entry in
       if (maxWins <? wins)%Z then (wins, [carName])
       else if (wins =? maxWins)%Z then (maxWins, winners ++ [carName])
       else (maxWins, winners))
    lb ((-1)%Z, []).

Definition getOverallWinner (g : RacingGame) : string :=
  Js.join " & " (snd (overallWinners (leaderboard g))).

(** [finalStandings]: one entry per car, sorted by the damage string. *)
Definition standing (c : Car.t) : Standing.t :=
  Standing.mk (Car.name c) (Js.toFixed1 (Car.damage c))
    (Js.toFixed1 (Car.tireWear c)).

Definition finalStandings (cars : list Car.t) : list Standing.t :=
  Js.sort
    (fun a b => Js.parseFloat (Standing.damage a)
                - Js.parseFloat (Standing.damage b))
    (map standing cars).

(** [winner?.name || "N/A"]: the empty string is falsy. *)
Definition winnerLabel (winner : option Car.t) : string :=
  match winner with
  | Some c => if String.eqb (Car.name c) EmptyString then "N/A" else Car.name c
  | None => "N/A"
  end.

(** ** The engine *)

Section Engine.

(** The host: the random source, the clock and [Math.pow]. *)
Variable Math_random : nat -> Q.
Variable performance_now : nat -> Q.
Variable Math_pow : Q -> Q -> Q.

(** [tryGenerateCommentary(prompt)]: the commentator is called only when
    more than [commentaryCooldown] milliseconds passed since its last call. *)
Definition cooldownOver (now : Q) (last : option Q) : bool :=
  match last with
  | None => true
  | Some t => Js.gtb (now - t) commentaryCooldown
  end.

Definition tryGenerateCommentary (prompt : Prompt) (w : World) : World :=
  let now := performance_now (clockCalls w) in
  let w := mkWorld (game w) (randomCalls w) (S (clockCalls w)) (trace w) in
  if cooldownOver now (lastCommentaryTime (game w)) then
    emit (GenerateCommentary prompt)
      (onGame (with_lastCommentaryTime (Some now)) w)
  else w.

(** The "refined physics simulation" of one car for one tick, with [r] the
    value of [Math.random()]: the updated car and [distanceIncrement]. *)
Definition physics (r : Q) (car : Car.t) : Car.t * Q :=
  let speedInMps := Car.speed car / 3.6 in
  let damagePenalty := Math_pow (1 - Car.damage car / 100) 1.5 in
  let tireGripFactor := 0.4 + (Car.tireWear car / 100) * 0.6 in
  let effectiveHandling := Car.handling car * tireGripFactor in
  let handlingFactor := (r - 0.5) * (12 - effectiveHandling) * 0.12 in
  let distanceIncrement :=
    (speedInMps + speedInMps * handlingFactor) * damagePenalty in
  let baseDamage := Qabs handlingFactor * (15 - Car.handling car) * 0.08 in
  let speedDamageMultiplier := 1 + speedInMps / 70 in
  let damageTaken := baseDamage * speedDamageMultiplier in
  let damage := Qmin 100 (Car.damage car + damageTaken) in
  let baseTireWear :=
    (Qabs handlingFactor * 2 + speedInMps / 100) * 0.06 in
  let tireWear := Qmax 0 (Car.tireWear car - baseTireWear) in
  (Car.mk (Car.name car) (Car.speed car) (Car.handling car) (Car.color car)
     (Car.position car + distanceIncrement) (Car.currentLap car)
     damage tireWear,
   distanceIncrement).

(** [car.position %= stage.length; car.currentLap++]. *)
Definition completeLap (stage : Stage.t) (car : Car.t) : Car.t :=
  Car.mk (Car.name car) (Car.speed car) (Car.handling car) (Car.color car)
    (Js.rem (Car.position car) (Stage.length stage))
    (Car.currentLap car + 1) (Car.damage car) (Car.tireWear car).

(** [car.currentLap > stage.laps]. *)
Definition finished (stage : Stage.t) (car : Car.t) : bool :=
  (Stage.laps stage <? Car.currentLap car)%Z.

(** What the body of [for (const car of this.cars)] reads and writes besides
    the car: the local [winner], the tick's [distanceIncrements], the world. *)
Record Loop : Type := mkLoop {
  winner : option nat;
  distanceIncrements : Dict.t Q;
  world : World
}.

(** The changes of one car in one tick: physics, then the lap wrap. *)
Definition advance (stage : Stage.t) (r : Q) (car : Car.t) : Car.t :=
  let car1 := fst (physics r car) in
  if Js.geb (Car.position car1) (Stage.length stage)
  then completeLap stage car1 else car1.

(** The body of the loop for the car of index [i]. *)
Definition raceCar (stage : Stage.t) (i : nat) (car : Car.t) (st : Loop)
  : Car.t * Loop :=
  if finished stage car then (car, st)
  else
    let w := world st in
    let r := Math_random (randomCalls w) in
    let w := mkWorld (game w) (S (randomCalls w)) (clockCalls w) (trace w) in
    let '(car1, distanceIncrement) := physics r car in
    let incs := Dict.set (Car.name car) distanceIncrement
                  (distanceIncrements st) in
    if Js.geb (Car.position car1) (Stage.length stage) then
      let car2 := completeLap stage car1 in
      let w := emit PlayLapCompletion w in
      if finished stage car2 && negb (Js.truthy (winner st)) then
        let w := onGame (fun g => with_leaderboard
                           (Dict.incr (Car.name car2) (leaderboard g)) g) w in
        let w := emit PlayStageWin w in
        let w := tryGenerateCommentary
                   (StageWon (Car.name car2) (Stage.name stage)) w in
        (car2, mkLoop (Some i) incs w)
      else (car2, mkLoop (winner st) incs w)
    else (car1, mkLoop (winner st) incs w).

(** The world after the body of the loop ran for an active car. *)
Definition bodyWorld (stage : Stage.t) (i : nat) (car : Car.t)
  (st : Loop) : World :=
  let w := world st in
  let r := Math_random (randomCalls w) in
  let w1 := mkWorld (game w) (S (randomCalls w)) (clockCalls w) (trace w) in
  if Js.geb (Car.position (fst (physics r car))) (Stage.length stage) then
    if finished stage (advance stage r car) && negb (Js.truthy (winner st)) then
      tryGenerateCommentary (StageWon (Car.name car) (Stage.name stage))
        (emit PlayStageWin
           (onGame (fun g => with_leaderboard
                               (Dict.incr (Car.name car) (leaderboard g)) g)
              (emit PlayLapCompletion w1)))
    else emit PlayLapCompletion w1
  else w1.

(** The loop over the cars, from index [i]; the cars it returns are written
    back to [this.cars] by [tick] (the body never reads [this.cars]). *)
Fixpoint raceCars (stage : Stage.t) (i : nat) (cs : list Car.t) (st : Loop)
  : list Car.t * Loop :=
  match cs with
  | [] => ([], st)
  | car :: rest =>
      let '(car', st') := raceCar stage i car st in
      let '(rest', st'') := raceCars stage (S i) rest st' in
      (car' :: rest', st'')
  end.

(** The sort key of the source, [currentLap * stage.length + position], and
    the comparison of two keys.  Which car leads depends on whether two keys
    are equal, so the key is computed as the engine computes it: the
    product, the sum and the difference of the comparison are each rounded
    to a double. *)
Definition progress (stage : Stage.t) (c : Car.t) : Q :=
  Js.double
    (Js.double (inject_Z (Car.currentLap c) * Stage.length stage)
     + Car.position c).

Definition carsByProgress (stage : Stage.t) (cs : list Car.t)
  : list (nat * Car.t) :=
  Js.sort
    (fun a b => Js.double (progress stage (snd b) - progress stage (snd a)))
    (filter (fun c => (Car.currentLap (snd c) <=? Stage.laps stage)%Z)
       (Js.indexed 0 cs)).

Definition currentLeader (stage : Stage.t) (cs : list Car.t) : option nat :=
  match carsByProgress stage cs with
  | [] => None
  | c :: _ => Some (fst c)
  end.

Definition carName (cs : list Car.t) (i : nat) : string :=
  match nth_error cs i with
  | Some c => Car.name c
  | None => EmptyString
  end.

(** Leader detection and the overtake commentary, then
    [this.previousLeader = currentLeader]. *)
Definition overtakes (current previous : option nat) : option (nat * nat) :=
  match current, previous with
  | Some c, Some p => if Nat.eqb c p then None else Some (c, p)
  | _, _ => None
  end.

Definition detectOvertake (stage : Stage.t) (w : World) : World :=
  let cs := cars (game w) in
  let leader := currentLeader stage cs in
  let w :=
    match overtakes leader (previousLeader (game w)) with
    | Some (c, p) =>
        tryGenerateCommentary (Overtake (carName cs c) (carName cs p)) w
    | None => w
    end in
  onGame (with_previousLeader leader) w.

(** The world once the loop over the cars of a tick is over and the cars
    are written back, with the local [winner] and [distanceIncrements]. *)
Definition afterCars (stage : Stage.t) (win : option nat) (w : World) : Loop :=
  let '(cs, st) := raceCars stage 0 (cars (game w)) (mkLoop win [] w) in
  mkLoop (winner st) (distanceIncrements st) (onGame (with_cars cs) (world st)).

(** One iteration of [while (!winner && !this.isFinished)]. *)
Definition tick (stage : Stage.t) (win : option nat) (w : World)
  : option nat * World :=
  let '(cs, st) := raceCars stage 0 (cars (game w)) (mkLoop win [] w) in
  let w := onGame (with_cars cs) (world st) in
  let w := detectOvertake stage w in
  let w := emit (UpdateAllVisuals (distanceIncrements st)) w in
  let w := if Js.truthy (winner st)
           then onGame (with_isFinished true) w else w in
  (winner st, w).

(** The [while] loop, for at most [fuel] iterations: [None] when it is still
    running after them. *)
Fixpoint stageLoop (fuel : nat) (stage : Stage.t) (win : option nat)
  (w : World) : option (option nat * World) :=
  match win, isFinished (game w) with
  | None, false =>
      match fuel with
      | O => None
      | S fuel' =>
          let '(win', w') := tick stage win w in
          stageLoop fuel' stage win' w'
      end
  | _, _ => Some (win, w)
  end.

(** The state after [n] iterations of the loop body. *)
Fixpoint ticks (n : nat) (stage : Stage.t) (s : option nat * World)
  : option nat * World :=
  match n with
  | O => s
  | S n' => let '(win, w) := ticks n' stage s in tick stage win w
  end.

(** What [simulateStage] does before the loop. *)
Definition startStage (stage : Stage.t) (w : World) : World :=
  let w := onGame (fun g => with_previousLeader None
                     (with_isFinished false
                        (with_cars (map Car.reset (cars g)) g))) w in
  let w := tryGenerateCommentary (StageStarting (Stage.name stage)) w in
  let w := emit PlayRaceStartCountdown w in
  emit StartEngineHum w.

(** What [simulateStage] does after the loop. *)
Definition stageRecord (stage : Stage.t) (win : option nat)
  (cs : list Car.t) : StageResult.t :=
  StageResult.mk (Stage.name stage)
    (winnerLabel (match win with
                  | Some i => nth_error cs i
                  | None => None
                  end))
    (finalStandings cs).

Definition finishStage (stage : Stage.t) (win : option nat) (w : World)
  : World :=
  let w := emit StopEngineHum w in
  onGame (fun g =>
            with_currentStageIndex (S (currentStageIndex g))
              (with_stageResults
                 (stageResults g ++ [stageRecord stage win (cars g)]) g)) w.

(** [simulateStage(stage)], its loop bounded by [fuel] ticks. *)
Definition simulateStage (fuel : nat) (stage : Stage.t) (w : World)
  : option World :=
  match stageLoop fuel stage None (startStage stage w) with
  | Some (win, w') => Some (finishStage stage win w')
  | None => None
  end.

(** [for (let i = this.currentStageIndex; i < this.stages.length; i++)]: the
    stages from the current index on, in order. *)
Fixpoint runStages (fuel : nat) (todo : list Stage.t) (w : World)
  : option World :=
  match todo with
  | [] => Some w
  | stage :: rest =>
      match simulateStage fuel stage w with
      | Some w' => runStages fuel rest w'
      | None => None
      end
  end.

(** [runRace()], each stage bounded by [fuel] ticks. *)
Definition runRace (fuel : nat) (w : World) : option (World * RaceResult.t) :=
  let w := if Nat.eqb (currentStageIndex (game w)) 0
           then onGame resetForNewRace w else w in
  match runStages fuel
          (skipn (currentStageIndex (game w)) (stages (game w))) w with
  | None => None
  | Some w =>
      let overallWinner := getOverallWinner (game w) in
      let w := emit PlayRaceWin w in
      let w := tryGenerateCommentary (Champion overallWinner) w in
      Some (w, RaceResult.mk overallWinner (leaderboard (game w))
                 (stageResults (game w)))
  end.

End Engine.

(** ** Saving and loading *)

(** The object [saveGameState] writes under [savedRacingGame].  The JSON text
    is not modelled: [JSON.parse (JSON.stringify x)] gives back the plain data
    of [x], here a car's data is again a [Car.t]. *)
Record SavedState : Type := mkSavedState {
  saved_cars : list Car.t;
  saved_stages : list Stage.t;
  saved_leaderboard : Dict.t Z;
  saved_stageResults : list StageResult.t;
  saved_currentStageIndex : nat;
  saved_difficulty : string
}.

(** [saveGameState()]: [racingGame] is the global (possibly unset), [storage]
    the item of [localStorage]; the result is the item afterwards. *)
Definition saveGameState (difficulty : string) (racingGame : option RacingGame)
  (storage : option SavedState) : option SavedState :=
  match racingGame with
  | None => storage
  | Some g =>
      Some (mkSavedState (cars g) (stages g) (leaderboard g) (stageResults g)
              (currentStageIndex g) difficulty)
  end.

(** [Object.assign(car, savedCar)]: every own property of the saved car. *)
Definition Object_assign (car savedCar : Car.t) : Car.t :=
  Car.mk (Car.name savedCar) (Car.speed savedCar) (Car.handling savedCar)
    (Car.color savedCar) (Car.position savedCar) (Car.currentLap savedCar)
    (Car.damage savedCar) (Car.tireWear savedCar).

(** [racingGame.cars.forEach((car, index) => ...)] of [loadGameState]. *)
Fixpoint restoreCars (index : nat) (cs : list Car.t) (saved : list Car.t)
  : list Car.t :=
  match cs with
  | [] => []
  | car :: rest =>
      match nth_error saved index with
      | Some savedCar => Object_assign car savedCar
      | None => car
      end :: restoreCars (S index) rest saved
  end.

(** [loadGameState()]: the global [racingGame] afterwards. *)
Definition loadGameState (storage : option SavedState)
  (racingGame : option RacingGame) : option RacingGame :=
  match storage with
  | None => racingGame
  | Some savedState =>
      let cars0 :=
        map (fun c => Car.new (Car.name c) (Car.speed c) (Car.handling c)
                        (Car.color c)) (saved_cars savedState) in
      let stages0 :=
        map (fun s => Stage.mk (Stage.name s) (Stage.length s) (Stage.laps s))
          (saved_stages savedState) in
      let g := newRacingGame cars0 stages0 in
      let g := with_leaderboard (saved_leaderboard savedState) g in
      let g := with_stageResults (saved_stageResults savedState) g in
      let g := with_currentStageIndex (saved_currentStageIndex savedState) g in
      Some (with_cars (restoreCars 0 (cars g) (saved_cars savedState)) g)
  end.

(** ** The difficulty presets of [initializeGame] *)

Definition initializeGame (difficulty : string) : RacingGame :=
  if String.eqb difficulty "easy" then
    newRacingGame
      [ Car.new "Eagle" 220 8 "#3498db"; Car.new "Viper" 210 9 "#e74c3c";
        Car.new "Shadow" 230 7 "#333"; Car.new "Bolt" 215 8.5 "#f1c40f" ]
      [ Stage.mk "Urban Sprint" 1000 3 ]
  else if String.eqb difficulty "medium" then
    newRacingGame
      [ Car.new "Fusion" 240 7 "#9b59b6"; Car.new "Apex" 235 8 "#2ecc71";
        Car.new "Blaze" 250 6 "#e67e22"; Car.new "Sting" 230 9 "#1abc9c" ]
      [ Stage.mk "City Circuit" 1500 4; Stage.mk "Coastal Run" 2000 3 ]
  else
    newRacingGame
      [ Car.new "Titan" 260 6 "#eee"; Car.new "Wraith" 250 7.5 "#34495e";
        Car.new "Goliath" 270 5 "#95a5a6"; Car.new "Phantom" 255 8 "#7f8c8d" ]
      [ Stage.mk "Mountain Pass" 2500 5; Stage.mk "Desert Rally" 3000 4;
        Stage.mk "Final Speedway" 1800 8 ].

(** A world around a game in which the host was not called yet. *)
Definition freshWorld (g : RacingGame) : World := mkWorld g 0 0 [].

(** ** Race history and race summary *)

(** [updateRaceHistory(result)]: the new value of the global [raceHistory]
    (which is then written to [localStorage] and rendered): [unshift], then
    [pop] when more than five results are held. *)
Definition updateRaceHistory (result : RaceResult.t)
  (raceHistory : list RaceResult.t) : list RaceResult.t :=
  let raceHistory := result :: raceHistory in
  if (5 <? List.length raceHistory)%nat then removelast raceHistory
  else raceHistory.

(** The rows [showRaceSummary] displays:
    [Object.entries(result.leaderboard).sort(([, a], [, b]) => b - a)]. *)
Definition summaryRows (result : RaceResult.t) : list (string * Z) :=
  Js.sort (fun a b => inject_Z (snd b) - inject_Z (snd a))
    (RaceResult.leaderboard result).

(** ** What [updateAllVisuals] computes for a car *)

(** [translateX]: [progress * (containerWidth - carWidth)] with
    [progress = car.position / stage.length]. *)
Definition carOffset (stage : Stage.t) (containerWidth carWidth : Q)
  (car : Car.t) : Q :=
  Car.position car / Stage.length stage * (containerWidth - carWidth).

(** The lap of the lap counter:
    [car.currentLap > stage.laps ? stage.laps : car.currentLap]. *)
Definition lapShown (stage : Stage.t) (car : Car.t) : Z :=
  if (Stage.laps stage <? Car.currentLap car)%Z then Stage.laps stage
  else Car.currentLap car.

(** The width of the damage bar, in percent, and its color. *)
Definition damagePercent (car : Car.t) : Q := 100 - Car.damage car.

Definition damageBarColor (car : Car.t) : string :=
  if Js.gtb 30 (damagePercent car) then "#e74c3c"
  else if Js.gtb 60 (damagePercent car) then "#f1c40f"
  else "#2ecc71".

(** [distanceIncrements[car.name] || 0]: a missing entry and [0] give [0]. *)
Definition incrementOf (distanceIncrements : Dict.t Q) (car : Car.t) : Q :=
  match Dict.get (Car.name car) distanceIncrements with
  | Some x => if Qeq_bool x 0 then 0 else x
  | None => 0
  end.

(** [Math.min(5, Math.floor(increment / 3))], and the number of particles
    the loop [for (let i = 0; i < numNewParticles; i++)] pushes. *)
Definition numNewParticles (distanceIncrements : Dict.t Q) (car : Car.t) : Z :=
  Z.min 5 (Qfloor (incrementOf distanceIncrements car / 3)).

Definition particlesPushed (distanceIncrements : Dict.t Q) (car : Car.t)
  : nat :=
  Z.to_nat (numNewParticles distanceIncrements car).

(** ** The service worker ([sw.js])

    The cache storage is a dictionary from cache names to caches, a cache a
    dictionary from URLs to responses; a request is its URL.  The network
    answers a URL with a response or fails ([None]).  Promises are read as
    their outcome. *)

Module ServiceWorker.

Definition CACHE_NAME : string := "js-grand-prix-v2".

Definition URLS_TO_CACHE : list string :=
  ["/"; "/index.html"; "/index.css"; "/index.tsx"; "/notebook.js"]%string.

Section Worker.

Variable Response : Type.

Definition Cache : Type := Dict.t Response.
Definition CacheStorage : Type := Dict.t Cache.

(** [caches.delete(name)]. *)
Fixpoint delete (name : string) (caches : CacheStorage) : CacheStorage :=
  match caches with
  | [] => []
  | (n, c) :: rest =>
      if String.eqb name n then rest else (n, c) :: delete name rest
  end.

(** [caches.match(request)]: the first cache, in creation order, that holds
    the request. *)
Fixpoint matchAny (caches : CacheStorage) (request : string)
  : option Response :=
  match caches with
  | [] => None
  | (_, c) :: rest =>
      match Dict.get request c with
      | Some r => Some r
      | None => matchAny rest request
      end
  end.

(** [cache.addAll(urls)]: every URL is fetched; the cache is filled when all
    the fetches succeed, and the promise is rejected ([None]) otherwise. *)
Fixpoint fetchAll (network : string -> option Response) (urls : list string)
  : option (list (string * Response)) :=
  match urls with
  | [] => Some []
  | u :: rest =>
      match network u, fetchAll network rest with
      | Some r, Some rs => Some ((u, r) :: rs)
      | _, _ => None
      end
  end.

Definition addAll (network : string -> option Response) (urls : list string)
  (cache : Cache) : option Cache :=
  match fetchAll network urls with
  | Some rs => Some (fold_left (fun c ur => Dict.set (fst ur) (snd ur) c) rs cache)
  | None => None
  end.

(** The [install] handler: [caches.open(CACHE_NAME)] (the cache is created
    when there is none), then [addAll].  The storage when the promise handed
    to [waitUntil] is fulfilled. *)
Definition install (network : string -> option Response)
  (caches : CacheStorage) : option CacheStorage :=
  let cache := match Dict.get CACHE_NAME caches with
               | Some c => c
               | None => []
               end in
  match addAll network URLS_TO_CACHE cache with
  | Some cache' => Some (Dict.set CACHE_NAME cache' caches)
  | None => None
  end.

(** The [activate] handler: every cache with another name is deleted. *)
Definition activate (caches : CacheStorage) : CacheStorage :=
  fold_left (fun cs name => delete name cs)
    (filter (fun name => negb (String.eqb name CACHE_NAME)) (Dict.keys caches))
    caches.

(** The [fetch] handler: the cached response, or else the network. *)
Definition respondWith (network : string -> option Response)
  (caches : CacheStorage) (request : string) : option Response :=
  match matchAny caches request with
  | Some response => Some response
  | None => network request
  end.

End Worker.

End ServiceWorker.

(** ** A host for the examples

    The square root truncated to six decimals gives an implementation of
    [Math.pow] for the exponent the engine passes, [1.5]. *)

Definition sqrt6 (x : Q) : Q :=
  inject_Z (Z.sqrt (Qfloor (x * 1000000000000))) / 1000000.

Definition pow_1_5 (base exponent : Q) : Q := base * sqrt6 base.

(** A random source that replays [draws], then returns [0.5] forever. *)
Definition replay (draws : list Q) (k : nat) : Q := nth k draws 0.5.

(** A clock that advances [step] milliseconds per call, from [0]. *)
Definition clockEvery (step : Q) (k : nat) : Q := inject_Z (Z.of_nat k) * step.

(** The easy preset, about to run its only stage. *)
Definition urbanSprint : Stage.t := Stage.mk "Urban Sprint" 1000 3.

Definition easyWorld : World := freshWorld (initializeGame "easy").


(** A game without cars. *)
Definition emptyWorld : World :=
  freshWorld (newRacingGame [] [Stage.mk "Urban Sprint" 1000 3]).

(** The easy preset on its stage: all cars draw [0.5] in the first tick; in
    the second tick the last car, Bolt, draws [0.99].  The clock advances
    1250 ms from one call to the next. *)
Definition lateCharge (n : nat) : option nat * World :=
  ticks (replay [0.5; 0.5; 0.5; 0.5; 0.5; 0.5; 0.5; 0.99]) (clockEvery 1250)
    pow_1_5 n (Stage.mk "Urban Sprint" 1000 3)
    (None,
     startStage (clockEvery 1250) (Stage.mk "Urban Sprint" 1000 3)
       (freshWorld (initializeGame "easy"))).

(** The first tick of the same stage with Eagle and Bolt side by side:
    the draws are [0.5] for Eagle, [0] for Viper and for Shadow, and the
    double [0x1.1c5995f8a1072p-1] for Bolt. *)
Definition photoFinish : option nat * World :=
  ticks (replay [0.5; 0; 0; 5002337127633010 # 9007199254740992])
    (clockEvery 50) pow_1_5 1 urbanSprint
    (None, startStage (clockEvery 50) urbanSprint easyWorld).

(** A race of two short stages, interrupted after the first one: Eagle won
    it, the cursor is on the second stage. *)
Definition midRace : RacingGame :=
  with_currentStageIndex 1
    (with_stageResults
       [StageResult.mk "Drag Strip" "Eagle"
          [Standing.mk "Eagle" 0 999; Standing.mk "Viper" 0 999]]
       (with_leaderboard [("Eagle"%string, 1%Z); ("Viper"%string, 0%Z)]
          (newRacingGame
             [Car.new "Eagle" 220 8 "#3498db"; Car.new "Viper" 210 9 "#e74c3c"]
             [Stage.mk "Drag Strip" 100 1; Stage.mk "Back Straight" 120 1]))).

(** That race, saved and loaded again. *)
Definition midRaceLoaded : RacingGame :=
  match loadGameState (saveGameState "easy" (Some midRace) None) None with
  | Some g => g
  | None => midRace
  end.

(** A new race of two short stages. *)
Definition shortRace : World :=
  freshWorld
    (newRacingGame
       [Car.new "Eagle" 220 8 "#3498db"; Car.new "Viper" 210 9 "#e74c3c"]
       [Stage.mk "Drag Strip" 100 1; Stage.mk "Back Straight" 120 1]).

(** A short stage: one lap of a hundred meters. *)
Definition dragStrip : Stage.t := Stage.mk "Drag Strip" 100 1.

(** ** The formulas of the specification

    The physics step as the specification words it, to be compared with
    [physics]. *)

Module Spec.

Definition speedInMps (car : Car.t) : Q := Car.speed car / 3.6.

Definition damagePenalty (pow : Q -> Q -> Q) (car : Car.t) : Q :=
  pow (1 - Car.damage car / 100) 1.5.

Definition tireGripFactor (car : Car.t) : Q :=
  0.4 + (Car.tireWear car / 100) * 0.6.

Definition handlingFactor (r : Q) (car : Car.t) : Q :=
  (r - 0.5) * (12 - Car.handling car * tireGripFactor car) * 0.12.

Definition distanceIncrement (pow : Q -> Q -> Q) (r : Q) (car : Car.t) : Q :=
  (speedInMps car + speedInMps car * handlingFactor r car)
  * damagePenalty pow car.

Definition newDamage (r : Q) (car : Car.t) : Q :=
  Qmin 100
    (Car.damage car
     + Qabs (handlingFactor r car) * (15 - Car.handling car) * 0.08
       * (1 + speedInMps car / 70)).

Definition newTireWear (r : Q) (car : Car.t) : Q :=
  Qmax 0
    (Car.tireWear car
     - (Qabs (handlingFactor r car) * 2 + speedInMps car / 100) * 0.06).

Definition newPosition (pow : Q -> Q -> Q) (r : Q) (car : Car.t) : Q :=
  Car.position car + distanceIncrement pow r car.

(** The progress the specification ranks cars by. *)
Definition progress (stage : Stage.t) (car : Car.t) : Q :=
  inject_Z (Car.currentLap car - 1) * Stage.length stage + Car.position car.

End Spec.

(** ** Vocabulary of the statements *)

(** The car has not finished the stage: [currentLap <= stage.laps]. *)
Definition active (stage : Stage.t) (car : Car.t) : Prop :=
  (Car.currentLap car <= Stage.laps stage)%Z.

(** How many of the cars draw a random number in a tick. *)
Definition drawsOf (stage : Stage.t) (cs : list Car.t) : nat :=
  List.length (filter (fun c => negb (finished stage c)) cs).

(** Damage and tire wear are percentages. *)
Definition healthy (car : Car.t) : Prop :=
  0 <= Car.damage car <= 100 /\ 0 <= Car.tireWear car <= 100.

(** The position is inside the lap. *)
Definition onTrack (stage : Stage.t) (car : Car.t) : Prop :=
  0 <= Car.position car < Stage.length stage.

(** A car in the documented ranges, sound and inside the lap. *)
Definition raceworthy (stage : Stage.t) (c : Car.t) : Prop :=
  healthy c /\ onTrack stage c
  /\ 0 <= Car.handling c <= 10 /\ 0 <= Car.speed c.

(** The attributes a race never changes. *)
(** The product [currentLap * stage.length] of the sort key is a double. *)
Definition exactLap (stage : Stage.t) (car : Car.t) : Prop :=
  Js.double (inject_Z (Car.currentLap car) * Stage.length stage)
  == inject_Z (Car.currentLap car) * Stage.length stage.

Definition sameCar (c c' : Car.t) : Prop :=
  Car.name c' = Car.name c /\ Car.speed c' = Car.speed c
  /\ Car.handling c' = Car.handling c /\ Car.color c' = Car.color c.

Definition isOvertakeCommentary (e : Event) : bool :=
  match e with
  | GenerateCommentary (Overtake _ _) => true
  | _ => false
  end.

(** The leaderboard entry holds [m] wins. *)
Definition winsAre (m : Z) (e : string * Z) : bool := (snd e =? m)%Z.

(** The loop of [simulateStage] goes on from this state. *)
Definition running (s : option nat * World) : Prop :=
  fst s = None /\ isFinished (game (snd s)) = false.

Definition isStageWin (e : Event) : bool :=
  match e with
  | PlayStageWin => true
  | _ => false
  end.

Definition isEngineHum (e : Event) : bool :=
  match e with
  | StartEngineHum | StopEngineHum => true
  | _ => false
  end.

(** 1 when the local [winner] of [simulateStage] goes from [null] to a
    car, 0 otherwise. *)
Definition newWinner (before after : option nat) : nat :=
  match before, after with
  | None, Some _ => 1
  | _, _ => 0
  end.

(** From [w] to [w'] the stage-win jingle is played [times] times and the
    engine hum is neither started nor stopped. *)
Definition playsStageWin (times : nat) (w w' : World) : Prop :=
  exists evs,
    trace w' = trace w ++ evs
    /\ List.length (filter isStageWin evs) = times
    /\ forallb (fun e => negb (isEngineHum e)) evs = true.

(** The number of stage wins the leaderboard holds. *)
Definition totalWins (lb : Dict.t Z) : Z := fold_right Z.add 0%Z (map snd lb).

(** No car is named ["__proto__"]: every name can be a key of the
    leaderboard. *)
Definition ownNames (cs : list Car.t) : Prop :=
  forallb (fun c => Dict.assignable (Car.name c)) cs = true.

(** No name is a numeral: the leaderboard enumerates the names in the order
    in which they were entered. *)
Definition namesInOrder (cs : list Car.t) : Prop :=
  forallb (fun c => negb (Dict.numeral (Car.name c))) cs = true.

(** Every car has an entry in the leaderboard. *)
Definition listed (lb : Dict.t Z) (cs : list Car.t) : Prop :=
  forall c, In c cs -> Dict.get (Car.name c) lb <> None.

(** What the loop over the cars and the commentary leave alone. *)
Definition sameRace (w w' : World) : Prop :=
  cars (game w') = cars (game w)
  /\ stages (game w') = stages (game w)
  /\ isFinished (game w') = isFinished (game w)
  /\ previousLeader (game w') = previousLeader (game w)
  /\ stageResults (game w') = stageResults (game w)
  /\ currentStageIndex (game w') = currentStageIndex (game w).

(** The trace grows, by events that are no overtake commentary. *)
Definition noOvertakeSince (w w' : World) : Prop :=
  exists evs, trace w' = trace w ++ evs
              /\ forallb (fun e => negb (isOvertakeCommentary e)) evs = true.

(** What a tick may do to a car. *)
Definition moved (random : nat -> Q) (pow : Q -> Q -> Q) (stage : Stage.t)
  (c c' : Car.t) : Prop :=
  c' = c \/ exists k, finished stage c = false
                      /\ c' = advance pow stage (random k) c.

(** * Properties *)

(** ** Dictionaries *)

Lemma get_set_same {V : Type} (k : string) (v : V) (d : Dict.t V) :
  Dict.get k (Dict.set k v d) = Some v.
Proof.
  induction d as [|[k' v'] d IH]; simpl.
  - now rewrite String.eqb_refl.
  - destruct (String.eqb k k') eqn:E; simpl; rewrite E; auto.
Qed.

Lemma get_set_other {V : Type} (k k0 : string) (v : V) (d : Dict.t V) :
  k0 <> k -> Dict.get k0 (Dict.set k v d) = Dict.get k0 d.
Proof.
  intros Hne. induction d as [|[k' v'] d IH]; simpl.
  - destruct (String.eqb k0 k) eqn:E; auto.
    apply String.eqb_eq in E. contradiction.
  - destruct (String.eqb k k') eqn:E; simpl.
    + apply String.eqb_eq in E. subst k'.
      destruct (String.eqb k0 k) eqn:E0; auto.
      apply String.eqb_eq in E0. contradiction.
    + now rewrite IH.
Qed.

Lemma keys_set_present {V : Type} (k : string) (v : V) (d : Dict.t V) :
  Dict.get k d <> None -> Dict.keys (Dict.set k v d) = Dict.keys d.
Proof.
  induction d as [|[k' v'] d IH]; simpl; intros H.
  - contradiction.
  - destruct (String.eqb k k') eqn:E; simpl; auto.
    f_equal. now apply IH.
Qed.

Lemma keys_set_absent {V : Type} (k : string) (v : V) (d : Dict.t V) :
  Dict.get k d = None -> Dict.keys (Dict.set k v d) = Dict.keys d ++ [k].
Proof.
  induction d as [|[k' v'] d IH]; simpl; intros H; auto.
  destruct (String.eqb k k') eqn:E; try discriminate.
  simpl. f_equal. now apply IH.
Qed.

Lemma get_in_keys {V : Type} (k : string) (d : Dict.t V) :
  Dict.get k d <> None <-> In k (Dict.keys d).
Proof.
  induction d as [|[k' v'] d IH]; simpl.
  - split; [congruence | contradiction].
  - destruct (String.eqb k k') eqn:E.
    + apply String.eqb_eq in E. subst. split; [auto | congruence].
    + apply String.eqb_neq in E. rewrite IH. split; [auto | intros [H|H]; congruence].
Qed.

Lemma get_Some_in {V : Type} (k : string) (v : V) (d : Dict.t V) :
  Dict.get k d = Some v -> In (k, v) d.
Proof.
  induction d as [|[k' v'] d IH]; simpl; [discriminate|].
  destruct (String.eqb k k') eqn:E.
  - apply String.eqb_eq in E. intros [= ->]. subst. auto.
  - auto.
Qed.

Lemma in_get_Some {V : Type} (k : string) (v : V) (d : Dict.t V) :
  NoDup (Dict.keys d) -> In (k, v) d -> Dict.get k d = Some v.
Proof.
  induction d as [|[k' v'] d IH]; simpl; [contradiction|].
  intros Hnd [H|H].
  - injection H as -> ->. now rewrite String.eqb_refl.
  - inversion Hnd as [|? ? Hnotin Hnd']; subst.
    destruct (String.eqb k k') eqn:E.
    + apply String.eqb_eq in E. subst. exfalso. apply Hnotin.
      change (In (fst (k', v)) (map fst d)). now apply in_map.
    + auto.
Qed.

Lemma keys_set_NoDup {V : Type} (k : string) (v : V) (d : Dict.t V) :
  NoDup (Dict.keys d) -> NoDup (Dict.keys (Dict.set k v d)).
Proof.
  intros Hnd. destruct (Dict.get k d) eqn:E.
  - rewrite keys_set_present; [auto | congruence].
  - rewrite keys_set_absent by auto.
    apply NoDup_app; [auto | repeat constructor; auto | ].
    intros x Hx [<-|[]]. apply get_in_keys in Hx. congruence.
Qed.

(** ** Sorting *)

Lemma insert_perm {A : Type} (cmp : A -> A -> Q) (x : A) (l : list A) :
  Permutation (x :: l) (Js.insert cmp x l).
Proof.
  induction l as [|y l IH]; simpl; auto.
  destruct (Qle_bool (cmp x y) 0); auto.
  rewrite perm_swap. now constructor.
Qed.

Lemma sort_perm {A : Type} (cmp : A -> A -> Q) (l : list A) :
  Permutation l (Js.sort cmp l).
Proof.
  induction l as [|x l IH]; simpl; auto.
  rewrite <- insert_perm. now constructor.
Qed.

(** The comparison orders by a key: [cmp a b <= 0] exactly when the key of
    [a] is at most the key of [b]. *)
Section SortByKey.

Context {A : Type}.
Variable cmp : A -> A -> Q.
Variable key : A -> Q.
Hypothesis cmp_key : forall a b, cmp a b <= 0 <-> key a <= key b.

Lemma cmp_false (a b : A) : Qle_bool (cmp a b) 0 = false -> key b < key a.
Proof.
  intros H. apply Qnot_le_lt. intros Hle. apply cmp_key in Hle.
  apply Qle_bool_iff in Hle. congruence.
Qed.

Lemma cmp_true (a b : A) : Qle_bool (cmp a b) 0 = true -> key a <= key b.
Proof. intros H. apply cmp_key. now apply Qle_bool_iff. Qed.

(** The first element of a sorted array has the least key. *)
Lemma insert_head (x : A) (l : list A) :
  (forall h t, l = h :: t -> forall y, In y l -> key h <= key y) ->
  forall h t, Js.insert cmp x l = h :: t ->
  forall y, In y (x :: l) -> key h <= key y.
Proof.
  intros Hl h t. destruct l as [|z l]; simpl.
  - intros [= <- <-] y [<-|[]]. apply Qle_refl.
  - specialize (Hl z l eq_refl).
    destruct (Qle_bool (cmp x z) 0) eqn:E.
    + apply cmp_true in E. intros [= <- <-] y [<-|Hy].
      * apply Qle_refl.
      * specialize (Hl y Hy). lra.
    + apply cmp_false in E. intros [= <- <-] y [<-|Hy].
      * lra.
      * now apply Hl.
Qed.

Lemma sort_head (l : list A) (h : A) (t : list A) :
  Js.sort cmp l = h :: t -> forall y, In y l -> key h <= key y.
Proof.
  revert h t. induction l as [|x l IH]; simpl; intros h t H y Hy.
  - contradiction.
  - apply (insert_head x (Js.sort cmp l)) with (t := t); auto.
    + intros h' t' E y' Hy'. apply (IH h' t' E).
      apply Permutation_in with (2 := Hy'). symmetry. apply sort_perm.
    + destruct Hy as [<-|Hy]; [now left | right].
      apply Permutation_in with (2 := Hy). apply sort_perm.
Qed.

(** The sort is stable: what came before the first element of the sorted
    array has a strictly greater key. *)
Lemma sort_head_stable (l : list A) (h : A) (t : list A) :
  Js.sort cmp l = h :: t ->
  exists l1 l2,
    l = l1 ++ h :: l2
    /\ (forall y, In y l1 -> key h < key y)
    /\ (forall y, In y l2 -> key h <= key y).
Proof.
  revert h t. induction l as [|x l IH]; simpl; intros h t H; [discriminate H|].
  destruct (Js.sort cmp l) as [|h' t'] eqn:E.
  - simpl in H. injection H as <- <-.
    assert (l = []) as -> by (apply Permutation_nil; symmetry;
                              rewrite <- E; apply sort_perm).
    exists [], []. split; [reflexivity|]. split; intros y [].
  - simpl in H. destruct (Qle_bool (cmp x h') 0) eqn:C.
    + injection H as <- <-. exists [], l. split; [reflexivity|].
      split; [intros y []|]. intros y Hy. apply cmp_true in C.
      pose proof (sort_head l h' t' E y Hy). lra.
    + injection H as <- <-.
      destruct (IH h' t' eq_refl) as (l1 & l2 & -> & H1 & H2).
      exists (x :: l1), l2. split; [reflexivity|]. split; [|exact H2].
      intros y [<-|Hy]; [now apply cmp_false | now apply H1].
Qed.

Lemma insert_sorted (x : A) (l : list A) :
  Sorted (fun a b => key a <= key b) l ->
  Sorted (fun a b => key a <= key b) (Js.insert cmp x l).
Proof.
  induction l as [|y l IH]; simpl; intros Hs.
  - repeat constructor.
  - destruct (Qle_bool (cmp x y) 0) eqn:E.
    + apply cmp_true in E. constructor; auto.
    + apply cmp_false in E.
      inversion Hs as [|? ? Hs' Hhd]; subst.
      constructor; auto.
      destruct l as [|z l]; simpl.
      * constructor. lra.
      * destruct (Qle_bool (cmp x z) 0); constructor; try lra.
        now inversion Hhd.
Qed.

Lemma sort_sorted (l : list A) :
  Sorted (fun a b => key a <= key b) (Js.sort cmp l).
Proof.
  induction l as [|x l IH]; simpl; [constructor | now apply insert_sorted].
Qed.

End SortByKey.

(** ** Rounding to a double *)

Lemma two_pos (z : Z) : 0 < 2 ^ z.
Proof. apply Qpower_0_lt. reflexivity. Qed.

Lemma two_plus (a b : Z) : 2 ^ (a + b) == 2 ^ a * 2 ^ b.
Proof. apply Qpower_plus. discriminate. Qed.

Lemma two_inject (a : Z) : (0 <= a)%Z -> inject_Z (2 ^ a) == 2 ^ a.
Proof. intros H. now rewrite Zpower_Qpower. Qed.

Lemma two_S (a : Z) : 2 ^ (a + 1) == 2 * 2 ^ a.
Proof. rewrite two_plus. change (2 ^ 1) with 2. ring. Qed.

Lemma ilog2_spec (x : Q) :
  0 < x -> 2 ^ Js.ilog2 x <= x /\ x < 2 ^ (Js.ilog2 x + 1).
Proof.
  intros Hx.
  assert (0 < Qnum x)%Z as Hn
    by (revert Hx; destruct x as [n d]; unfold Qlt; simpl; lia).
  destruct (Z.log2_spec (Qnum x) Hn) as [Na Nb].
  destruct (Z.log2_spec (Zpos (Qden x)) eq_refl) as [Da Db].
  pose proof (Z.log2_nonneg (Qnum x)) as An.
  pose proof (Z.log2_nonneg (Zpos (Qden x))) as Bn.
  set (a := Z.log2 (Qnum x)) in *. set (b := Z.log2 (Zpos (Qden x))) in *.
  assert (x * inject_Z (Zpos (Qden x)) == inject_Z (Qnum x)) as E.
  { destruct x as [n d]. unfold Qeq, Qmult, inject_Z. simpl. lia. }
  assert (0 < inject_Z (Zpos (Qden x))) as Dpos by reflexivity.
  rewrite Zle_Qle, two_inject in Na, Da by lia.
  rewrite Zlt_Qlt, two_inject in Nb, Db by lia.
  change (Z.succ a) with (a + 1)%Z in Nb.
  change (Z.succ b) with (b + 1)%Z in Db.
  rewrite two_S in Nb, Db.
  set (D := inject_Z (Zpos (Qden x))) in *.
  set (N := inject_Z (Qnum x)) in *.
  unfold Js.ilog2. fold a b.
  assert (2 ^ a == 2 ^ (a - b) * 2 ^ b) as K.
  { rewrite <- two_plus. now replace (a - b + b)%Z with a by lia. }
  pose proof (two_pos (a - b)) as Pk. pose proof (two_pos b) as Pb.
  destruct (Qle_bool (2 ^ (a - b)) x) eqn:L.
  - apply Qle_bool_iff in L. split; [exact L|]. rewrite two_S.
    set (k := 2 ^ (a - b)) in *. set (B := 2 ^ b) in *. set (A := 2 ^ a) in *.
    nra.
  - assert (x < 2 ^ (a - b)) as L'.
    { apply Qnot_le_lt. intros H. apply Qle_bool_iff in H. congruence. }
    replace (a - b - 1 + 1)%Z with (a - b)%Z by lia. split; [|exact L'].
    assert (2 ^ (a - b) == 2 * 2 ^ (a - b - 1)) as K2.
    { rewrite <- two_S. now replace (a - b - 1 + 1)%Z with (a - b)%Z by lia. }
    pose proof (two_pos (a - b - 1)) as Pk1.
    set (k := 2 ^ (a - b)) in *. set (k1 := 2 ^ (a - b - 1)) in *.
    set (B := 2 ^ b) in *. set (A := 2 ^ a) in *.
    nra.
Qed.

Lemma nearestEven_Z (n : Z) : Js.nearestEven (inject_Z n) = n.
Proof.
  unfold Js.nearestEven. rewrite Qfloor_Z.
  destruct (Qcompare_spec (inject_Z n - inject_Z n) (1 # 2)) as [H|H|H];
    [exfalso; lra | reflexivity | exfalso; lra].
Qed.

Lemma nearestEven_mono (x y : Q) :
  x <= y -> (Js.nearestEven x <= Js.nearestEven y)%Z.
Proof.
  intros H. pose proof (Qfloor_resp_le x y H) as F.
  pose proof (Qfloor_le x) as X1. pose proof (Qlt_floor x) as X2.
  pose proof (Qfloor_le y) as Y1. pose proof (Qlt_floor y) as Y2.
  unfold Js.nearestEven.
  destruct (Z.eq_dec (Qfloor x) (Qfloor y)) as [E|E].
  - rewrite <- E in *.
    destruct (Qcompare_spec (x - inject_Z (Qfloor x)) (1 # 2)) as [A|A|A];
      destruct (Qcompare_spec (y - inject_Z (Qfloor x)) (1 # 2)) as [B|B|B];
      try lia; try (exfalso; lra);
      destruct (Z.even (Qfloor x)); lia.
  - assert (Qfloor x + 1 <= Qfloor y)%Z by lia.
    destruct (Qcompare_spec (x - inject_Z (Qfloor x)) (1 # 2)) as [A|A|A];
      destruct (Qcompare_spec (y - inject_Z (Qfloor y)) (1 # 2)) as [B|B|B];
      try destruct (Z.even (Qfloor x)); try destruct (Z.even (Qfloor y)); lia.
Qed.

(** The rounded value of a positive number stays between the powers of two
    around the number. *)
Lemma magnitude_bounds (x : Q) :
  0 < x ->
  2 ^ Js.ilog2 x <= Js.magnitude x /\ Js.magnitude x <= 2 ^ (Js.ilog2 x + 1).
Proof.
  intros Hx. unfold Js.magnitude. set (u := 2 ^ (Js.ilog2 x - 52)).
  destruct (ilog2_spec x Hx) as [L U].
  pose proof (two_pos (Js.ilog2 x - 52)) as Pu. fold u in Pu.
  assert (2 ^ Js.ilog2 x == inject_Z (2 ^ 52) * u) as E1.
  { unfold u. rewrite two_inject, <- two_plus by lia.
    now replace (52 + (Js.ilog2 x - 52))%Z with (Js.ilog2 x) by lia. }
  assert (2 ^ (Js.ilog2 x + 1) == inject_Z (2 ^ 53) * u) as E2.
  { unfold u. rewrite two_inject, <- two_plus by lia.
    now replace (53 + (Js.ilog2 x - 52))%Z with (Js.ilog2 x + 1)%Z by lia. }
  rewrite E1, E2 in *.
  assert (inject_Z (2 ^ 52) <= x / u) as A by (apply Qle_shift_div_l; lra).
  assert (x / u <= inject_Z (2 ^ 53)) as B by (apply Qle_shift_div_r; lra).
  apply nearestEven_mono in A, B. rewrite nearestEven_Z in A, B.
  rewrite Zle_Qle in A, B.
  split; apply Qmult_le_compat_r; lra.
Qed.

Lemma magnitude_pos (x : Q) : 0 < x -> 0 < Js.magnitude x.
Proof.
  intros H. destruct (magnitude_bounds x H) as [L _].
  pose proof (two_pos (Js.ilog2 x)). lra.
Qed.

Lemma magnitude_mono (x y : Q) :
  0 < x -> x <= y -> Js.magnitude x <= Js.magnitude y.
Proof.
  intros Hx Hxy. assert (0 < y) as Hy by lra.
  destruct (ilog2_spec x Hx) as [Lx Ux]. destruct (ilog2_spec y Hy) as [Ly Uy].
  destruct (magnitude_bounds x Hx) as [_ Bx].
  destruct (magnitude_bounds y Hy) as [By _].
  destruct (Z.lt_trichotomy (Js.ilog2 x) (Js.ilog2 y)) as [H|[H|H]].
  - assert (2 ^ (Js.ilog2 x + 1) <= 2 ^ Js.ilog2 y)
      by (apply Qpower_le_compat_l; [lia | discriminate]).
    lra.
  - unfold Js.magnitude. rewrite H.
    pose proof (two_pos (Js.ilog2 y - 52)) as Pu.
    apply Qmult_le_compat_r; [|lra]. rewrite <- Zle_Qle.
    apply nearestEven_mono. apply Qmult_le_compat_r; [exact Hxy|].
    apply Qinv_le_0_compat. lra.
  - assert (2 ^ (Js.ilog2 y + 1) <= 2 ^ Js.ilog2 x)
      by (apply Qpower_le_compat_l; [lia | discriminate]).
    lra.
Qed.

Lemma double_of_positive (x : Q) : 0 < x -> Js.double x = Js.magnitude x.
Proof.
  destruct x as [[|p|p] d]; intros H; try discriminate H; reflexivity.
Qed.

Lemma double_of_negative (x : Q) :
  x < 0 -> Js.double x = - Js.magnitude (- x).
Proof.
  destruct x as [[|p|p] d]; intros H; try discriminate H; reflexivity.
Qed.

Lemma double_of_zero (x : Q) : x == 0 -> Js.double x = 0.
Proof.
  destruct x as [[|p|p] d]; intros H; try discriminate H; reflexivity.
Qed.

(** Rounding keeps the sign and the order. *)
Lemma double_pos (x : Q) : 0 < x -> 0 < Js.double x.
Proof.
  intros H. rewrite double_of_positive by exact H. now apply magnitude_pos.
Qed.

Lemma double_neg (x : Q) : x < 0 -> Js.double x < 0.
Proof.
  intros H. rewrite double_of_negative by exact H.
  assert (0 < Js.magnitude (- x)) by (apply magnitude_pos; lra). lra.
Qed.

Lemma double_mono (x y : Q) : x <= y -> Js.double x <= Js.double y.
Proof.
  intros H.
  destruct (Q_dec x 0) as [[Hx|Hx]|Hx]; destruct (Q_dec y 0) as [[Hy|Hy]|Hy].
  - rewrite (double_of_negative x), (double_of_negative y) by assumption.
    assert (Js.magnitude (- y) <= Js.magnitude (- x))
      by (apply magnitude_mono; lra). lra.
  - pose proof (double_neg x Hx). pose proof (double_pos y Hy). lra.
  - pose proof (double_neg x Hx). rewrite (double_of_zero y Hy). lra.
  - exfalso; lra.
  - rewrite (double_of_positive x), (double_of_positive y) by assumption.
    now apply magnitude_mono.
  - exfalso; lra.
  - pose proof (double_neg y Hy). exfalso; lra.
  - pose proof (double_pos y Hy). rewrite (double_of_zero x Hx). lra.
  - rewrite (double_of_zero x Hx), (double_of_zero y Hy). lra.
Qed.

Lemma double_le_0 (x : Q) : Js.double x <= 0 <-> x <= 0.
Proof.
  split; intros H.
  - apply Qnot_lt_le. intros Hx. apply double_pos in Hx. lra.
  - destruct (Qle_lt_or_eq _ _ H) as [Hx|Hx].
    + apply double_neg in Hx. lra.
    + rewrite (double_of_zero x Hx). lra.
Qed.

(** ** The remainder *)

Lemma trunc_floor (q : Q) : 0 <= q -> Js.trunc q = Qfloor q.
Proof.
  intros H. destruct q as [n d]. unfold Js.trunc, Qfloor. simpl.
  apply Z.quot_div_nonneg; [| lia].
  unfold Qle in H. simpl in H. lia.
Qed.

Lemma rem_range (a n : Q) : 0 < n -> n <= a -> 0 <= Js.rem a n < n.
Proof.
  intros Hn Ha. unfold Js.rem.
  assert (0 <= a / n) as Hq.
  { apply Qle_shift_div_l; auto. lra. }
  rewrite trunc_floor by auto.
  pose proof (Qfloor_le (a / n)) as Hlo.
  pose proof (Qlt_floor (a / n)) as Hhi.
  rewrite inject_Z_plus in Hhi.
  assert (a == (a / n) * n) as Ea by (field; lra).
  set (q := a / n) in *. set (f := inject_Z (Qfloor q)) in *.
  change (inject_Z 1) with 1 in Hhi.
  split.
  - assert (0 <= n * (q - f)) by (apply Qmult_le_0_compat; lra). lra.
  - assert (0 < n * (f + 1 - q)) by (apply Qmult_lt_0_compat; lra). lra.
Qed.

(** ** The loop over the cars *)

Section CarLoop.

Variable Math_random : nat -> Q.
Variable performance_now : nat -> Q.
Variable Math_pow : Q -> Q -> Q.
Variable stage : Stage.t.

Local Abbreviation tryGen := (tryGenerateCommentary performance_now).
Local Abbreviation physics' := (physics Math_pow).
Local Abbreviation advance' := (advance Math_pow stage).
Local Abbreviation raceCar' := (raceCar Math_random performance_now Math_pow stage).
Local Abbreviation raceCars' := (raceCars Math_random performance_now Math_pow stage).

Lemma sameRace_refl (w : World) : sameRace w w.
Proof. repeat split. Qed.

Lemma sameRace_trans (a b c : World) :
  sameRace a b -> sameRace b c -> sameRace a c.
Proof.
  unfold sameRace. intros (A1 & A2 & A3 & A4 & A5 & A6) (B1 & B2 & B3 & B4 & B5 & B6).
  repeat split; congruence.
Qed.

Lemma noOvertakeSince_refl (w : World) : noOvertakeSince w w.
Proof. exists []. now rewrite app_nil_r. Qed.

Lemma noOvertakeSince_trans (a b c : World) :
  noOvertakeSince a b -> noOvertakeSince b c -> noOvertakeSince a c.
Proof.
  intros (e1 & E1 & F1) (e2 & E2 & F2). exists (e1 ++ e2). split.
  - now rewrite E2, E1, app_assoc.
  - now rewrite forallb_app, F1, F2.
Qed.

Lemma tryGen_sameRace (p : Prompt) (w : World) : sameRace w (tryGen p w).
Proof.
  unfold tryGenerateCommentary. cbn [game lastCommentaryTime].
  destruct (cooldownOver _ _); repeat split.
Qed.

Lemma tryGen_leaderboard (p : Prompt) (w : World) :
  leaderboard (game (tryGen p w)) = leaderboard (game w).
Proof.
  unfold tryGenerateCommentary. cbn [game]. now destruct (cooldownOver _ _).
Qed.

Lemma tryGen_randomCalls (p : Prompt) (w : World) :
  randomCalls (tryGen p w) = randomCalls w.
Proof.
  unfold tryGenerateCommentary. cbn [game]. now destruct (cooldownOver _ _).
Qed.

Lemma tryGen_trace (p : Prompt) (w : World) :
  trace (tryGen p w)
  = trace w
    ++ (if cooldownOver (performance_now (clockCalls w))
             (lastCommentaryTime (game w))
        then [GenerateCommentary p] else []).
Proof.
  unfold tryGenerateCommentary. cbn [game].
  destruct (cooldownOver _ _); simpl; auto. now rewrite app_nil_r.
Qed.

Lemma tryGen_noOvertake (p : Prompt) (w : World) :
  isOvertakeCommentary (GenerateCommentary p) = false ->
  noOvertakeSince w (tryGen p w).
Proof.
  intros Hp. eexists. split; [apply tryGen_trace|].
  destruct (cooldownOver _ _); cbn [forallb]; [rewrite Hp|]; reflexivity.
Qed.

(** The body of the loop skips a car that finished the stage. *)
Lemma raceCar_finished (i : nat) (car : Car.t) (st : Loop) :
  finished stage car = true -> raceCar' i car st = (car, st).
Proof. intros H. unfold raceCar. now rewrite H. Qed.

Lemma advance_finished_lapped (r : Q) (car : Car.t) :
  finished stage car = false ->
  finished stage (advance' r car) = true ->
  Js.geb (Car.position (fst (physics' r car))) (Stage.length stage) = true.
Proof.
  unfold advance. intros Hc.
  destruct (Js.geb _ _); auto.
  unfold finished in *. simpl. congruence.
Qed.

Lemma raceCar_active (i : nat) (car : Car.t) (st : Loop) :
  finished stage car = false ->
  let r := Math_random (randomCalls (world st)) in
  raceCar' i car st
  = (advance' r car,
     mkLoop
       (if finished stage (advance' r car) && negb (Js.truthy (winner st))
        then Some i else winner st)
       (Dict.set (Car.name car) (snd (physics' r car)) (distanceIncrements st))
       (bodyWorld Math_random performance_now Math_pow stage i car st)).
Proof.
  intros Hc r. unfold raceCar, bodyWorld. rewrite Hc. fold r.
  pose proof (advance_finished_lapped r car Hc) as Hl.
  unfold advance in *.
  destruct (physics' r car) as [car1 inc] eqn:Ep.
  assert (Car.name car1 = Car.name car) as Hn
    by (unfold physics in Ep; now injection Ep as <- _).
  assert (finished stage car1 = false) as Hf1
    by (unfold physics in Ep; injection Ep as <- _; exact Hc).
  cbn [fst snd] in *.
  destruct (Js.geb (Car.position car1) (Stage.length stage)).
  - cbn [completeLap Car.name]. rewrite Hn.
    destruct (finished stage (completeLap stage car1) && negb (Js.truthy (winner st)));
      reflexivity.
  - rewrite Hf1. reflexivity.
Qed.

Local Abbreviation bodyWorld' :=
  (bodyWorld Math_random performance_now Math_pow stage).

Lemma bodyWorld_sameRace (i : nat) (car : Car.t) (st : Loop) :
  sameRace (world st) (bodyWorld' i car st).
Proof.
  unfold bodyWorld.
  destruct (Js.geb _ _); [|repeat split].
  destruct (_ && _); [|repeat split].
  eapply sameRace_trans; [|apply tryGen_sameRace]. repeat split.
Qed.

Lemma bodyWorld_noOvertake (i : nat) (car : Car.t) (st : Loop) :
  noOvertakeSince (world st) (bodyWorld' i car st).
Proof.
  unfold bodyWorld.
  destruct (Js.geb _ _);
    [|exists []; split; [cbn [trace]; now rewrite app_nil_r | reflexivity]].
  destruct (_ && _).
  - eapply noOvertakeSince_trans; [|apply tryGen_noOvertake; reflexivity].
    exists [PlayLapCompletion; PlayStageWin]. split; [|reflexivity].
    cbn [emit onGame trace]. now rewrite <- app_assoc.
  - exists [PlayLapCompletion]. now split.
Qed.

Lemma bodyWorld_randomCalls (i : nat) (car : Car.t) (st : Loop) :
  randomCalls (bodyWorld' i car st) = S (randomCalls (world st)).
Proof.
  unfold bodyWorld.
  destruct (Js.geb _ _); [|reflexivity].
  destruct (_ && _); [|reflexivity].
  now rewrite tryGen_randomCalls.
Qed.

Lemma bodyWorld_leaderboard (i : nat) (car : Car.t) (st : Loop) :
  finished stage car = false ->
  leaderboard (game (bodyWorld' i car st))
  = if finished stage (advance' (Math_random (randomCalls (world st))) car)
       && negb (Js.truthy (winner st))
    then Dict.incr (Car.name car) (leaderboard (game (world st)))
    else leaderboard (game (world st)).
Proof.
  intros Hc. unfold bodyWorld.
  destruct (Js.geb _ _) eqn:El.
  - destruct (_ && _); [|reflexivity]. now rewrite tryGen_leaderboard.
  - destruct (finished stage (advance' _ car)) eqn:Ef; [|reflexivity].
    apply advance_finished_lapped in Ef; auto. congruence.
Qed.

(** Unfolding of the loop by one car. *)
Lemma raceCars_cons (i : nat) (car : Car.t) (rest : list Car.t) (st : Loop) :
  raceCars' i (car :: rest) st
  = (fst (raceCar' i car st)
       :: fst (raceCars' (S i) rest (snd (raceCar' i car st))),
     snd (raceCars' (S i) rest (snd (raceCar' i car st)))).
Proof.
  change (raceCars' i (car :: rest) st)
    with (let '(car', st') := raceCar' i car st in
          let '(rest', st'') := raceCars' (S i) rest st' in
          (car' :: rest', st'')).
  destruct (raceCar' i car st) as [c' st']. cbn [fst snd].
  now destruct (raceCars' (S i) rest st').
Qed.

Lemma raceCars_length (i : nat) (cs : list Car.t) (st : Loop) :
  List.length (fst (raceCars' i cs st)) = List.length cs.
Proof.
  revert i st. induction cs as [|car rest IH]; intros i st; auto.
  rewrite raceCars_cons. simpl. now rewrite IH.
Qed.

(** Every car is left as it is or advanced with one random draw. *)
Lemma raceCars_moved (i : nat) (cs : list Car.t) (st : Loop) :
  Forall2 (moved Math_random Math_pow stage) cs (fst (raceCars' i cs st)).
Proof.
  revert i st. induction cs as [|car rest IH]; intros i st.
  - constructor.
  - rewrite raceCars_cons. cbn [fst]. constructor; [|apply IH].
    destruct (finished stage car) eqn:Hc.
    + rewrite raceCar_finished by auto. now left.
    + rewrite raceCar_active by auto. right.
      eexists. split; [exact Hc | reflexivity].
Qed.

Lemma raceCars_sameRace (i : nat) (cs : list Car.t) (st : Loop) :
  sameRace (world st) (world (snd (raceCars' i cs st))).
Proof.
  revert i st. induction cs as [|car rest IH]; intros i st.
  - apply sameRace_refl.
  - rewrite raceCars_cons. cbn [snd].
    eapply sameRace_trans; [|apply IH].
    destruct (finished stage car) eqn:Hc.
    + rewrite raceCar_finished by auto. apply sameRace_refl.
    + rewrite raceCar_active by auto. apply bodyWorld_sameRace.
Qed.

Lemma raceCars_noOvertake (i : nat) (cs : list Car.t) (st : Loop) :
  noOvertakeSince (world st) (world (snd (raceCars' i cs st))).
Proof.
  revert i st. induction cs as [|car rest IH]; intros i st.
  - apply noOvertakeSince_refl.
  - rewrite raceCars_cons. cbn [snd].
    eapply noOvertakeSince_trans; [|apply IH].
    destruct (finished stage car) eqn:Hc.
    + rewrite raceCar_finished by auto. apply noOvertakeSince_refl.
    + rewrite raceCar_active by auto. apply bodyWorld_noOvertake.
Qed.

Lemma raceCars_randomCalls (i : nat) (cs : list Car.t) (st : Loop) :
  randomCalls (world (snd (raceCars' i cs st)))
  = (randomCalls (world st) + drawsOf stage cs)%nat.
Proof.
  revert i st. induction cs as [|car rest IH]; intros i st.
  - simpl. unfold drawsOf. simpl. lia.
  - rewrite raceCars_cons. cbn [snd]. rewrite IH. unfold drawsOf. simpl.
    destruct (finished stage car) eqn:Hc; simpl.
    + now rewrite raceCar_finished by auto.
    + rewrite raceCar_active by auto. cbn [snd world].
      rewrite bodyWorld_randomCalls. lia.
Qed.

(** A winner already declared stays the winner, and the leaderboard is not
    touched again. *)
Lemma raceCars_won (i : nat) (cs : list Car.t) (st : Loop) (x : nat) :
  winner st = Some x ->
  winner (snd (raceCars' i cs st)) = Some x
  /\ leaderboard (game (world (snd (raceCars' i cs st))))
     = leaderboard (game (world st)).
Proof.
  revert i st. induction cs as [|car rest IH]; intros i st Hw.
  - now split.
  - rewrite raceCars_cons. cbn [snd].
    destruct (finished stage car) eqn:Hc.
    + rewrite raceCar_finished by auto. now apply IH.
    + rewrite raceCar_active by auto.
      destruct (IH (S i)
                  (mkLoop
                     (if finished stage
                           (advance' (Math_random (randomCalls (world st))) car)
                         && negb (Js.truthy (winner st))
                      then Some i else winner st)
                     (Dict.set (Car.name car)
                        (snd (physics' (Math_random (randomCalls (world st))) car))
                        (distanceIncrements st))
                     (bodyWorld' i car st))) as [H1 H2].
      * cbn [winner]. rewrite Hw. cbn [Js.truthy negb]. now rewrite andb_false_r.
      * cbn [snd]. split; [exact H1|]. rewrite H2. cbn [world].
        rewrite bodyWorld_leaderboard by auto. rewrite Hw.
        cbn [Js.truthy negb]. now rewrite andb_false_r.
Qed.

(** With no winner yet, the winner is the first car, in the order of the
    loop, that finishes the stage in this tick; the leaderboard entry of its
    name is incremented, once. *)
Lemma raceCars_winner (i : nat) (cs : list Car.t) (st : Loop) :
  winner st = None ->
  let cs' := fst (raceCars' i cs st) in
  let st' := snd (raceCars' i cs st) in
  match winner st' with
  | None =>
      Forall2 (fun c c' => finished stage c = false ->
                           finished stage c' = false) cs cs'
      /\ leaderboard (game (world st')) = leaderboard (game (world st))
  | Some x =>
      exists j c c',
        x = (i + j)%nat
        /\ nth_error cs j = Some c /\ nth_error cs' j = Some c'
        /\ finished stage c = false /\ finished stage c' = true
        /\ Forall2 (fun c c' => finished stage c = false ->
                                finished stage c' = false)
             (firstn j cs) (firstn j cs')
        /\ leaderboard (game (world st'))
           = Dict.incr (Car.name c) (leaderboard (game (world st)))
  end.
Proof.
  revert i st. induction cs as [|car rest IH]; intros i st Hw; cbn zeta.
  - simpl. rewrite Hw. split; [constructor | reflexivity].
  - rewrite raceCars_cons. cbn [fst snd].
    destruct (finished stage car) eqn:Hc.
    + rewrite raceCar_finished by auto. cbn [fst snd].
      specialize (IH (S i) st Hw). cbn zeta in IH.
      destruct (winner (snd (raceCars' (S i) rest st))) as [x|].
      * destruct IH as (j & c & c' & Hx & Hn & Hn' & Hf & Hf' & Hb & Hl).
        exists (S j), c, c'.
        split; [lia|]. split; [exact Hn|]. split; [exact Hn'|].
        split; [exact Hf|]. split; [exact Hf'|]. split; [|exact Hl].
        simpl. constructor; [congruence | exact Hb].
      * destruct IH as [Hb Hl].
        split; [constructor; [congruence | exact Hb] | exact Hl].
    + rewrite raceCar_active by auto. cbn [fst snd].
      set (r := Math_random (randomCalls (world st))).
      rewrite Hw. cbn [Js.truthy negb]. rewrite andb_true_r.
      destruct (finished stage (advance' r car)) eqn:Hf.
      * match goal with |- context [raceCars' (S i) rest ?s] =>
          destruct (raceCars_won (S i) rest s i eq_refl) as [H1 H2] end.
        rewrite H1. exists 0%nat, car, (advance' r car).
        split; [lia|]. split; [reflexivity|]. split; [reflexivity|].
        split; [exact Hc|]. split; [exact Hf|]. split; [constructor|].
        rewrite H2. cbn [world]. rewrite bodyWorld_leaderboard by auto.
        fold r. rewrite Hf, Hw. reflexivity.
      * match goal with |- context [raceCars' (S i) rest ?s] =>
          specialize (IH (S i) s eq_refl); cbn zeta in IH;
          destruct (winner (snd (raceCars' (S i) rest s))) as [x|] end.
        -- destruct IH as (j & c & c' & Hx & Hn & Hn' & Hfc & Hfc' & Hb & Hl).
           exists (S j), c, c'.
           split; [lia|]. split; [exact Hn|]. split; [exact Hn'|].
           split; [exact Hfc|]. split; [exact Hfc'|]. split.
           ++ simpl. constructor; [intros _; exact Hf | exact Hb].
           ++ rewrite Hl. cbn [world]. rewrite bodyWorld_leaderboard by auto.
              fold r. now rewrite Hf.
        -- destruct IH as [Hb Hl]. split.
           ++ constructor; [intros _; exact Hf | exact Hb].
           ++ rewrite Hl. cbn [world]. rewrite bodyWorld_leaderboard by auto.
              fold r. now rewrite Hf.
Qed.

Lemma raceCars_report_other (i : nat) (cs : list Car.t) (st : Loop)
  (k : string) :
  ~ In k (map Car.name cs) ->
  Dict.get k (distanceIncrements (snd (raceCars' i cs st)))
  = Dict.get k (distanceIncrements st).
Proof.
  revert i st. induction cs as [|car rest IH]; intros i st Hk; auto.
  rewrite raceCars_cons. cbn [snd]. simpl in Hk.
  rewrite IH by tauto.
  destruct (finished stage car) eqn:Hc.
  - now rewrite raceCar_finished by auto.
  - rewrite raceCar_active by auto. cbn [snd distanceIncrements].
    apply get_set_other. intros ->. tauto.
Qed.

(** The car of index [j], when active, is advanced with the draw that
    follows the draws of the active cars before it, and its increment is
    reported under its name unless a later car has the same name. *)
Lemma raceCars_nth (i : nat) (cs : list Car.t) (st : Loop) (j : nat)
  (c : Car.t) :
  nth_error cs j = Some c ->
  finished stage c = false ->
  let r := Math_random
             (randomCalls (world st) + drawsOf stage (firstn j cs))%nat in
  nth_error (fst (raceCars' i cs st)) j = Some (advance' r c)
  /\ (~ In (Car.name c) (map Car.name (skipn (S j) cs)) ->
      Dict.get (Car.name c) (distanceIncrements (snd (raceCars' i cs st)))
      = Some (snd (physics' r c))).
Proof.
  revert i st j. induction cs as [|car rest IH]; intros i st j Hj Hc.
  - destruct j; discriminate.
  - rewrite raceCars_cons. cbn [fst snd]. destruct j as [|j].
    + injection Hj as ->. unfold drawsOf. cbn [firstn filter List.length].
      rewrite Nat.add_0_r. rewrite raceCar_active by auto. cbn [fst snd].
      split; [reflexivity|]. cbn [skipn]. intros Hn.
      rewrite raceCars_report_other by auto. apply get_set_same.
    + cbn [nth_error] in Hj |- *. cbn [firstn skipn].
      match goal with |- context [raceCars' (S i) rest ?s] =>
        destruct (IH (S i) s j Hj Hc) as [H1 H2] end.
      assert (randomCalls (world (snd (raceCar' i car st)))
                + drawsOf stage (firstn j rest)
              = randomCalls (world st) + drawsOf stage (car :: firstn j rest))%nat
        as E.
      { unfold drawsOf. cbn [filter].
        destruct (finished stage car) eqn:Hcar; cbn [negb List.length].
        - now rewrite raceCar_finished by auto.
        - rewrite raceCar_active by auto. cbn [snd world].
          rewrite bodyWorld_randomCalls. lia. }
      rewrite E in H1, H2. split; [exact H1 | exact H2].
Qed.

(** *** One tick *)

Local Abbreviation afterCars' :=
  (afterCars Math_random performance_now Math_pow stage).
Local Abbreviation tick' := (tick Math_random performance_now Math_pow stage).
Local Abbreviation detect := (detectOvertake performance_now stage).

Lemma afterCars_eq (win : option nat) (w : World) :
  afterCars' win w
  = mkLoop
      (winner (snd (raceCars' 0 (cars (game w)) (mkLoop win [] w))))
      (distanceIncrements (snd (raceCars' 0 (cars (game w)) (mkLoop win [] w))))
      (onGame (with_cars (fst (raceCars' 0 (cars (game w)) (mkLoop win [] w))))
         (world (snd (raceCars' 0 (cars (game w)) (mkLoop win [] w))))).
Proof.
  unfold afterCars. now destruct (raceCars' 0 (cars (game w)) (mkLoop win [] w)).
Qed.

Lemma tick_eq (win : option nat) (w : World) :
  tick' win w
  = (winner (afterCars' win w),
     (if Js.truthy (winner (afterCars' win w))
      then onGame (with_isFinished true) else fun x => x)
       (emit (UpdateAllVisuals (distanceIncrements (afterCars' win w)))
          (detect (world (afterCars' win w))))).
Proof.
  unfold tick. rewrite afterCars_eq.
  destruct (raceCars' 0 (cars (game w)) (mkLoop win [] w)) as [cs st].
  cbn [fst snd winner distanceIncrements world].
  now destruct (Js.truthy (winner st)).
Qed.

Lemma detect_cars (w : World) : cars (game (detect w)) = cars (game w).
Proof.
  unfold detectOvertake. destruct (overtakes _ _) as [[c p]|]; cbn [onGame game with_previousLeader cars]; auto.
  apply tryGen_sameRace.
Qed.

Lemma detect_leaderboard (w : World) :
  leaderboard (game (detect w)) = leaderboard (game w).
Proof.
  unfold detectOvertake. destruct (overtakes _ _) as [[c p]|];
    cbn [onGame game with_previousLeader leaderboard]; auto.
  apply tryGen_leaderboard.
Qed.

Lemma detect_previousLeader (w : World) :
  previousLeader (game (detect w)) = currentLeader stage (cars (game w)).
Proof. reflexivity. Qed.

Lemma detect_frame (w : World) :
  stages (game (detect w)) = stages (game w)
  /\ isFinished (game (detect w)) = isFinished (game w)
  /\ stageResults (game (detect w)) = stageResults (game w)
  /\ currentStageIndex (game (detect w)) = currentStageIndex (game w).
Proof.
  unfold detectOvertake. destruct (overtakes _ _) as [[c p]|];
    cbn [onGame game with_previousLeader stages isFinished stageResults
           currentStageIndex]; auto.
  destruct (tryGen_sameRace (Overtake (carName (cars (game w)) c)
                               (carName (cars (game w)) p)) w)
    as (_ & H2 & H3 & _ & H5 & H6).
  auto.
Qed.

(** The cars after a tick, the winner and the flag [isFinished]. *)
Lemma tick_cars (win : option nat) (w : World) :
  cars (game (snd (tick' win w)))
  = fst (raceCars' 0 (cars (game w)) (mkLoop win [] w)).
Proof.
  rewrite tick_eq. cbn [snd].
  destruct (Js.truthy _); cbn [onGame game with_isFinished cars emit];
    rewrite detect_cars, afterCars_eq; reflexivity.
Qed.

Lemma tick_winner (win : option nat) (w : World) :
  fst (tick' win w)
  = winner (snd (raceCars' 0 (cars (game w)) (mkLoop win [] w))).
Proof. rewrite tick_eq, afterCars_eq. reflexivity. Qed.

Lemma tick_isFinished (win : option nat) (w : World) :
  isFinished (game (snd (tick' win w)))
  = Js.truthy (fst (tick' win w)) || isFinished (game w).
Proof.
  rewrite tick_eq. cbn [fst snd].
  destruct (Js.truthy _); cbn [onGame game with_isFinished isFinished emit orb];
    auto.
  destruct (detect_frame (world (afterCars' win w))) as (_ & H & _).
  rewrite H, afterCars_eq. cbn [world onGame game with_cars isFinished].
  apply (raceCars_sameRace 0 (cars (game w)) (mkLoop win [] w)).
Qed.

Lemma tick_leaderboard (win : option nat) (w : World) :
  leaderboard (game (snd (tick' win w)))
  = leaderboard
      (game (world (snd (raceCars' 0 (cars (game w)) (mkLoop win [] w))))).
Proof.
  rewrite tick_eq. cbn [snd].
  destruct (Js.truthy _); cbn [onGame game with_isFinished leaderboard emit];
    rewrite detect_leaderboard, afterCars_eq; reflexivity.
Qed.

Lemma tick_previousLeader (win : option nat) (w : World) :
  previousLeader (game (snd (tick' win w)))
  = currentLeader stage (cars (game (snd (tick' win w)))).
Proof.
  rewrite tick_cars. rewrite tick_eq. cbn [snd].
  destruct (Js.truthy _);
    cbn [onGame game with_isFinished previousLeader emit];
    rewrite detect_previousLeader, afterCars_eq; reflexivity.
Qed.

Lemma tick_frame (win : option nat) (w : World) :
  stages (game (snd (tick' win w))) = stages (game w)
  /\ stageResults (game (snd (tick' win w))) = stageResults (game w)
  /\ currentStageIndex (game (snd (tick' win w))) = currentStageIndex (game w).
Proof.
  rewrite tick_eq. cbn [snd].
  destruct (detect_frame (world (afterCars' win w))) as (H1 & _ & H3 & H4).
  destruct (raceCars_sameRace 0 (cars (game w)) (mkLoop win [] w))
    as (_ & R2 & _ & _ & R5 & R6).
  assert (stages (game (world (afterCars' win w))) = stages (game w)
          /\ stageResults (game (world (afterCars' win w)))
             = stageResults (game w)
          /\ currentStageIndex (game (world (afterCars' win w)))
             = currentStageIndex (game w)) as (M1 & M3 & M4)
    by (rewrite afterCars_eq; auto).
  destruct (Js.truthy _);
    cbn [onGame game with_isFinished stages stageResults currentStageIndex
           emit];
    rewrite H1, H3, H4; auto.
Qed.

End CarLoop.

(** ** The physics step (C1) *)

Lemma active_finished (stage : Stage.t) (car : Car.t) :
  active stage car <-> finished stage car = false.
Proof. unfold active, finished. rewrite Z.ltb_ge. reflexivity. Qed.

(** C1.  In every tick, every car with [currentLap <= stage.laps] is updated
    by the formulas of the specification, with [r] its draw of
    [Math.random()]: the physics step gives position, damage and tire wear
    as the specification computes them, the car after the tick is the result
    of that step (followed by the lap wrap), and the tick ends by reporting
    [distanceIncrement] under the car's name (names being distinct). *)
Theorem physics_step_follows_spec
  (Math_random performance_now : nat -> Q) (Math_pow : Q -> Q -> Q)
  (stage : Stage.t) (win : option nat) (w : World) (j : nat) (car : Car.t) :
  nth_error (cars (game w)) j = Some car ->
  active stage car ->
  NoDup (map Car.name (cars (game w))) ->
  let r := Math_random
             (randomCalls w + drawsOf stage (firstn j (cars (game w))))%nat in
  let w' := snd (tick Math_random performance_now Math_pow stage win w) in
  physics Math_pow r car
  = (Car.mk (Car.name car) (Car.speed car) (Car.handling car) (Car.color car)
       (Spec.newPosition Math_pow r car) (Car.currentLap car)
       (Spec.newDamage r car) (Spec.newTireWear r car),
     Spec.distanceIncrement Math_pow r car)
  /\ nth_error (cars (game w')) j = Some (advance Math_pow stage r car)
  /\ Car.damage (advance Math_pow stage r car) = Spec.newDamage r car
  /\ Car.tireWear (advance Math_pow stage r car) = Spec.newTireWear r car
  /\ (exists evs incs,
        trace w' = evs ++ [UpdateAllVisuals incs]
        /\ Dict.get (Car.name car) incs
           = Some (Spec.distanceIncrement Math_pow r car)).
Proof.
  intros Hj Ha Hnd r w'.
  apply active_finished in Ha.
  destruct (raceCars_nth Math_random performance_now Math_pow stage 0
              (cars (game w)) (mkLoop win [] w) j car Hj Ha) as [H1 H2].
  cbn [world] in H1, H2. fold r in H1, H2.
  split; [reflexivity|]. split.
  { unfold w'. rewrite tick_cars. exact H1. }
  split.
  { unfold advance. destruct (Js.geb _ _); reflexivity. }
  split.
  { unfold advance. destruct (Js.geb _ _); reflexivity. }
  unfold w'. rewrite tick_eq. cbn [snd].
  eexists. eexists. split.
  - destruct (Js.truthy _); cbn [onGame emit trace]; reflexivity.
  - rewrite afterCars_eq. cbn [distanceIncrements].
    change (Spec.distanceIncrement Math_pow r car)
      with (snd (physics Math_pow r car)).
    apply H2.
    clear - Hj Hnd. revert j Hj Hnd.
    induction (cars (game w)) as [|c cs IH]; intros j Hj Hnd.
    + destruct j; discriminate.
    + inversion Hnd as [|? ? Hn Hnd']; subst. destruct j as [|j].
      * injection Hj as ->. exact Hn.
      * cbn [skipn]. apply (IH j); auto.
Qed.

Lemma physics_step_follows_spec_witness :
  nth_error (cars (game easyWorld)) 1 = Some (Car.new "Viper" 210 9 "#e74c3c")
  /\ active urbanSprint (Car.new "Viper" 210 9 "#e74c3c")
  /\ nth_error
       (cars (game (snd (tick (replay [0.25; 0.75]) (clockEvery 50) pow_1_5
                           urbanSprint None easyWorld)))) 1
     = Some (advance pow_1_5 urbanSprint 0.75
               (Car.new "Viper" 210 9 "#e74c3c")).
Proof.
  split; [reflexivity|]. split; [unfold active; simpl; lia|].
  refine (proj1 (proj2 (physics_step_follows_spec (replay [0.25; 0.75])
            (clockEvery 50) pow_1_5 urbanSprint None easyWorld 1
            (Car.new "Viper" 210 9 "#e74c3c") eq_refl _ _))).
  - unfold active; simpl; lia.
  - simpl. repeat constructor; simpl; intuition discriminate.
Defined.

(** ** Damage, tire wear and position (C2, C6) *)

Lemma advance_sameCar (pow : Q -> Q -> Q) (stage : Stage.t) (r : Q)
  (c : Car.t) : sameCar c (advance pow stage r c).
Proof. unfold advance. destruct (Js.geb _ _); repeat split. Qed.

Lemma advance_wear (pow : Q -> Q -> Q) (stage : Stage.t) (r : Q) (c : Car.t) :
  Car.handling c <= 15 -> 0 <= Car.speed c -> healthy c ->
  healthy (advance pow stage r c)
  /\ Car.damage c <= Car.damage (advance pow stage r c)
  /\ Car.tireWear (advance pow stage r c) <= Car.tireWear c.
Proof.
  intros Hh Hs [[Hd0 Hd1] [Ht0 Ht1]].
  assert (Car.damage (advance pow stage r c) = Spec.newDamage r c) as E1
    by (unfold advance; destruct (Js.geb _ _); reflexivity).
  assert (Car.tireWear (advance pow stage r c) = Spec.newTireWear r c) as E2
    by (unfold advance; destruct (Js.geb _ _); reflexivity).
  unfold healthy. rewrite E1, E2. clear E1 E2.
  unfold Spec.newDamage, Spec.newTireWear, Spec.speedInMps.
  set (hf := Qabs (Spec.handlingFactor r c)).
  assert (0 <= hf) as Hhf by apply Qabs_nonneg.
  assert (0 <= Car.speed c / 3.6) as Hv
    by (apply Qle_shift_div_l; [reflexivity | lra]).
  set (v := Car.speed c / 3.6) in *.
  assert (0 <= v / 70) as Hv70 by (apply Qle_shift_div_l; [reflexivity | lra]).
  assert (0 <= v / 100) as Hv100 by (apply Qle_shift_div_l; [reflexivity | lra]).
  assert (0 <= hf * (15 - Car.handling c) * 0.08 * (1 + v / 70)) as HT.
  { repeat apply Qmult_le_0_compat; lra. }
  set (T := hf * (15 - Car.handling c) * 0.08 * (1 + v / 70)) in *.
  assert (0 <= (hf * 2 + v / 100) * 0.06) as HB.
  { apply Qmult_le_0_compat; lra. }
  set (B := (hf * 2 + v / 100) * 0.06) in *.
  repeat split.
  - apply Q.min_glb; lra.
  - apply Q.le_min_l.
  - apply Q.le_max_l.
  - apply Q.max_lub; lra.
  - apply Q.min_glb; lra.
  - apply Q.max_lub; lra.
Qed.

Lemma Qle_bool_false (a b : Q) : Qle_bool a b = false -> b < a.
Proof.
  intros H. apply Qnot_le_lt. intros Hle. apply Qle_bool_iff in Hle. congruence.
Qed.

Lemma advance_onTrack (pow : Q -> Q -> Q) (stage : Stage.t) (r : Q)
  (c : Car.t) :
  (forall x y, 0 <= x -> 0 <= pow x y) ->
  0 < Stage.length stage ->
  0 <= r < 1 ->
  0 <= Car.handling c <= 10 -> 0 <= Car.speed c ->
  healthy c -> onTrack stage c ->
  0 <= snd (physics pow r c) /\ onTrack stage (advance pow stage r c).
Proof.
  intros Hpow HL [Hr0 Hr1] [Hh0 Hh1] Hs [[Hd0 Hd1] [Ht0 Ht1]] [Hp0 Hp1].
  assert (0 <= snd (physics pow r c)) as Hinc.
  { unfold physics. cbn [snd].
    assert (0 <= Car.speed c / 3.6) as Hv
      by (apply Qle_shift_div_l; [reflexivity | lra]).
    set (v := Car.speed c / 3.6) in *.
    assert (0 <= pow (1 - Car.damage c / 100) 1.5) as Hpen.
    { apply Hpow.
      assert (Car.damage c / 100 <= 1)
        by (apply Qle_shift_div_r; [reflexivity | lra]).
      lra. }
    set (g := 0.4 + Car.tireWear c / 100 * 0.6).
    assert (0.4 <= g <= 1) as [Hg0 Hg1].
    { unfold g.
      assert (0 <= Car.tireWear c / 100)
        by (apply Qle_shift_div_l; [reflexivity | lra]).
      assert (Car.tireWear c / 100 <= 1)
        by (apply Qle_shift_div_r; [reflexivity | lra]).
      lra. }
    assert (0 <= Car.handling c * g) as He0
      by (apply Qmult_le_0_compat; lra).
    assert (Car.handling c * g <= 10) as He1 by nra.
    set (e := Car.handling c * g) in *.
    assert (- (0.72) <= (r - 0.5) * (12 - e) * 0.12) as Hhf by nra.
    set (hf := (r - 0.5) * (12 - e) * 0.12) in *.
    apply Qmult_le_0_compat; [|exact Hpen].
    assert (0 <= v * (1 + hf)) by (apply Qmult_le_0_compat; lra).
    lra. }
  split; [exact Hinc|].
  unfold onTrack, advance.
  assert (Car.position (fst (physics pow r c))
          = Car.position c + snd (physics pow r c)) as Epos by reflexivity.
  destruct (Js.geb _ _) eqn:E.
  - unfold Js.geb in E. apply Qle_bool_iff in E.
    cbn [completeLap Car.position]. now apply rem_range.
  - unfold Js.geb in E. apply Qle_bool_false in E.
    rewrite Epos in *. split; lra.
Qed.

Lemma Forall2_keeps {A : Type} (P : A -> Prop) (R : A -> A -> Prop)
  (l l' : list A) :
  (forall a b, R a b -> P a -> P b) ->
  Forall2 R l l' -> Forall P l -> Forall P l'.
Proof.
  intros H F. induction F as [|a b t t' Hab F IH]; intros HP.
  - constructor.
  - inversion HP; subst. constructor; eauto.
Qed.

Lemma Forall2_refine {A : Type} (P : A -> Prop) (R S : A -> A -> Prop)
  (l l' : list A) :
  (forall a b, R a b -> P a -> S a b) ->
  Forall2 R l l' -> Forall P l -> Forall2 S l l'.
Proof.
  intros H F. induction F as [|a b t t' Hab F IH]; intros HP.
  - constructor.
  - inversion HP; subst. constructor; eauto.
Qed.

Section StageRun.

Variable Math_random : nat -> Q.
Variable performance_now : nat -> Q.
Variable Math_pow : Q -> Q -> Q.
Variable stage : Stage.t.

Local Abbreviation tick' := (tick Math_random performance_now Math_pow stage).
Local Abbreviation ticks' n :=
  (ticks Math_random performance_now Math_pow n stage).
Local Abbreviation start := (startStage performance_now stage).

Lemma ticks_S (n : nat) (s : option nat * World) :
  ticks' (S n) s = tick' (fst (ticks' n s)) (snd (ticks' n s)).
Proof. cbn [ticks]. now destruct (ticks' n s). Qed.

Lemma start_cars (w : World) :
  cars (game (start w)) = map Car.reset (cars (game w)).
Proof.
  unfold startStage. cbn [emit game].
  match goal with |- context [tryGenerateCommentary _ ?p ?x] =>
    destruct (tryGen_sameRace performance_now p x) as (H & _) end.
  rewrite H. reflexivity.
Qed.

Lemma start_frame (w : World) :
  previousLeader (game (start w)) = None
  /\ isFinished (game (start w)) = false
  /\ leaderboard (game (start w)) = leaderboard (game w)
  /\ stages (game (start w)) = stages (game w)
  /\ stageResults (game (start w)) = stageResults (game w)
  /\ currentStageIndex (game (start w)) = currentStageIndex (game w).
Proof.
  unfold startStage. cbn [emit game].
  match goal with |- context [tryGenerateCommentary _ ?p ?x] =>
    destruct (tryGen_sameRace performance_now p x)
      as (_ & H2 & H3 & H4 & H5 & H6);
    pose proof (tryGen_leaderboard performance_now p x) as H1 end.
  rewrite H1, H2, H3, H4, H5, H6. repeat split.
Qed.

(** A tick leaves each car alone or advances it with a random draw. *)
Lemma tick_moved (win : option nat) (w : World) :
  Forall2 (moved Math_random Math_pow stage)
    (cars (game w)) (cars (game (snd (tick' win w)))).
Proof. rewrite tick_cars. apply raceCars_moved. Qed.

Lemma moved_wear (c c' : Car.t) :
  moved Math_random Math_pow stage c c' ->
  Car.handling c <= 15 -> 0 <= Car.speed c -> healthy c ->
  sameCar c c' /\ healthy c'
  /\ Car.damage c <= Car.damage c' /\ Car.tireWear c' <= Car.tireWear c.
Proof.
  intros [->|(k & _ & ->)] Hh Hs Hc.
  - repeat split; try apply Hc; apply Qle_refl.
  - split; [apply advance_sameCar | now apply advance_wear].
Qed.

(** The cars stay sound through the ticks of a stage. *)
Lemma ticks_sound (w : World) (n : nat) :
  (forall c, In c (cars (game w)) -> Car.handling c <= 15 /\ 0 <= Car.speed c) ->
  Forall (fun c => healthy c /\ Car.handling c <= 15 /\ 0 <= Car.speed c)
    (cars (game (snd (ticks' n (None, start w))))).
Proof.
  intros Hw. induction n as [|n IH].
  - cbn [ticks snd]. rewrite start_cars. apply Forall_forall.
    intros c Hc. apply in_map_iff in Hc. destruct Hc as (c0 & <- & Hc0).
    destruct (Hw c0 Hc0). unfold healthy. cbn. repeat split; auto; lra.
  - rewrite ticks_S.
    eapply Forall2_keeps; [|apply tick_moved|exact IH].
    intros c c' Hcc (Hc & Hh & Hs).
    destruct (moved_wear c c' Hcc Hh Hs Hc) as ((_ & E2 & E3 & _) & Hc' & _).
    rewrite E2, E3. auto.
Qed.

End StageRun.

(** C2.  From the reset state of a stage (damage 0, tire wear 100), for every
    car whose handling is at most 15 and whose speed is not negative: damage
    and tire wear are within [0, 100] before and after every tick, damage
    never decreases and tire wear never increases from one tick to the next.
    The values 0 and 100 are those of [reset()], which starts the stage. *)
Theorem wear_bounded_and_monotone
  (Math_random performance_now : nat -> Q) (Math_pow : Q -> Q -> Q)
  (stage : Stage.t) (w : World) (n : nat) :
  (forall c, In c (cars (game w)) ->
             Car.handling c <= 15 /\ 0 <= Car.speed c) ->
  let state k := snd (ticks Math_random performance_now Math_pow k stage
                        (None, startStage performance_now stage w)) in
  Forall (fun c => Car.damage c = 0 /\ Car.tireWear c = 100)
    (cars (game (state 0%nat)))
  /\ Forall healthy (cars (game (state n)))
  /\ Forall healthy (cars (game (state (S n))))
  /\ Forall2 (fun c c' => sameCar c c'
                          /\ Car.damage c <= Car.damage c'
                          /\ Car.tireWear c' <= Car.tireWear c)
       (cars (game (state n))) (cars (game (state (S n)))).
Proof.
  intros Hw state.
  pose proof (ticks_sound Math_random performance_now Math_pow stage w) as S.
  split.
  { unfold state. cbn [ticks snd]. rewrite start_cars.
    apply Forall_forall. intros c Hc. apply in_map_iff in Hc.
    destruct Hc as (c0 & <- & _). now split. }
  split.
  { eapply Forall_impl; [|apply (S n Hw)]. now intros c (H & _). }
  split.
  { eapply Forall_impl; [|apply (S (Datatypes.S n) Hw)]. now intros c (H & _). }
  unfold state. rewrite ticks_S.
  eapply Forall2_refine; [|apply tick_moved|exact (S n Hw)].
  intros c c' Hcc (Hc & Hh & Hs).
  destruct (moved_wear Math_random Math_pow stage c c' Hcc Hh Hs Hc)
    as (E & _ & H1 & H2).
  auto.
Qed.

Lemma easy_cars_in_range (c : Car.t) :
  In c (cars (game easyWorld)) ->
  0 <= Car.handling c <= 10 /\ 0 <= Car.speed c.
Proof.
  intros [<-|[<-|[<-|[<-|[]]]]]; cbn; repeat split; discriminate.
Qed.

Lemma wear_bounded_and_monotone_witness :
  (forall c, In c (cars (game easyWorld)) ->
             Car.handling c <= 15 /\ 0 <= Car.speed c)
  /\ Forall healthy
       (cars (game (snd (ticks (replay [0.1; 0.9; 0.3; 0.7]) (clockEvery 50)
                           pow_1_5 1 urbanSprint
                           (None, startStage (clockEvery 50) urbanSprint
                                    easyWorld))))).
Proof.
  assert (forall c, In c (cars (game easyWorld)) ->
                    Car.handling c <= 15 /\ 0 <= Car.speed c) as H.
  { intros c Hc. destruct (easy_cars_in_range c Hc) as [[_ H1] H2].
    split; [lra | exact H2]. }
  split; [exact H|].
  exact (proj1 (proj2 (wear_bounded_and_monotone
                         (replay [0.1; 0.9; 0.3; 0.7]) (clockEvery 50) pow_1_5
                         urbanSprint easyWorld 1 H))).
Defined.

Section Positions.

Variable Math_random : nat -> Q.
Variable performance_now : nat -> Q.
Variable Math_pow : Q -> Q -> Q.
Variable stage : Stage.t.

Hypothesis random_range : forall k, 0 <= Math_random k < 1.
Hypothesis pow_nonneg : forall x y, 0 <= x -> 0 <= Math_pow x y.
Hypothesis length_positive : 0 < Stage.length stage.

Local Abbreviation ticks' n :=
  (ticks Math_random performance_now Math_pow n stage).
Local Abbreviation start := (startStage performance_now stage).

Local Abbreviation fit := (raceworthy stage).

Lemma moved_fit (c c' : Car.t) :
  moved Math_random Math_pow stage c c' -> fit c -> fit c'.
Proof.
  intros [->|(k & _ & ->)] H; [exact H|]. destruct H as (Hc & Ht & Hh & Hs).
  destruct (advance_onTrack Math_pow stage (Math_random k) c)
    as [_ Ht']; auto.
  destruct (advance_wear Math_pow stage (Math_random k) c)
    as (Hc' & _); auto; [lra|].
  destruct (advance_sameCar Math_pow stage (Math_random k) c)
    as (_ & E2 & E3 & _).
  unfold raceworthy. rewrite E2, E3. auto.
Qed.

Lemma ticks_fit (w : World) (n : nat) :
  (forall c, In c (cars (game w)) ->
             0 <= Car.handling c <= 10 /\ 0 <= Car.speed c) ->
  Forall fit (cars (game (snd (ticks' n (None, start w))))).
Proof.
  intros Hw. induction n as [|n IH].
  - cbn [ticks snd]. rewrite start_cars. apply Forall_forall.
    intros c Hc. apply in_map_iff in Hc. destruct Hc as (c0 & <- & Hc0).
    destruct (Hw c0 Hc0) as [Hh Hs].
    unfold raceworthy, healthy, onTrack. cbn. repeat split; try tauto; lra.
  - rewrite ticks_S.
    eapply Forall2_keeps; [|apply tick_moved|exact IH].
    intros c c'. apply moved_fit.
Qed.

End Positions.

(** C6.  For cars with handling between 0 and 10 and a speed that is not
    negative, on a stage of positive length, with random draws in [0, 1) and
    [Math.pow] not negative on a base that is not negative: at every tick
    boundary of a stage every position lies in [0, stage.length), and no
    draw can give such a car a negative distance increment (so the position
    is never negative, although nothing clamps it). *)
Theorem position_stays_on_track
  (Math_random performance_now : nat -> Q) (Math_pow : Q -> Q -> Q)
  (stage : Stage.t) (w : World) (n : nat) :
  (forall k, 0 <= Math_random k < 1) ->
  (forall x y, 0 <= x -> 0 <= Math_pow x y) ->
  0 < Stage.length stage ->
  (forall c, In c (cars (game w)) ->
             0 <= Car.handling c <= 10 /\ 0 <= Car.speed c) ->
  Forall (fun c => onTrack stage c
                   /\ forall k, 0 <= snd (physics Math_pow (Math_random k) c))
    (cars (game (snd (ticks Math_random performance_now Math_pow n stage
                        (None, startStage performance_now stage w))))).
Proof.
  intros Hr Hp HL Hw.
  eapply Forall_impl;
    [|apply (ticks_fit Math_random performance_now Math_pow stage Hr Hp HL w n Hw)].
  intros c (Hc & Ht & Hh & Hs). split; [exact Ht|].
  intros k. now apply (advance_onTrack Math_pow stage (Math_random k) c).
Qed.

Lemma replay_range (draws : list Q) :
  Forall (fun r => 0 <= r < 1) draws -> forall k, 0 <= replay draws k < 1.
Proof.
  intros H k. unfold replay. revert k.
  induction H as [|r l Hr _ IH]; intros [|k]; simpl; auto; lra.
Qed.

Lemma pow_1_5_nonneg (x y : Q) : 0 <= x -> 0 <= pow_1_5 x y.
Proof.
  intros Hx. unfold pow_1_5, sqrt6.
  apply Qmult_le_0_compat; [exact Hx|].
  apply Qle_shift_div_l; [reflexivity|].
  rewrite Qmult_0_l. change 0 with (inject_Z 0). rewrite <- Zle_Qle.
  apply Z.sqrt_nonneg.
Qed.

Lemma position_stays_on_track_witness :
  0 < Stage.length urbanSprint
  /\ Forall (fun c => onTrack urbanSprint c
                      /\ forall k,
                           0 <= snd (physics pow_1_5
                                       (replay [0.1; 0.9; 0.3; 0.7] k) c))
       (cars (game (snd (ticks (replay [0.1; 0.9; 0.3; 0.7]) (clockEvery 50)
                           pow_1_5 1 urbanSprint
                           (None, startStage (clockEvery 50) urbanSprint
                                    easyWorld))))).
Proof.
  split; [reflexivity|].
  apply (position_stays_on_track (replay [0.1; 0.9; 0.3; 0.7])
           (clockEvery 50) pow_1_5 urbanSprint easyWorld 1).
  - apply replay_range. repeat constructor; discriminate.
  - apply pow_1_5_nonneg.
  - reflexivity.
  - apply easy_cars_in_range.
Defined.

(** ** The leader (C4) *)

Lemma indexed_in {A : Type} (k : nat) (l : list A) (i : nat) (x : A) :
  In (i, x) (Js.indexed k l) <-> (k <= i)%nat /\ nth_error l (i - k) = Some x.
Proof.
  revert k. induction l as [|y l IH]; intros k; simpl.
  - split; [contradiction|]. intros [_ H]. destruct (i - k)%nat; discriminate.
  - rewrite IH. split.
    + intros [[= <- <-]|[Hk Hn]].
      * rewrite Nat.sub_diag. split; [lia | reflexivity].
      * split; [lia|]. replace (i - k)%nat with (S (i - S k)) by lia. exact Hn.
    + intros [Hk Hn]. destruct (i - k)%nat as [|m] eqn:E.
      * left. injection Hn as ->. f_equal. lia.
      * right. split; [lia|]. replace (i - S k)%nat with m by lia. exact Hn.
Qed.

Lemma carsByProgress_in (stage : Stage.t) (cs : list Car.t) (i : nat)
  (c : Car.t) :
  In (i, c) (carsByProgress stage cs)
  <-> nth_error cs i = Some c /\ active stage c.
Proof.
  unfold carsByProgress. split.
  - intros H.
    apply Permutation_in
      with (l' := filter (fun c => (Car.currentLap (snd c) <=? Stage.laps stage)%Z)
                    (Js.indexed 0 cs)) in H;
      [|symmetry; apply sort_perm].
    apply filter_In in H. destruct H as [H Ha]. apply indexed_in in H.
    rewrite Nat.sub_0_r in H. split; [tauto|].
    unfold active. now apply Z.leb_le.
  - intros [Hn Ha].
    apply Permutation_in
      with (l := filter (fun c => (Car.currentLap (snd c) <=? Stage.laps stage)%Z)
                   (Js.indexed 0 cs));
      [apply sort_perm|].
    apply filter_In. split.
    + apply indexed_in. rewrite Nat.sub_0_r. split; [lia | exact Hn].
    + now apply Z.leb_le.
Qed.

(** The cars that pass the filter keep their order: after car [i] come
    cars of greater index only. *)
Lemma indexed_after {A : Type} (f : nat * A -> bool) (l : list A) (k : nat)
  (l1 l2 : list (nat * A)) (i : nat) (x : A) :
  filter f (Js.indexed k l) = l1 ++ (i, x) :: l2 ->
  forall j y, In (j, y) l2 -> (i < j)%nat.
Proof.
  revert k l1. induction l as [|z l IH]; intros k l1 H j y Hy.
  - destruct l1; discriminate H.
  - cbn [Js.indexed filter] in H. destruct (f (k, z)).
    + destruct l1 as [|a l1]; cbn [app] in H.
      * injection H as <- <- <-. apply filter_In in Hy.
        destruct Hy as [Hy _]. apply indexed_in in Hy. lia.
      * injection H as _ H. exact (IH _ _ H j y Hy).
    + exact (IH _ _ H j y Hy).
Qed.

(** The comparison of [carsByProgress] orders the cars by their key. *)
Lemma compare_keys (stage : Stage.t) (a b : nat * Car.t) :
  Js.double (progress stage (snd b) - progress stage (snd a)) <= 0
  <-> - progress stage (snd a) <= - progress stage (snd b).
Proof. rewrite double_le_0. split; intros H; lra. Qed.

(** C4.  After every tick [previousLeader] holds the leader computed in that
    tick, and there is no leader exactly when no car is active.  The leader
    is the first car of the roster among the active cars whose key
    [currentLap * length + position], as the engine computes it in doubles,
    is the greatest.  The key of the specification,
    [(currentLap - 1) * length + position], ranks the cars the same way up
    to the rounding of the key: an active car that has more progress than
    the leader has the same key as the leader (the products
    [currentLap * length] being exact). *)
Theorem leader_has_the_greatest_key
  (Math_random performance_now : nat -> Q) (Math_pow : Q -> Q -> Q)
  (stage : Stage.t) (win : option nat) (w : World) (cs : list Car.t) :
  previousLeader
    (game (snd (tick Math_random performance_now Math_pow stage win w)))
  = currentLeader stage
      (cars (game (snd (tick Math_random performance_now Math_pow stage
                          win w))))
  /\ (currentLeader stage cs = None
      <-> forall c, In c cs -> ~ active stage c)
  /\ (forall i, currentLeader stage cs = Some i ->
        exists c,
          nth_error cs i = Some c /\ active stage c
          /\ forall j c', nth_error cs j = Some c' -> active stage c' ->
               progress stage c' <= progress stage c
               /\ ((j < i)%nat -> progress stage c' < progress stage c)
               /\ (exactLap stage c -> exactLap stage c' ->
                   Spec.progress stage c < Spec.progress stage c' ->
                   progress stage c' == progress stage c)).
Proof.
  split; [apply tick_previousLeader|].
  unfold currentLeader. split; [split|].
  - intros H c Hc Ha. apply In_nth_error in Hc. destruct Hc as [i Hi].
    assert (In (i, c) (carsByProgress stage cs)) as Hin
      by (apply carsByProgress_in; auto).
    destruct (carsByProgress stage cs); [contradiction | discriminate].
  - intros H. destruct (carsByProgress stage cs) as [|[i c] t] eqn:E; auto.
    assert (In (i, c) (carsByProgress stage cs)) as Hin
      by (rewrite E; now left).
    apply carsByProgress_in in Hin. destruct Hin as [Hn Ha].
    apply nth_error_In in Hn. now destruct (H c Hn).
  - intros i H. destruct (carsByProgress stage cs) as [|[i0 c] t] eqn:E;
      [discriminate|]. injection H as <-.
    assert (In (i0, c) (carsByProgress stage cs)) as Hin
      by (rewrite E; now left).
    apply carsByProgress_in in Hin. destruct Hin as [Hn Ha].
    exists c. split; [exact Hn|]. split; [exact Ha|].
    intros j c' Hj Ha'. unfold carsByProgress in E.
    destruct (sort_head_stable _ (fun a => - progress stage (snd a))
                (compare_keys stage) _ _ _ E) as (l1 & l2 & El & H1 & H2).
    assert (In (j, c') (l1 ++ (i0, c) :: l2)) as Hin.
    { rewrite <- El. apply filter_In. split.
      - apply indexed_in. rewrite Nat.sub_0_r. split; [lia | exact Hj].
      - now apply Z.leb_le. }
    assert (progress stage c' <= progress stage c
            /\ ((j < i0)%nat -> progress stage c' < progress stage c))
      as [Hle Hlt].
    { apply in_app_or in Hin. destruct Hin as [Hin|[Hin|Hin]].
      - specialize (H1 _ Hin). cbn [snd] in H1. split; intros; lra.
      - injection Hin as <- <-. split; [apply Qle_refl | lia].
      - specialize (H2 _ Hin). cbn [snd] in H2.
        pose proof (indexed_after _ _ _ _ _ _ _ El j c' Hin).
        split; [lra | lia]. }
    split; [exact Hle|]. split; [exact Hlt|].
    intros Xc Xc' Hs. apply Qle_antisym; [exact Hle|].
    unfold progress in *. apply double_mono.
    unfold exactLap in Xc, Xc'. rewrite Xc, Xc'.
    unfold Spec.progress in Hs.
    assert (forall z, inject_Z (z - 1) == inject_Z z - 1) as Ez
      by (intros z; unfold Z.sub; rewrite inject_Z_plus, inject_Z_opp;
          reflexivity).
    rewrite !Ez in Hs. lra.
Qed.

(** C4, as stated, fails: the two rankings do not agree for all car states.
    In the easy preset, with the draws [0.5] for Eagle, [0] for Viper and
    Shadow and [0x1.1c5995f8a1072p-1] for Bolt, Bolt is ahead of Eagle after
    the first tick, by less than the rounding of the key at 1061: the keys
    of both are the same double, the comparison returns 0, and the leader
    is Eagle (car 0), the first of the two in the roster. *)
Lemma leader_with_less_progress_than_another_car :
  previousLeader (game (snd photoFinish)) = Some 0%nat
  /\ exists eagle bolt,
       nth_error (cars (game (snd photoFinish))) 0 = Some eagle
       /\ nth_error (cars (game (snd photoFinish))) 3 = Some bolt
       /\ Car.name eagle = "Eagle"%string /\ Car.name bolt = "Bolt"%string
       /\ active urbanSprint eagle /\ active urbanSprint bolt
       /\ Spec.progress urbanSprint eagle < Spec.progress urbanSprint bolt
       /\ progress urbanSprint eagle == progress urbanSprint bolt.
Proof.
  split; [vm_compute; reflexivity|].
  eexists. eexists. split; [vm_compute; reflexivity|].
  split; [vm_compute; reflexivity|].
  split; [reflexivity|]. split; [reflexivity|].
  split; [vm_compute; intros X; discriminate X|].
  split; [vm_compute; intros X; discriminate X|].
  split; vm_compute; reflexivity.
Qed.

(** ** The overall winner (C8) *)

(** The loop of [getOverallWinner]: [maxWins] is the largest count (or [-1]
    when every count is smaller), [winners] the names that have it. *)
Lemma overallWinners_spec (lb : Dict.t Z) :
  let m := fst (overallWinners lb) in
  (-1 <= m)%Z
  /\ (forall k v, In (k, v) lb -> (v <= m)%Z)
  /\ (m = (-1)%Z \/ exists k, In (k, m) lb)
  /\ snd (overallWinners lb) = map fst (filter (winsAre m) lb).
Proof.
  unfold overallWinners. induction lb as [|[k v] lb IH] using rev_ind.
  - cbn. split; [lia|]. split; [intros ? ? []|].
    split; [now left | reflexivity].
  - rewrite fold_left_app. cbn [fold_left].
    destruct (fold_left _ lb (_, _)) as [m ws]. cbn [fst snd] in *.
    destruct IH as (H1 & H2 & H3 & H4).
    assert (forall m', filter (winsAre m') (lb ++ [(k, v)])
                       = filter (winsAre m') lb
                         ++ (if (v =? m')%Z then [(k, v)] else [])) as Hf.
    { intros m'. rewrite filter_app. reflexivity. }
    destruct (m <? v)%Z eqn:E1; cbn [fst snd].
    + apply Z.ltb_lt in E1. split; [lia|]. split; [|split].
      * intros k' v' Hin. apply in_app_iff in Hin.
        destruct Hin as [Hin|[[= <- <-]|[]]]; [|lia].
        specialize (H2 _ _ Hin). lia.
      * right. exists k. apply in_app_iff. right. now left.
      * rewrite Hf, Z.eqb_refl.
        assert (filter (winsAre v) lb = []) as ->; [|reflexivity].
        clear - H2 E1. induction lb as [|[k' v'] lb IH]; auto.
        cbn [filter]. unfold winsAre at 1. cbn [snd].
        assert (v' <= m)%Z by (apply (H2 k'); now left).
        destruct (v' =? v)%Z eqn:E; [apply Z.eqb_eq in E; lia|].
        apply IH. intros k0 v0 H0. apply (H2 k0). now right.
    + apply Z.ltb_ge in E1. destruct (v =? m)%Z eqn:E2; cbn [fst snd].
      * apply Z.eqb_eq in E2. subst v. split; [lia|]. split; [|split].
        -- intros k' v' Hin. apply in_app_iff in Hin.
           destruct Hin as [Hin|[[= <- <-]|[]]]; [eauto | lia].
        -- right. exists k. apply in_app_iff. right. now left.
        -- rewrite Hf, Z.eqb_refl, map_app, H4. reflexivity.
      * split; [lia|]. split; [|split].
        -- intros k' v' Hin. apply in_app_iff in Hin.
           destruct Hin as [Hin|[[= <- <-]|[]]]; [eauto | lia].
        -- destruct H3 as [H3|[k' H3]]; [now left|].
           right. exists k'. apply in_app_iff. now left.
        -- rewrite Hf, E2, app_nil_r. exact H4.
Qed.

Lemma filter_keys_NoDup {V : Type} (f : string * V -> bool) (d : Dict.t V) :
  NoDup (Dict.keys d) -> NoDup (map fst (filter f d)).
Proof.
  unfold Dict.keys. induction d as [|e d IH]; simpl; intros H; [constructor|].
  inversion H as [|? ? Hn H']; subst.
  destruct (f e); simpl; auto. constructor; auto.
  intros Hin. apply Hn. apply in_map_iff in Hin.
  destruct Hin as (e' & E & Hin). apply filter_In in Hin.
  apply in_map_iff. exists e'. tauto.
Qed.

(** C8.  [getOverallWinner] joins, with [" & "], exactly the names whose win
    count is the maximum over the leaderboard, each once: a tie gives all the
    tied names and is no error.  With [{A: 2, B: 1, C: 0, D: 0}] the overall
    winner is ["A"]. *)
Theorem overall_winner_has_most_wins (g : RacingGame) :
  (forall k v, In (k, v) (leaderboard g) -> (0 <= v)%Z) ->
  NoDup (Dict.keys (leaderboard g)) ->
  let winners := snd (overallWinners (leaderboard g)) in
  getOverallWinner g = Js.join " & "%string winners
  /\ NoDup winners
  /\ (forall name,
        In name winners
        <-> exists v, Dict.get name (leaderboard g) = Some v
                      /\ forall k' v', Dict.get k' (leaderboard g) = Some v' ->
                                       (v' <= v)%Z)
  /\ getOverallWinner
       (with_leaderboard
          [("A"%string, 2%Z); ("B"%string, 1%Z); ("C"%string, 0%Z); ("D"%string, 0%Z)] g) = "A"%string.
Proof.
  intros Hpos Hnd winners. split; [reflexivity|].
  destruct (overallWinners_spec (leaderboard g)) as (H1 & H2 & H3 & H4).
  fold winners in H4. set (m := fst (overallWinners (leaderboard g))) in *.
  split; [rewrite H4; now apply filter_keys_NoDup|].
  split; [|reflexivity].
  intros name. rewrite H4. split.
  - intros Hin. apply in_map_iff in Hin. destruct Hin as ([k v] & E & Hin).
    cbn [fst] in E. subst k. apply filter_In in Hin. destruct Hin as [Hin Hv].
    unfold winsAre in Hv. cbn [snd] in Hv. apply Z.eqb_eq in Hv. subst v.
    exists m. split; [now apply in_get_Some|].
    intros k' v' Hg. apply (H2 k'). now apply get_Some_in.
  - intros (v & Hg & Hmax). apply get_Some_in in Hg.
    assert (v = m) as ->.
    { pose proof (H2 _ _ Hg). pose proof (Hpos _ _ Hg).
      destruct H3 as [H3|[k' H3]]; [lia|].
      apply in_get_Some in H3; auto. specialize (Hmax _ _ H3). lia. }
    apply in_map_iff. exists (name, m). split; [reflexivity|].
    apply filter_In. split; [exact Hg|]. unfold winsAre. apply Z.eqb_refl.
Qed.

Lemma overall_winner_has_most_wins_witness :
  getOverallWinner
    (with_leaderboard [("A"%string, 1%Z); ("B"%string, 1%Z); ("C"%string, 0%Z)]
       (newRacingGame [] []))
  = "A & B"%string
  /\ (In "B"%string
        (snd (overallWinners [("A"%string, 1%Z); ("B"%string, 1%Z); ("C"%string, 0%Z)]))
      <-> exists v,
            Dict.get "B"%string [("A"%string, 1%Z); ("B"%string, 1%Z); ("C"%string, 0%Z)] = Some v
            /\ forall k' v',
                 Dict.get k' [("A"%string, 1%Z); ("B"%string, 1%Z); ("C"%string, 0%Z)] = Some v' ->
                 (v' <= v)%Z).
Proof.
  split; [reflexivity|].
  refine (proj1 (proj2 (proj2
            (overall_winner_has_most_wins
               (with_leaderboard [("A"%string, 1%Z); ("B"%string, 1%Z); ("C"%string, 0%Z)]
                  (newRacingGame [] [])) _ _))) "B"%string).
  - intros k v [[= <- <-]|[[= <- <-]|[[= <- <-]|[]]]]; lia.
  - simpl. repeat constructor; simpl; intuition discriminate.
Defined.

(** ** The loop of a stage *)

Lemma incr_get (k : string) (v : Z) (lb : Dict.t Z) :
  Dict.get k lb = Some v ->
  Dict.get k (Dict.incr k lb) = Some (v + 1)%Z
  /\ (forall k', k' <> k -> Dict.get k' (Dict.incr k lb) = Dict.get k' lb)
  /\ Dict.keys (Dict.incr k lb) = Dict.keys lb.
Proof.
  intros H. unfold Dict.incr. rewrite H. split; [apply get_set_same|].
  split; [intros k' Hk; now apply get_set_other|].
  apply keys_set_present. congruence.
Qed.

Section StageLoop.

Variable Math_random : nat -> Q.
Variable performance_now : nat -> Q.
Variable Math_pow : Q -> Q -> Q.
Variable stage : Stage.t.

Local Abbreviation tick' := (tick Math_random performance_now Math_pow stage).
Local Abbreviation ticks' n :=
  (ticks Math_random performance_now Math_pow n stage).
Local Abbreviation start := (startStage performance_now stage).
Local Abbreviation stageLoop' n :=
  (stageLoop Math_random performance_now Math_pow n stage).
Local Abbreviation raceCars' :=
  (raceCars Math_random performance_now Math_pow stage).

Lemma ticks_shift (n : nat) (s : option nat * World) :
  ticks' (S n) s = ticks' n (tick' (fst s) (snd s)).
Proof.
  induction n as [|n IH].
  - cbn [ticks]. now destruct s.
  - rewrite ticks_S, IH. now rewrite ticks_S.
Qed.

Lemma running_dec (s : option nat * World) : {running s} + {~ running s}.
Proof.
  unfold running. destruct (fst s); [right; intros [H _]; discriminate|].
  destruct (isFinished (game (snd s))); [right; intros [_ H]; discriminate|].
  now left.
Qed.

Lemma stageLoop_stop (fuel : nat) (s : option nat * World) :
  ~ running s -> stageLoop' fuel (fst s) (snd s) = Some s.
Proof.
  unfold running. destruct s as [win w]. cbn [fst snd]. intros H.
  destruct fuel; cbn [stageLoop]; destruct win; try reflexivity;
    destruct (isFinished (game w)); try reflexivity; tauto.
Qed.

Lemma stageLoop_go (fuel : nat) (s : option nat * World) :
  running s ->
  stageLoop' (S fuel) (fst s) (snd s)
  = stageLoop' fuel (fst (tick' (fst s) (snd s))) (snd (tick' (fst s) (snd s))).
Proof.
  unfold running. destruct s as [win w]. cbn [fst snd]. intros [-> H].
  cbn [stageLoop]. rewrite H. now destruct (tick' None w).
Qed.

Lemma stageLoop_dry (s : option nat * World) :
  running s -> stageLoop' 0 (fst s) (snd s) = None.
Proof.
  unfold running. destruct s as [win w]. cbn [fst snd]. intros [-> H].
  cbn [stageLoop]. now rewrite H.
Qed.

(** The loop returns the first state, in the sequence of ticks, from which
    it does not go on. *)
Lemma stageLoop_spec (fuel : nat) (s r : option nat * World) :
  stageLoop' fuel (fst s) (snd s) = Some r ->
  exists n, (n <= fuel)%nat /\ ticks' n s = r /\ ~ running r
            /\ forall k, (k < n)%nat -> running (ticks' k s).
Proof.
  revert s. induction fuel as [|fuel IH]; intros s H.
  - destruct (running_dec s) as [Hr|Hr].
    + rewrite stageLoop_dry in H by auto. discriminate.
    + rewrite stageLoop_stop in H by auto. injection H as <-.
      exists 0%nat. split; [lia|]. split; [reflexivity|].
      split; [exact Hr|]. intros j Hj. lia.
  - destruct (running_dec s) as [Hr|Hr].
    + rewrite stageLoop_go in H by auto.
      destruct (IH _ H) as (n & Hn & E & Hnr & Hk).
      exists (S n). split; [lia|]. split; [now rewrite ticks_shift|].
      split; [exact Hnr|]. intros [|k] Hlt; [exact Hr|].
      rewrite ticks_shift. apply Hk. lia.
    + rewrite stageLoop_stop in H by auto. injection H as <-.
      exists 0%nat. split; [lia|]. split; [reflexivity|].
      split; [exact Hr|]. intros j Hj. lia.
Qed.

(** With enough fuel the loop returns that state. *)
Lemma stageLoop_complete (n fuel : nat) (s : option nat * World) :
  (n <= fuel)%nat ->
  ~ running (ticks' n s) ->
  (forall k, (k < n)%nat -> running (ticks' k s)) ->
  stageLoop' fuel (fst s) (snd s) = Some (ticks' n s).
Proof.
  revert fuel s. induction n as [|n IH]; intros fuel s Hle Hnr Hk.
  - now apply stageLoop_stop.
  - destruct fuel as [|fuel]; [lia|].
    rewrite stageLoop_go by (apply (Hk 0%nat); lia).
    rewrite ticks_shift. apply IH; [lia | now rewrite <- ticks_shift |].
    intros k Hlt. rewrite <- ticks_shift. apply Hk. lia.
Qed.

(** Cars that all finished are not touched, and nobody wins. *)
Lemma raceCars_idle (i : nat) (cs : list Car.t) (st : Loop) :
  Forall (fun c => finished stage c = true) cs -> raceCars' i cs st = (cs, st).
Proof.
  intros H. revert i st. induction H as [|c cs Hc _ IH]; intros i st; auto.
  rewrite raceCars_cons, raceCar_finished by auto. cbn [fst snd].
  now rewrite IH.
Qed.

Lemma tick_idle (s : option nat * World) :
  running s ->
  Forall (fun c => finished stage c = true) (cars (game (snd s))) ->
  running (tick' (fst s) (snd s))
  /\ cars (game (snd (tick' (fst s) (snd s)))) = cars (game (snd s)).
Proof.
  intros [Hw Hf] Hall. unfold running.
  rewrite tick_isFinished, tick_winner, tick_cars, Hw.
  rewrite raceCars_idle by auto. cbn [fst snd winner Js.truthy orb].
  auto.
Qed.

Lemma ticks_idle (s : option nat * World) (n : nat) :
  running s ->
  Forall (fun c => finished stage c = true) (cars (game (snd s))) ->
  running (ticks' n s) /\ cars (game (snd (ticks' n s))) = cars (game (snd s)).
Proof.
  intros Hr Hall. induction n as [|n [IH1 IH2]]; [now split|].
  rewrite ticks_S.
  destruct (tick_idle (ticks' n s) IH1) as [H1 H2]; [now rewrite IH2|].
  split; [exact H1 | congruence].
Qed.

Lemma moved_names (cs cs' : list Car.t) :
  Forall2 (moved Math_random Math_pow stage) cs cs' ->
  map Car.name cs' = map Car.name cs.
Proof.
  induction 1 as [|c c' t t' Hcc _ IH]; auto. simpl. f_equal; auto.
  destruct Hcc as [->|(k & _ & ->)]; auto. apply advance_sameCar.
Qed.

Lemma ticks_names (w : World) (n : nat) :
  map Car.name (cars (game (snd (ticks' n (None, start w)))))
  = map Car.name (cars (game w)).
Proof.
  induction n as [|n IH].
  - cbn [ticks snd]. rewrite start_cars, map_map. reflexivity.
  - rewrite ticks_S. rewrite <- IH. apply moved_names, tick_moved.
Qed.

(** While no winner is declared, every car that started active is active
    and the leaderboard is the one the stage started with. *)
Lemma ticks_before_winner (w : World) (n : nat) :
  (1 <= Stage.laps stage)%Z ->
  (forall k, (k <= n)%nat -> fst (ticks' k (None, start w)) = None) ->
  Forall (fun c => finished stage c = false)
    (cars (game (snd (ticks' n (None, start w)))))
  /\ leaderboard (game (snd (ticks' n (None, start w))))
     = leaderboard (game w).
Proof.
  intros Hlaps. induction n as [|n IH]; intros Hk.
  - cbn [ticks snd]. rewrite start_cars. split; [|apply start_frame].
    apply Forall_forall. intros c Hc. apply in_map_iff in Hc.
    destruct Hc as (c0 & <- & _). unfold finished. cbn. apply Z.ltb_ge. lia.
  - destruct IH as [IH1 IH2]; [intros k Hle; apply Hk; lia|].
    pose proof (Hk (S n) (le_n _)) as Hw'.
    pose proof (Hk n (Nat.le_succ_diag_r _)) as Hw.
    rewrite ticks_S in *. rewrite tick_winner in Hw'.
    rewrite tick_cars, tick_leaderboard.
    pose proof (raceCars_winner Math_random performance_now Math_pow stage 0
                  (cars (game (snd (ticks' n (None, start w)))))
                  (mkLoop (fst (ticks' n (None, start w))) []
                     (snd (ticks' n (None, start w)))) Hw) as R.
    cbn zeta in R. rewrite Hw' in R. destruct R as [R1 R2].
    split.
    + eapply Forall2_keeps with (P := fun c => finished stage c = false);
        [| |exact IH1].
      2: { eapply Forall2_impl; [|exact R1]. intros a b H. exact H. }
      intros a b H Ha. now apply H.
    + rewrite R2. exact IH2.
Qed.

End StageLoop.

Lemma Forall2_firstn_nth {A : Type} (R : A -> A -> Prop) (j : nat)
  (l l' : list A) (k : nat) (a b : A) :
  Forall2 R (firstn j l) (firstn j l') -> (k < j)%nat ->
  nth_error l k = Some a -> nth_error l' k = Some b -> R a b.
Proof.
  revert l l' k. induction j as [|j IH]; intros l l' k H Hk Ha Hb; [lia|].
  destruct l as [|x l]; [destruct k; discriminate|].
  destruct l' as [|y l']; [destruct k; discriminate|].
  cbn [firstn] in H. inversion H; subst.
  destruct k as [|k]; cbn [nth_error] in *.
  - now injection Ha as <-; injection Hb as <-.
  - apply (IH l l' k); auto. lia.
Qed.

Section StageEnd.

Variable Math_random : nat -> Q.
Variable performance_now : nat -> Q.
Variable Math_pow : Q -> Q -> Q.
Variable stage : Stage.t.

Local Abbreviation tick' := (tick Math_random performance_now Math_pow stage).
Local Abbreviation ticks' n :=
  (ticks Math_random performance_now Math_pow n stage).
Local Abbreviation start := (startStage performance_now stage).
Local Abbreviation simulateStage' n :=
  (simulateStage Math_random performance_now Math_pow n stage).

Lemma start_running (w : World) : running (None, start w).
Proof. split; [reflexivity | apply start_frame]. Qed.

(** A stage that completes ran [m + 1] ticks; the last one, and no tick
    before it, declared a winner; and the stage has at least one lap. *)
Lemma completed_stage (fuel : nat) (w w' : World) :
  simulateStage' fuel w = Some w' ->
  exists m i,
    (S m <= fuel)%nat
    /\ (forall k, (k <= m)%nat -> running (ticks' k (None, start w)))
    /\ fst (ticks' (S m) (None, start w)) = Some i
    /\ w' = finishStage stage (Some i) (snd (ticks' (S m) (None, start w)))
    /\ (1 <= Stage.laps stage)%Z.
Proof.
  unfold simulateStage. intros H.
  destruct (stageLoop _ _ _ fuel stage None (start w)) as [[win w1]|] eqn:E;
    [|discriminate].
  injection H as <-.
  destruct (stageLoop_spec Math_random performance_now Math_pow stage fuel
              (None, start w) (win, w1) E) as (n & Hn & Et & Hnr & Hk).
  destruct n as [|m].
  { cbn [ticks] in Et. rewrite <- Et in Hnr.
    destruct (Hnr (start_running w)). }
  assert (running (ticks' m (None, start w))) as Hm by (apply Hk; lia).
  assert (win <> None) as Hwin.
  { intros ->. apply Hnr. split; [reflexivity|]. cbn [snd].
    rewrite ticks_S in Et.
    pose proof (tick_isFinished Math_random performance_now Math_pow stage
                  (fst (ticks' m (None, start w)))
                  (snd (ticks' m (None, start w)))) as F.
    rewrite Et in F. cbn [fst snd Js.truthy orb] in F. rewrite F. apply Hm. }
  destruct win as [i|]; [|congruence].
  exists m, i. split; [exact Hn|]. split; [intros k Hle; apply Hk; lia|].
  split; [now rewrite Et|]. split; [now rewrite Et|].
  destruct (Z_lt_le_dec (Stage.laps stage) 1) as [Hlt|]; [|assumption].
  exfalso.
  destruct (ticks_idle Math_random performance_now Math_pow stage
              (None, start w) (S m) (start_running w)) as [[Hr _] _].
  - cbn [snd]. rewrite start_cars. apply Forall_forall. intros c Hc.
    apply in_map_iff in Hc. destruct Hc as (c0 & <- & _).
    unfold finished. cbn. apply Z.ltb_lt. lia.
  - rewrite Et in Hr. discriminate.
Qed.

(** The tick that declares the winner. *)
Lemma winning_tick (w : World) (m i : nat) :
  (1 <= Stage.laps stage)%Z ->
  (forall k, (k <= m)%nat -> running (ticks' k (None, start w))) ->
  fst (ticks' (S m) (None, start w)) = Some i ->
  exists c0 c,
    nth_error (cars (game (snd (ticks' m (None, start w))))) i = Some c0
    /\ nth_error (cars (game (snd (ticks' (S m) (None, start w))))) i = Some c
    /\ finished stage c0 = false /\ finished stage c = true
    /\ Car.name c = Car.name c0
    /\ (forall j cj, (j < i)%nat ->
          nth_error (cars (game (snd (ticks' (S m) (None, start w))))) j
          = Some cj -> finished stage cj = false)
    /\ leaderboard (game (snd (ticks' (S m) (None, start w))))
       = Dict.incr (Car.name c0) (leaderboard (game w)).
Proof.
  intros Hlaps Hk Hi.
  destruct (ticks_before_winner Math_random performance_now Math_pow stage
              w m Hlaps) as [Hall Hlb];
    [intros k Hle; apply (Hk k Hle)|].
  pose proof (proj1 (Hk m (le_n _))) as Hw.
  rewrite ticks_S in *. rewrite tick_winner in Hi.
  rewrite tick_cars, tick_leaderboard.
  set (s := ticks' m (None, start w)) in *.
  pose proof (raceCars_winner Math_random performance_now Math_pow stage 0
                (cars (game (snd s))) (mkLoop (fst s) [] (snd s)) Hw) as R.
  cbn zeta in R. rewrite Hi in R.
  destruct R as (j & c0 & c & Hx & Hn & Hn' & Hf & Hf' & Hb & Hl).
  cbn [Nat.add] in Hx. subst j.
  exists c0, c. split; [exact Hn|]. split; [exact Hn'|].
  split; [exact Hf|]. split; [exact Hf'|]. split.
  { destruct (raceCars_nth Math_random performance_now Math_pow stage 0
                (cars (game (snd s))) (mkLoop (fst s) [] (snd s)) i c0 Hn Hf)
      as [E _].
    rewrite Hn' in E. injection E as ->. apply advance_sameCar. }
  split.
  - intros j cj Hj Hcj.
    assert (exists a, nth_error (cars (game (snd s))) j = Some a) as [a Ha].
    { destruct (nth_error (cars (game (snd s))) j) eqn:E; eauto.
      apply nth_error_None in E.
      assert (i < List.length (cars (game (snd s))))%nat
        by (apply nth_error_Some; congruence).
      lia. }
    apply (Forall2_firstn_nth _ i _ _ j a cj Hb Hj Ha Hcj).
    rewrite Forall_forall in Hall. apply Hall. eapply nth_error_In; eauto.
  - rewrite Hl. cbn [world]. now rewrite Hlb.
Qed.

End StageEnd.

(** ** The stage winner (C3) *)

(** C3.  A stage that runs to completion declares exactly one winner: no
    tick before the last declares one, the last tick declares the first car,
    in the order of the loop, whose [currentLap] exceeds [stage.laps] after a
    lap increment (every car before it is still within the laps), and the
    stage ends with that tick.  The leaderboard entry of the winner's name
    grows by one; no other entry changes and no entry is added or removed. *)
Theorem one_winner_per_stage
  (Math_random performance_now : nat -> Q) (Math_pow : Q -> Q -> Q)
  (fuel : nat) (stage : Stage.t) (w w' : World) :
  simulateStage Math_random performance_now Math_pow fuel stage w = Some w' ->
  listed (leaderboard (game w)) (cars (game w)) ->
  let run k := ticks Math_random performance_now Math_pow k stage
                 (None, startStage performance_now stage w) in
  exists m i c v,
    (S m <= fuel)%nat
    /\ (forall k, (k <= m)%nat -> fst (run k) = None)
    /\ fst (run (S m)) = Some i
    /\ w' = finishStage stage (Some i) (snd (run (S m)))
    /\ nth_error (cars (game w')) i = Some c
    /\ (Stage.laps stage < Car.currentLap c)%Z
    /\ (exists c0, nth_error (cars (game (snd (run m)))) i = Some c0
                   /\ active stage c0)
    /\ (forall j cj, (j < i)%nat -> nth_error (cars (game w')) j = Some cj ->
                     active stage cj)
    /\ Dict.get (Car.name c) (leaderboard (game w)) = Some v
    /\ Dict.get (Car.name c) (leaderboard (game w')) = Some (v + 1)%Z
    /\ (forall k, k <> Car.name c ->
          Dict.get k (leaderboard (game w'))
          = Dict.get k (leaderboard (game w)))
    /\ Dict.keys (leaderboard (game w')) = Dict.keys (leaderboard (game w)).
Proof.
  intros H Hlisted. cbv zeta.
  destruct (completed_stage Math_random performance_now Math_pow stage
              fuel w w' H) as (m & i & Hm & Hk & Hi & -> & Hlaps).
  destruct (winning_tick Math_random performance_now Math_pow stage
              w m i Hlaps Hk Hi)
    as (c0 & c & Hn & Hn' & Hf & Hf' & Hname & Hb & Hl).
  assert (exists v, Dict.get (Car.name c) (leaderboard (game w)) = Some v)
    as [v Hv].
  { rewrite Hname.
    assert (In (Car.name c0) (map Car.name (cars (game w)))) as Hin.
    { rewrite <- (ticks_names Math_random performance_now Math_pow stage w m).
      apply in_map. eapply nth_error_In; eauto. }
    apply in_map_iff in Hin. destruct Hin as (c1 & E & Hin).
    specialize (Hlisted c1 Hin). rewrite E in Hlisted.
    destruct (Dict.get (Car.name c0) (leaderboard (game w))); [eauto|].
    congruence. }
  destruct (incr_get _ _ _ Hv) as (G1 & G2 & G3).
  exists m, i, c, v.
  split; [exact Hm|]. split; [intros k Hle; apply (Hk k Hle)|].
  split; [exact Hi|]. split; [reflexivity|].
  cbn [finishStage onGame emit game cars leaderboard with_stageResults
         with_currentStageIndex].
  split; [exact Hn'|].
  split; [unfold finished in Hf'; now apply Z.ltb_lt|].
  split; [exists c0; split; [exact Hn | now apply active_finished]|].
  split; [intros j cj Hj Hcj; apply active_finished; eauto|].
  rewrite Hl, <- Hname. auto.
Qed.

Lemma easy_cars_listed :
  listed (leaderboard (game easyWorld)) (cars (game easyWorld)).
Proof. intros c [<-|[<-|[<-|[<-|[]]]]]; cbn; discriminate. Qed.

Lemma one_winner_per_stage_witness :
  listed (leaderboard (game easyWorld)) (cars (game easyWorld))
  /\ exists w',
       simulateStage (replay []) (clockEvery 50) pow_1_5 5 dragStrip easyWorld
       = Some w'
       /\ Dict.keys (leaderboard (game w'))
          = Dict.keys (leaderboard (game easyWorld)).
Proof.
  split; [exact easy_cars_listed|].
  destruct (simulateStage (replay []) (clockEvery 50) pow_1_5 5 dragStrip
              easyWorld) as [w'|] eqn:E; [|vm_compute in E; discriminate].
  exists w'. split; [reflexivity|].
  destruct (one_winner_per_stage (replay []) (clockEvery 50) pow_1_5 5
              dragStrip easyWorld w' E easy_cars_listed)
    as (m & i & c & v & _ & _ & _ & _ & _ & _ & _ & _ & _ & _ & _ & Hkeys).
  exact Hkeys.
Defined.

(** ** The record of a stage (C10) *)

Lemma ticks_frame
  (Math_random performance_now : nat -> Q) (Math_pow : Q -> Q -> Q)
  (stage : Stage.t) (w : World) (n : nat) :
  let s := ticks Math_random performance_now Math_pow n stage
             (None, startStage performance_now stage w) in
  stages (game (snd s)) = stages (game w)
  /\ stageResults (game (snd s)) = stageResults (game w)
  /\ currentStageIndex (game (snd s)) = currentStageIndex (game w).
Proof.
  cbv zeta. induction n as [|n (IH1 & IH2 & IH3)].
  - cbn [ticks snd].
    destruct (start_frame performance_now stage w) as (_ & _ & _ & H); exact H.
  - rewrite ticks_S.
    match goal with |- context [tick _ _ _ _ ?a ?b] =>
      destruct (tick_frame Math_random performance_now Math_pow stage a b)
        as (H1 & H2 & H3) end.
    rewrite H1, H2, H3. auto.
Qed.

Lemma Sorted_weaken {A : Type} (R S : A -> A -> Prop) (l : list A) :
  (forall a b, R a b -> S a b) -> Sorted R l -> Sorted S l.
Proof.
  intros H. induction 1 as [|a l Hs IH Hhd]; constructor; auto.
  destruct Hhd; constructor; auto.
Qed.

Lemma finalStandings_sorted (cs : list Car.t) :
  Permutation (map standing cs) (finalStandings cs)
  /\ Sorted (fun a b => (Standing.damage a <= Standing.damage b)%Z)
       (finalStandings cs).
Proof.
  unfold finalStandings. split; [apply sort_perm|].
  eapply Sorted_weaken;
    [|apply sort_sorted with (key := fun a => Js.parseFloat (Standing.damage a))].
  - intros a b. unfold Js.parseFloat. cbv beta. intros H.
    rewrite Zle_Qle. revert H.
    generalize (inject_Z (Standing.damage a)) (inject_Z (Standing.damage b)).
    intros x y H. apply (Qmult_le_r x y (/ 10)); [reflexivity | exact H].
  - intros a b. split; intros H; lra.
Qed.


(** ** Invalid configurations (C7) *)

(** Without cars, or on a stage without laps, no winner can be declared:
    the loop of [simulateStage] is still running after any number of
    ticks. *)
Lemma stage_never_ends
  (Math_random performance_now : nat -> Q) (Math_pow : Q -> Q -> Q)
  (fuel : nat) (stage : Stage.t) (w : World) :
  cars (game w) = [] \/ (Stage.laps stage <= 0)%Z ->
  simulateStage Math_random performance_now Math_pow fuel stage w = None.
Proof.
  intros Hbad.
  destruct (simulateStage Math_random performance_now Math_pow fuel stage w)
    as [w'|] eqn:E; [exfalso | reflexivity].
  destruct (completed_stage Math_random performance_now Math_pow stage
              fuel w w' E) as (m & i & Hm & Hk & Hi & _ & Hlaps).
  destruct Hbad as [Hcars|Hlaps']; [|lia].
  destruct (winning_tick Math_random performance_now Math_pow stage
              w m i Hlaps Hk Hi) as (c0 & c & Hn & _).
  pose proof (ticks_names Math_random performance_now Math_pow stage w m) as N.
  rewrite Hcars in N. apply map_eq_nil in N. rewrite N in Hn.
  destruct i; discriminate Hn.
Qed.

Lemma runStages_stuck
  (Math_random performance_now : nat -> Q) (Math_pow : Q -> Q -> Q)
  (fuel : nat) (stage : Stage.t) (rest : list Stage.t) (w : World) :
  cars (game w) = [] \/ (Stage.laps stage <= 0)%Z ->
  runStages Math_random performance_now Math_pow fuel (stage :: rest) w = None.
Proof.
  intros H. cbn [runStages]. now rewrite stage_never_ends.
Qed.

(** C7 (amended).  The engine does not validate its configuration.  With an
    empty roster of cars, or a stage of zero (or fewer) laps,
    [simulateStage] raises no error: it enters its loop and the loop never
    ends, whatever the number of ticks; and [runRace] is stuck in the same
    way when the stage it has to run next is such a stage. *)
Theorem invalid_configuration_loops_forever
  (Math_random performance_now : nat -> Q) (Math_pow : Q -> Q -> Q)
  (fuel : nat) (stage : Stage.t) (rest : list Stage.t) (w : World) :
  cars (game w) = [] \/ (Stage.laps stage <= 0)%Z ->
  simulateStage Math_random performance_now Math_pow fuel stage w = None
  /\ (skipn (currentStageIndex (game w)) (stages (game w)) = stage :: rest ->
      runRace Math_random performance_now Math_pow fuel w = None).
Proof.
  intros H. split; [now apply stage_never_ends|].
  intros Hs. unfold runRace.
  destruct (Nat.eqb (currentStageIndex (game w)) 0) eqn:E0.
  - apply Nat.eqb_eq in E0. rewrite E0 in Hs. cbn [skipn] in Hs.
    cbn [onGame game resetForNewRace currentStageIndex stages skipn].
    rewrite Hs. now rewrite runStages_stuck.
  - rewrite Hs. now rewrite runStages_stuck.
Qed.

Lemma invalid_configuration_loops_forever_witness :
  cars (game emptyWorld) = []
  /\ simulateStage (replay []) (clockEvery 50) pow_1_5 1000 urbanSprint
       emptyWorld = None
  /\ runRace (replay []) (clockEvery 50) pow_1_5 1000 emptyWorld = None.
Proof.
  split; [reflexivity|].
  destruct (invalid_configuration_loops_forever (replay []) (clockEvery 50)
              pow_1_5 1000 urbanSprint [] emptyWorld (or_introl eq_refl))
    as [H1 H2].
  split; [exact H1 | exact (H2 eq_refl)].
Defined.

(** C7, as stated, fails: with no cars, and with the easy roster on a stage
    of zero laps, [simulateStage] reports no error; its loop is still
    running after any number of ticks. *)
Lemma no_validation_of_the_configuration :
  (forall fuel,
     simulateStage (replay []) (clockEvery 50) pow_1_5 fuel urbanSprint
       emptyWorld = None)
  /\ (forall fuel,
        simulateStage (replay []) (clockEvery 50) pow_1_5 fuel
          (Stage.mk "No Laps" 1000 0) easyWorld = None)
  /\ stageLoop (replay []) (clockEvery 50) pow_1_5 3 urbanSprint None
       (startStage (clockEvery 50) urbanSprint emptyWorld) = None.
Proof.
  split; [|split].
  - intros fuel. apply stage_never_ends. now left.
  - intros fuel. apply stage_never_ends. right. cbn. lia.
  - reflexivity.
Qed.

(** ** Overtakes (C5) *)

Lemma overtakes_Some (current previous : option nat) (c p : nat) :
  overtakes current previous = Some (c, p)
  <-> current = Some c /\ previous = Some p /\ c <> p.
Proof.
  unfold overtakes. destruct current as [c'|], previous as [p'|];
    try (split; [discriminate | intros (H1 & H2 & _); discriminate]).
  destruct (Nat.eqb c' p') eqn:E.
  - apply Nat.eqb_eq in E. subst. split; [discriminate|].
    intros ([= ->] & [= ->] & H). contradiction.
  - apply Nat.eqb_neq in E. split.
    + intros [= -> ->]. auto.
    + intros ([= ->] & [= ->] & _). reflexivity.
Qed.

Lemma detect_trace (performance_now : nat -> Q) (stage : Stage.t) (w : World) :
  trace (detectOvertake performance_now stage w)
  = trace w
    ++ match overtakes (currentLeader stage (cars (game w)))
               (previousLeader (game w)) with
       | Some (c, p) =>
           if cooldownOver (performance_now (clockCalls w))
                (lastCommentaryTime (game w))
           then [GenerateCommentary
                   (Overtake (carName (cars (game w)) c)
                      (carName (cars (game w)) p))]
           else []
       | None => []
       end.
Proof.
  unfold detectOvertake. destruct (overtakes _ _) as [[c p]|];
    cbn [onGame trace].
  - apply tryGen_trace.
  - now rewrite app_nil_r.
Qed.

(** C5 (amended).  In the tick that follows [n] ticks of a stage, with
    [previous] the leader computed by the tick before (none for the first
    tick) and [leader] the leader computed by this tick: the loop over the
    cars produces no overtake commentary; after it the commentator is asked
    for an overtake commentary exactly when [leader] and [previous] are two
    different cars, and only if the commentary cooldown is over at that
    moment; nothing else but the update of the visuals follows.  On the
    first tick there is no previous leader, hence no overtake commentary. *)
Theorem overtake_commentary_rule
  (Math_random performance_now : nat -> Q) (Math_pow : Q -> Q -> Q)
  (stage : Stage.t) (w : World) (n : nat) :
  let run k := ticks Math_random performance_now Math_pow k stage
                 (None, startStage performance_now stage w) in
  let before := snd (run n) in
  let mid := world (afterCars Math_random performance_now Math_pow stage
                      (fst (run n)) before) in
  let after := snd (run (S n)) in
  let leader := currentLeader stage (cars (game after)) in
  let previous := previousLeader (game before) in
  (n = 0%nat -> previous = None)
  /\ ((0 < n)%nat -> previous = currentLeader stage (cars (game before)))
  /\ previousLeader (game after) = leader
  /\ noOvertakeSince before mid
  /\ (forall c p, overtakes leader previous = Some (c, p)
                  <-> leader = Some c /\ previous = Some p /\ c <> p)
  /\ exists incs,
       trace after
       = trace mid
         ++ match overtakes leader previous with
            | Some (c, p) =>
                if cooldownOver (performance_now (clockCalls mid))
                     (lastCommentaryTime (game mid))
                then [GenerateCommentary
                        (Overtake (carName (cars (game after)) c)
                           (carName (cars (game after)) p))]
                else []
            | None => []
            end
         ++ [UpdateAllVisuals incs].
Proof.
  cbv zeta.
  set (s := ticks Math_random performance_now Math_pow n stage
              (None, startStage performance_now stage w)).
  split.
  { intros ->. unfold s. cbn [ticks snd]. apply start_frame. }
  split.
  { intros Hn. unfold s. destruct n as [|n]; [lia|].
    rewrite ticks_S. apply tick_previousLeader. }
  rewrite ticks_S. fold s.
  split; [apply tick_previousLeader|].
  pose proof (raceCars_sameRace Math_random performance_now Math_pow stage 0
                (cars (game (snd s))) (mkLoop (fst s) [] (snd s)))
    as (_ & _ & _ & Hp & _).
  pose proof (raceCars_noOvertake Math_random performance_now Math_pow stage 0
                (cars (game (snd s))) (mkLoop (fst s) [] (snd s))) as Hno.
  cbn [world] in Hp, Hno.
  split.
  { rewrite afterCars_eq. cbn [world]. destruct Hno as (evs & E1 & E2).
    exists evs. split; [exact E1 | exact E2]. }
  split; [intros c p; apply overtakes_Some|].
  exists (distanceIncrements
            (afterCars Math_random performance_now Math_pow stage
               (fst s) (snd s))).
  assert (cars (game (snd (tick Math_random performance_now Math_pow stage
                             (fst s) (snd s))))
          = cars (game (world (afterCars Math_random performance_now Math_pow
                                 stage (fst s) (snd s))))) as Ec.
  { rewrite tick_cars, afterCars_eq. reflexivity. }
  assert (previousLeader
            (game (world (afterCars Math_random performance_now Math_pow
                            stage (fst s) (snd s))))
          = previousLeader (game (snd s))) as Ep.
  { rewrite afterCars_eq. exact Hp. }
  rewrite Ec, <- Ep. rewrite tick_eq. cbn [snd].
  rewrite app_assoc, <- detect_trace.
  destruct (Js.truthy _); reflexivity.
Qed.

(** C5, as stated, fails: in the easy preset the leader computed by the
    first tick is Shadow (car 2) and the leader computed by the second tick
    is Bolt (car 3), yet no overtake commentary is produced: 1250 ms after
    the commentary of the start, the cooldown is not over. *)
Lemma lead_change_without_overtake_commentary :
  previousLeader (game (snd (lateCharge 1))) = Some 2%nat
  /\ previousLeader (game (snd (lateCharge 2))) = Some 3%nat
  /\ existsb isOvertakeCommentary (trace (snd (lateCharge 2))) = false
  /\ filter (fun e => match e with GenerateCommentary _ => true | _ => false end)
       (trace (snd (lateCharge 2)))
     = [GenerateCommentary (StageStarting "Urban Sprint")].
Proof. vm_compute. repeat split; reflexivity. Qed.

(** ** Saving, loading and resuming (C9) *)

Lemma restoreCars_all (f : Car.t -> Car.t) (pre l : list Car.t) :
  restoreCars (List.length pre) (map f l) (pre ++ l) = l.
Proof.
  revert pre. induction l as [|c l IH]; intros pre; [reflexivity|].
  cbn [map restoreCars].
  rewrite nth_error_app2, Nat.sub_diag by lia. cbn [nth_error].
  replace (pre ++ c :: l) with ((pre ++ [c]) ++ l) by now rewrite <- app_assoc.
  replace (S (List.length pre)) with (List.length (pre ++ [c]))
    by (rewrite length_app; simpl; lia).
  rewrite IH. f_equal. now destruct c.
Qed.

Lemma stages_rebuilt (l : list Stage.t) :
  map (fun s => Stage.mk (Stage.name s) (Stage.length s) (Stage.laps s)) l = l.
Proof. induction l as [|[n len laps] l IH]; simpl; congruence. Qed.

(** What [loadGameState] makes of what [saveGameState] wrote. *)
Lemma load_save (difficulty : string) (g : RacingGame)
  (storage : option SavedState) (old : option RacingGame) :
  exists g',
    loadGameState (saveGameState difficulty (Some g) storage) old = Some g'
    /\ cars g' = cars g /\ stages g' = stages g
    /\ leaderboard g' = leaderboard g /\ stageResults g' = stageResults g
    /\ currentStageIndex g' = currentStageIndex g
    /\ previousLeader g' = None /\ lastCommentaryTime g' = None
    /\ isFinished g' = false.
Proof.
  eexists. split; [reflexivity|].
  cbn [saveGameState saved_cars saved_stages saved_leaderboard
         saved_stageResults saved_currentStageIndex with_cars with_leaderboard
         with_stageResults with_currentStageIndex newRacingGame
         resetForNewRace cars stages leaderboard stageResults
         currentStageIndex previousLeader lastCommentaryTime isFinished].
  split; [apply (restoreCars_all _ [] (cars g))|].
  split; [apply stages_rebuilt|]. repeat split.
Qed.

Section Resume.

Variable Math_random : nat -> Q.
Variable performance_now : nat -> Q.
Variable Math_pow : Q -> Q -> Q.

Local Abbreviation simulateStage' :=
  (simulateStage Math_random performance_now Math_pow).
Local Abbreviation runStages' :=
  (runStages Math_random performance_now Math_pow).

(** A completed stage leaves one more record, named after the stage. *)
Lemma simulateStage_appends (fuel : nat) (stage : Stage.t) (w w' : World) :
  simulateStage' fuel stage w = Some w' ->
  exists r,
    stageResults (game w') = stageResults (game w) ++ [r]
    /\ StageResult.stageName r = Stage.name stage
    /\ currentStageIndex (game w') = S (currentStageIndex (game w))
    /\ stages (game w') = stages (game w).
Proof.
  intros H.
  destruct (completed_stage Math_random performance_now Math_pow stage
              fuel w w' H) as (m & i & _ & _ & _ & -> & _).
  destruct (ticks_frame Math_random performance_now Math_pow stage w (S m))
    as (F1 & F2 & F3).
  eexists.
  cbn [finishStage onGame emit game stages stageResults currentStageIndex
         with_stageResults with_currentStageIndex].
  rewrite F1, F2, F3. repeat split.
Qed.

(** The stages that are run append their records, in order. *)
Lemma runStages_appends (fuel : nat) (todo : list Stage.t) (w w' : World) :
  runStages' fuel todo w = Some w' ->
  exists new,
    stageResults (game w') = stageResults (game w) ++ new
    /\ map StageResult.stageName new = map Stage.name todo
    /\ currentStageIndex (game w')
       = (currentStageIndex (game w) + List.length todo)%nat
    /\ stages (game w') = stages (game w).
Proof.
  revert w. induction todo as [|stage rest IH]; intros w H.
  - injection H as <-. exists []. rewrite app_nil_r, Nat.add_0_r. auto.
  - cbn [runStages] in H.
    destruct (simulateStage' fuel stage w) as [w1|] eqn:E; [|discriminate].
    destruct (simulateStage_appends fuel stage w w1 E) as (r & R1 & R2 & R3 & R4).
    destruct (IH w1 H) as (new & N1 & N2 & N3 & N4).
    exists (r :: new). rewrite N1, R1, <- app_assoc. cbn [app map List.length].
    rewrite R2, N2, N3, R3, N4, R4. repeat split. lia.
Qed.

End Resume.

(** C9.  What [saveGameState] writes, [loadGameState] reads back: the cars
    with all their attributes, the stages, the leaderboard, the stage
    results and the stage cursor are those of the saved game.  When the
    cursor is not 0, a [runRace] that completes on the loaded game has run
    the stages from the cursor on, and only those: the saved records are
    kept, followed by one record per remaining stage, in order. *)
Theorem save_load_resume
  (Math_random performance_now : nat -> Q) (Math_pow : Q -> Q -> Q)
  (difficulty : string) (g g' : RacingGame) (storage : option SavedState)
  (old : option RacingGame) (fuel calls clock : nat) (events : list Event)
  (w' : World) (result : RaceResult.t) :
  currentStageIndex g <> 0%nat ->
  loadGameState (saveGameState difficulty (Some g) storage) old = Some g' ->
  runRace Math_random performance_now Math_pow fuel
    (mkWorld g' calls clock events) = Some (w', result) ->
  (cars g' = cars g /\ stages g' = stages g
   /\ leaderboard g' = leaderboard g /\ stageResults g' = stageResults g
   /\ currentStageIndex g' = currentStageIndex g)
  /\ exists new,
       stageResults (game w') = stageResults g ++ new
       /\ map StageResult.stageName new
          = map Stage.name (skipn (currentStageIndex g) (stages g))
       /\ currentStageIndex (game w')
          = (currentStageIndex g + List.length new)%nat
       /\ RaceResult.stages result = stageResults (game w').
Proof.
  intros Hidx Hload Hrun.
  destruct (load_save difficulty g storage old)
    as (g0 & E & L1 & L2 & L3 & L4 & L5 & _).
  rewrite Hload in E. injection E as <-.
  split; [auto|].
  unfold runRace in Hrun. cbn [game] in Hrun.
  assert (Nat.eqb (currentStageIndex g') 0 = false) as E0
    by (apply Nat.eqb_neq; congruence).
  rewrite E0 in Hrun. cbn [game] in Hrun.
  destruct (runStages _ _ _ fuel _ _) as [w1|] eqn:Er; [|discriminate].
  destruct (runStages_appends Math_random performance_now Math_pow
              fuel _ _ w1 Er) as (new & N1 & N2 & N3 & N4).
  cbn [game] in N1, N2, N3, N4.
  match type of Hrun with Some (?a, ?b) = _ =>
    assert (stageResults (game a) = stageResults (game w1)
            /\ currentStageIndex (game a) = currentStageIndex (game w1)
            /\ RaceResult.stages b = stageResults (game w1)) as (A1 & A2 & A3)
  end.
  { match goal with |- context [tryGenerateCommentary _ ?p ?x] =>
      destruct (tryGen_sameRace performance_now p x)
        as (_ & _ & _ & _ & H5 & H6) end.
    cbn [RaceResult.stages]. rewrite H5, H6. repeat split. }
  injection Hrun as <- <-.
  exists new. rewrite A3, A1, A2, N1, N3, L4, L5.
  rewrite L2, L5 in N2. rewrite L2.
  split; [reflexivity|]. split; [exact N2|]. split; [|reflexivity].
  now rewrite <- (length_map StageResult.stageName new), N2, length_map.
Qed.

Lemma save_load_resume_witness :
  currentStageIndex midRace <> 0%nat
  /\ match runRace (replay []) (clockEvery 50) pow_1_5 5
             (mkWorld midRaceLoaded 0 0 []) with
     | Some (w', result) =>
         exists new,
           stageResults (game w') = stageResults midRace ++ new
           /\ map StageResult.stageName new
              = map Stage.name
                  (skipn (currentStageIndex midRace) (stages midRace))
           /\ currentStageIndex (game w')
              = (currentStageIndex midRace + List.length new)%nat
           /\ RaceResult.stages result = stageResults (game w')
     | None => False
     end.
Proof.
  assert (currentStageIndex midRace <> 0%nat) as Hidx
    by (intros X; discriminate X).
  split; [exact Hidx|].
  destruct (runRace (replay []) (clockEvery 50) pow_1_5 5
              (mkWorld midRaceLoaded 0 0 [])) as [[w' result]|] eqn:Er;
    [|vm_compute in Er; discriminate Er].
  exact (proj2 (save_load_resume (replay []) (clockEvery 50) pow_1_5
                  "easy" midRace midRaceLoaded None None 5 0 0 [] w' result
                  Hidx eq_refl Er)).
Defined.

(** * Further properties of the code *)

(** ** [resetForNewRace] *)

Lemma get_set_inv {V : Type} (k k' : string) (v v' : V) (d : Dict.t V) :
  Dict.get k' (Dict.set k v d) = Some v' -> v' = v \/ Dict.get k' d = Some v'.
Proof.
  destruct (string_dec k' k) as [->|Hne].
  - rewrite get_set_same. intros [= ->]. now left.
  - rewrite get_set_other by auto. now right.
Qed.

Lemma keys_set_in {V : Type} (k k' : string) (v : V) (d : Dict.t V) :
  In k' (Dict.keys (Dict.set k v d)) <-> k' = k \/ In k' (Dict.keys d).
Proof.
  rewrite <- !get_in_keys. destruct (string_dec k' k) as [->|Hne].
  - rewrite get_set_same. split; [now left | congruence].
  - rewrite get_set_other by auto. split; [now right | intros [H|H]; congruence].
Qed.

Lemma zeroed_leaderboard (cs : list Car.t) (lb : Dict.t Z) :
  let lb' := fold_left (fun lb car => Dict.set (Car.name car) 0%Z lb) cs lb in
  (NoDup (Dict.keys lb) -> NoDup (Dict.keys lb'))
  /\ (forall k, In k (Dict.keys lb')
                <-> In k (Dict.keys lb) \/ In k (map Car.name cs))
  /\ ((forall k v, Dict.get k lb = Some v -> v = 0%Z) ->
      forall k v, Dict.get k lb' = Some v -> v = 0%Z).
Proof.
  revert lb. induction cs as [|c cs IH]; intros lb; cbn [fold_left map].
  - split; [auto|]. split; [|auto]. intros k. simpl. tauto.
  - destruct (IH (Dict.set (Car.name c) 0%Z lb)) as (H1 & H2 & H3).
    split; [intros Hnd; apply H1; now apply keys_set_NoDup|].
    split.
    + intros k. rewrite H2, keys_set_in. simpl. intuition congruence.
    + intros Hz. apply H3. intros k v Hg.
      apply get_set_inv in Hg. destruct Hg as [->|Hg]; eauto.
Qed.

Lemma reset_zeroes_helper (g : RacingGame) :
  NoDup (Dict.keys (leaderboard (resetForNewRace g)))
  /\ (forall k, In k (Dict.keys (leaderboard (resetForNewRace g)))
                <-> In k (map Car.name (cars g)))
  /\ listed (leaderboard (resetForNewRace g)) (cars (resetForNewRace g))
  /\ totalWins (leaderboard (resetForNewRace g)) = 0%Z.
Proof.
  cbn [resetForNewRace leaderboard cars].
  destruct (zeroed_leaderboard (cars g) []) as (H1 & H2 & H3).
  cbv zeta in H1, H2, H3.
  set (lb := fold_left (fun (lb : Dict.t Z) (car : Car.t) =>
                          Dict.set (Car.name car) 0%Z lb) (cars g) []) in *.
  assert (forall k v, Dict.get k lb = Some v -> v = 0%Z) as Hz
    by (apply H3; intros k v; discriminate).
  split; [apply H1; constructor|].
  split; [intros k; rewrite H2; simpl; tauto|].
  split.
  { intros c Hc. apply get_in_keys, H2. right. now apply in_map. }
  assert (forall k v, In (k, v) lb -> v = 0%Z) as Hin.
  { intros k v Hkv. apply (Hz k). apply in_get_Some; [|exact Hkv].
    apply H1. constructor. }
  clear - Hin. induction lb as [|[k v] lb IH]; [reflexivity|].
  unfold totalWins in *. cbn [map fold_right snd].
  rewrite IH by (intros k' v' H; apply (Hin k'); now right).
  rewrite (Hin k v) by now left. reflexivity.
Qed.

(** X1.  When no car is named ["__proto__"], [resetForNewRace] gives the
    leaderboard exactly one entry per car name, each with 0 wins (so every
    car is listed), empties the stage results and puts the stage cursor, the
    commentary time and the previous leader back to their initial values;
    cars and stages are kept. *)
Theorem reset_for_new_race_zeroes (g : RacingGame) :
  ownNames (cars g) ->
  let g' := resetForNewRace g in
  NoDup (Dict.keys (leaderboard g'))
  /\ (forall k, In k (Dict.keys (leaderboard g'))
                <-> In k (map Car.name (cars g)))
  /\ (forall k v, Dict.get k (leaderboard g') = Some v -> v = 0%Z)
  /\ listed (leaderboard g') (cars g')
  /\ totalWins (leaderboard g') = 0%Z
  /\ stageResults g' = [] /\ currentStageIndex g' = 0%nat
  /\ lastCommentaryTime g' = None /\ previousLeader g' = None
  /\ cars g' = cars g /\ stages g' = stages g.
Proof.
  intros _. cbv zeta. destruct (reset_zeroes_helper g) as (H1 & H2 & H3 & H4).
  split; [exact H1|]. split; [exact H2|]. split.
  { cbn [resetForNewRace leaderboard].
    apply (proj2 (proj2 (zeroed_leaderboard (cars g) []))).
    intros k v; discriminate. }
  split; [exact H3|]. split; [exact H4|]. repeat split.
Qed.

Lemma reset_for_new_race_zeroes_witness :
  ownNames (cars midRace)
  /\ totalWins (leaderboard midRace) = 1%Z
  /\ totalWins (leaderboard (resetForNewRace midRace)) = 0%Z
  /\ currentStageIndex (resetForNewRace midRace) = 0%nat.
Proof.
  split; [reflexivity|]. split; [reflexivity|].
  destruct (reset_for_new_race_zeroes midRace eq_refl)
    as (_ & _ & _ & _ & T & _ & I & _).
  split; [exact T | exact I].
Defined.

(** ** [tryGenerateCommentary] *)

Lemma tryGen_clock (performance_now : nat -> Q) (p : Prompt) (w : World) :
  clockCalls (tryGenerateCommentary performance_now p w) = S (clockCalls w).
Proof.
  unfold tryGenerateCommentary. cbn [game]. now destruct (cooldownOver _ _).
Qed.

Lemma tryGen_last (performance_now : nat -> Q) (p : Prompt) (w : World) :
  lastCommentaryTime (game (tryGenerateCommentary performance_now p w))
  = if cooldownOver (performance_now (clockCalls w))
         (lastCommentaryTime (game w))
    then Some (performance_now (clockCalls w))
    else lastCommentaryTime (game w).
Proof.
  unfold tryGenerateCommentary. cbn [game]. now destruct (cooldownOver _ _).
Qed.

(** X2.  The cooldown of the commentary: of two requests made no more than
    7000 ms apart, at most one reaches the commentator; and a request made
    when no commentary was produced yet ([lastCommentaryTime = -Infinity])
    always reaches it. *)
Theorem commentary_cooldown_holds
  (performance_now : nat -> Q) (p1 p2 : Prompt) (w : World) :
  performance_now (S (clockCalls w)) - performance_now (clockCalls w)
  <= commentaryCooldown ->
  let w2 := tryGenerateCommentary performance_now p2
              (tryGenerateCommentary performance_now p1 w) in
  (exists evs, trace w2 = trace w ++ evs /\ (List.length evs <= 1)%nat)
  /\ clockCalls w2 = S (S (clockCalls w))
  /\ (lastCommentaryTime (game w) = None ->
      trace w2 = trace w ++ [GenerateCommentary p1]).
Proof.
  intros Hgap. cbv zeta.
  assert (Js.gtb (performance_now (S (clockCalls w))
                  - performance_now (clockCalls w)) commentaryCooldown = false)
    as Hcool.
  { unfold Js.gtb. apply negb_false_iff. now apply Qle_bool_iff. }
  rewrite !tryGen_clock.
  rewrite (tryGen_trace performance_now p2), tryGen_clock, tryGen_last.
  rewrite (tryGen_trace performance_now p1).
  destruct (cooldownOver (performance_now (clockCalls w))
              (lastCommentaryTime (game w))) eqn:E1.
  - cbn [cooldownOver]. rewrite Hcool, app_nil_r.
    split; [exists [GenerateCommentary p1]; split; [reflexivity | simpl; lia]|].
    split; reflexivity.
  - rewrite app_nil_r. split; [|split; [reflexivity|]].
    + destruct (cooldownOver (performance_now (S (clockCalls w)))
                  (lastCommentaryTime (game w))).
      * exists [GenerateCommentary p2]. split; [reflexivity | simpl; lia].
      * exists []. split; [reflexivity | simpl; lia].
    + intros Hnone. rewrite Hnone in E1. discriminate E1.
Qed.

Lemma commentary_cooldown_holds_witness :
  clockEvery 1250 1 - clockEvery 1250 0 <= commentaryCooldown
  /\ trace (tryGenerateCommentary (clockEvery 1250) (Overtake "Bolt" "Shadow")
              (tryGenerateCommentary (clockEvery 1250)
                 (StageStarting "Urban Sprint") easyWorld))
     = trace easyWorld ++ [GenerateCommentary (StageStarting "Urban Sprint")].
Proof.
  assert (clockEvery 1250 1 - clockEvery 1250 0 <= commentaryCooldown) as H
    by (intros X; discriminate X).
  split; [exact H|].
  exact (proj2 (proj2 (commentary_cooldown_holds (clockEvery 1250)
                         (StageStarting "Urban Sprint")
                         (Overtake "Bolt" "Shadow") easyWorld H)) eq_refl).
Defined.

(** ** What a stage does to the roster *)

Lemma sameCar_trans (a b c : Car.t) : sameCar a b -> sameCar b c -> sameCar a c.
Proof.
  unfold sameCar. intros (A1 & A2 & A3 & A4) (B1 & B2 & B3 & B4).
  repeat split; congruence.
Qed.

Lemma Forall2_chain {A : Type} (R : A -> A -> Prop) (l1 l2 l3 : list A) :
  (forall a b c, R a b -> R b c -> R a c) ->
  Forall2 R l1 l2 -> Forall2 R l2 l3 -> Forall2 R l1 l3.
Proof.
  intros Ht H12. revert l3. induction H12 as [|a b t t' Hab _ IH]; intros l3 H23.
  - inversion H23. constructor.
  - inversion H23; subst. constructor; eauto.
Qed.

Lemma ticks_sameCar
  (Math_random performance_now : nat -> Q) (Math_pow : Q -> Q -> Q)
  (stage : Stage.t) (w : World) (n : nat) :
  Forall2 sameCar (cars (game w))
    (cars (game (snd (ticks Math_random performance_now Math_pow n stage
                        (None, startStage performance_now stage w))))).
Proof.
  induction n as [|n IH].
  - cbn [ticks snd]. rewrite start_cars.
    induction (cars (game w)) as [|c cs IHc]; constructor; auto.
    repeat split.
  - rewrite ticks_S. eapply Forall2_chain; [apply sameCar_trans | exact IH |].
    eapply Forall2_impl; [|apply tick_moved].
    intros a b [->|(k & _ & ->)]; [repeat split | apply advance_sameCar].
Qed.

(** X3.  A stage that completes keeps the roster: the same number of cars,
    in the same order, each with its name, speed, handling and color; the
    list of stages is not touched either. *)
Theorem stage_keeps_the_roster
  (Math_random performance_now : nat -> Q) (Math_pow : Q -> Q -> Q)
  (fuel : nat) (stage : Stage.t) (w w' : World) :
  simulateStage Math_random performance_now Math_pow fuel stage w = Some w' ->
  Forall2 sameCar (cars (game w)) (cars (game w'))
  /\ List.length (cars (game w')) = List.length (cars (game w))
  /\ stages (game w') = stages (game w).
Proof.
  intros H.
  destruct (completed_stage Math_random performance_now Math_pow stage
              fuel w w' H) as (m & i & _ & _ & _ & -> & _).
  pose proof (ticks_sameCar Math_random performance_now Math_pow stage w (S m))
    as F.
  destruct (ticks_frame Math_random performance_now Math_pow stage w (S m))
    as (F1 & _).
  cbn [finishStage onGame emit game cars stages with_stageResults
         with_currentStageIndex].
  split; [exact F|]. split; [|exact F1].
  symmetry. eapply Forall2_length. exact F.
Qed.

Lemma stage_keeps_the_roster_witness :
  match simulateStage (replay []) (clockEvery 50) pow_1_5 5 dragStrip
          easyWorld with
  | Some w' => List.length (cars (game w')) = 4%nat
  | None => False
  end.
Proof.
  destruct (simulateStage (replay []) (clockEvery 50) pow_1_5 5 dragStrip
              easyWorld) as [w'|] eqn:E; [|vm_compute in E; discriminate E].
  exact (proj1 (proj2 (stage_keeps_the_roster (replay []) (clockEvery 50)
                         pow_1_5 5 dragStrip easyWorld w' E))).
Defined.

(** X4.  [simulateStage] starts from [reset()]: the position, lap, damage
    and tire wear the cars had, the flag [isFinished] and the previous
    leader do not influence the stage.  (So a game saved in the middle of a
    stage and loaded again runs that stage from its start.) *)
Theorem stage_starts_from_reset
  (Math_random performance_now : nat -> Q) (Math_pow : Q -> Q -> Q)
  (fuel : nat) (stage : Stage.t) (w : World) (cs : list Car.t)
  (flag : bool) (leader : option nat) :
  Forall2 sameCar (cars (game w)) cs ->
  simulateStage Math_random performance_now Math_pow fuel stage
    (onGame (fun g => with_previousLeader leader
                        (with_isFinished flag (with_cars cs g))) w)
  = simulateStage Math_random performance_now Math_pow fuel stage w.
Proof.
  intros H. unfold simulateStage.
  assert (map Car.reset cs = map Car.reset (cars (game w))) as E.
  { induction H as [|a b t t' (E1 & E2 & E3 & E4) _ IH]; [reflexivity|].
    cbn [map]. rewrite IH. f_equal. unfold Car.reset. congruence. }
  assert (startStage performance_now stage
            (onGame (fun g => with_previousLeader leader
                                (with_isFinished flag (with_cars cs g))) w)
          = startStage performance_now stage w) as ->; [|reflexivity].
  unfold startStage, onGame.
  cbn [game randomCalls clockCalls trace with_previousLeader with_isFinished
         with_cars cars stages leaderboard isFinished lastCommentaryTime
         previousLeader stageResults currentStageIndex].
  now rewrite E.
Qed.

Lemma stage_starts_from_reset_witness :
  simulateStage (replay []) (clockEvery 50) pow_1_5 5 dragStrip
    (onGame (fun g => with_previousLeader (Some 1%nat)
                        (with_isFinished true
                           (with_cars (cars midRace) g)))
       (freshWorld midRace))
  = simulateStage (replay []) (clockEvery 50) pow_1_5 5 dragStrip
      (freshWorld midRace).
Proof.
  apply (stage_starts_from_reset (replay []) (clockEvery 50) pow_1_5 5
           dragStrip (freshWorld midRace) (cars midRace) true (Some 1%nat)).
  repeat constructor.
Defined.

(** ** Laps *)

Lemma advance_lap (pow : Q -> Q -> Q) (stage : Stage.t) (r : Q) (c : Car.t) :
  Car.currentLap (advance pow stage r c) = Car.currentLap c
  \/ Car.currentLap (advance pow stage r c) = (Car.currentLap c + 1)%Z.
Proof. unfold advance. destruct (Js.geb _ _); [now right | now left]. Qed.

Lemma moved_lap (random : nat -> Q) (pow : Q -> Q -> Q) (stage : Stage.t)
  (c c' : Car.t) :
  moved random pow stage c c' ->
  (Car.currentLap c <= Car.currentLap c')%Z
  /\ (Car.currentLap c' <= Car.currentLap c + 1)%Z
  /\ (Car.currentLap c' <= Z.max (Car.currentLap c) (Stage.laps stage + 1))%Z.
Proof.
  intros [->|(k & Hf & ->)]; [lia|].
  unfold finished in Hf. apply Z.ltb_ge in Hf.
  destruct (advance_lap pow stage (random k) c) as [-> | ->]; lia.
Qed.

Lemma Forall2_carries {A : Type} (P P' : A -> Prop) (R : A -> A -> Prop)
  (l l' : list A) :
  (forall a b, R a b -> P a -> P' b) ->
  Forall2 R l l' -> Forall P l -> Forall P' l'.
Proof.
  intros H F. induction F as [|a b t t' Hab F IH]; intros HP.
  - constructor.
  - inversion HP; subst. constructor; eauto.
Qed.

Section Laps.

Variable Math_random : nat -> Q.
Variable performance_now : nat -> Q.
Variable Math_pow : Q -> Q -> Q.
Variable stage : Stage.t.

Local Abbreviation ticks' n :=
  (ticks Math_random performance_now Math_pow n stage).
Local Abbreviation start := (startStage performance_now stage).

Lemma ticks_laps (w : World) (n : nat) :
  (0 <= Stage.laps stage)%Z ->
  Forall (fun c => (1 <= Car.currentLap c <= Stage.laps stage + 1)%Z
                   /\ (Car.currentLap c <= 1 + Z.of_nat n)%Z)
    (cars (game (snd (ticks' n (None, start w))))).
Proof.
  intros Hlaps. induction n as [|n IH].
  - cbn [ticks snd]. rewrite start_cars. apply Forall_forall.
    intros c Hc. apply in_map_iff in Hc. destruct Hc as (c0 & <- & _).
    cbn. lia.
  - rewrite ticks_S. eapply Forall2_carries; [|apply tick_moved|exact IH].
    intros a b Hab Ha. cbv beta in *.
    destruct (moved_lap _ _ _ _ _ Hab) as (M1 & M2 & M3). lia.
Qed.

Lemma ticks_winner_late (w : World) (n : nat) :
  (0 <= Stage.laps stage)%Z ->
  fst (ticks' n (None, start w)) <> None ->
  (Stage.laps stage <= Z.of_nat n)%Z.
Proof.
  intros Hlaps. induction n as [|n IH]; intros Hw.
  - cbn [ticks fst] in Hw. congruence.
  - destruct (fst (ticks' n (None, start w))) as [i|] eqn:E.
    + assert (Stage.laps stage <= Z.of_nat n)%Z by (apply IH; congruence). lia.
    + rewrite ticks_S, tick_winner in Hw.
      pose proof (raceCars_winner Math_random performance_now Math_pow stage 0
                    (cars (game (snd (ticks' n (None, start w)))))
                    (mkLoop (fst (ticks' n (None, start w))) []
                       (snd (ticks' n (None, start w)))) E) as R.
      cbn zeta in R.
      destruct (winner (snd (raceCars _ _ _ _ _ _ _))) as [x|];
        [|congruence].
      destruct R as (j & c & c' & _ & _ & Hn' & _ & Hf' & _).
      pose proof (ticks_laps w (S n) Hlaps) as L.
      rewrite ticks_S, tick_cars in L. rewrite Forall_forall in L.
      apply nth_error_In in Hn'. specialize (L c' Hn').
      unfold finished in Hf'. apply Z.ltb_lt in Hf'. lia.
Qed.

End Laps.

(** X5.  The lap counters during a stage (of at least zero laps): after [n]
    ticks every car is in a lap between 1 and [stage.laps + 1], and at most
    in lap [n + 1], because a tick completes at most one lap, however long
    the distance covered; so no winner is declared before [stage.laps]
    ticks have run. *)
Theorem lap_counter_bounds
  (Math_random performance_now : nat -> Q) (Math_pow : Q -> Q -> Q)
  (stage : Stage.t) (w : World) (n : nat) :
  (0 <= Stage.laps stage)%Z ->
  let s := ticks Math_random performance_now Math_pow n stage
             (None, startStage performance_now stage w) in
  Forall (fun c => (1 <= Car.currentLap c <= Stage.laps stage + 1)%Z
                   /\ (Car.currentLap c <= 1 + Z.of_nat n)%Z
                   /\ (1 <= Stage.laps stage ->
                       1 <= lapShown stage c <= Stage.laps stage)%Z)
    (cars (game (snd s)))
  /\ (fst s <> None -> (Stage.laps stage <= Z.of_nat n)%Z).
Proof.
  intros Hlaps. cbv zeta. split.
  - eapply Forall_impl;
      [|apply (ticks_laps Math_random performance_now Math_pow stage w n Hlaps)].
    intros c (H1 & H2). split; [exact H1|]. split; [exact H2|].
    intros H. unfold lapShown.
    destruct (Stage.laps stage <? Car.currentLap c)%Z eqn:E; [lia|].
    apply Z.ltb_ge in E. lia.
  - now apply ticks_winner_late.
Qed.

Lemma lap_counter_bounds_witness :
  (0 <= Stage.laps dragStrip)%Z
  /\ Forall (fun c => (1 <= Car.currentLap c <= Stage.laps dragStrip + 1)%Z
                      /\ (Car.currentLap c <= 1 + Z.of_nat 2)%Z
                      /\ (1 <= Stage.laps dragStrip ->
                          1 <= lapShown dragStrip c <= Stage.laps dragStrip)%Z)
       (cars (game (snd (ticks (replay []) (clockEvery 50) pow_1_5 2 dragStrip
                           (None, startStage (clockEvery 50) dragStrip
                                    easyWorld))))).
Proof.
  assert (0 <= Stage.laps dragStrip)%Z as H by (cbn; lia).
  split; [exact H|].
  exact (proj1 (lap_counter_bounds (replay []) (clockEvery 50) pow_1_5
                  dragStrip easyWorld 2 H)).
Defined.

(** X6.  At the end of a stage that completes, the winner is in lap
    [stage.laps + 1] exactly, and every car is in a lap between 1 and
    [stage.laps + 1]. *)
Theorem winner_is_one_lap_past_the_end
  (Math_random performance_now : nat -> Q) (Math_pow : Q -> Q -> Q)
  (fuel : nat) (stage : Stage.t) (w w' : World) :
  simulateStage Math_random performance_now Math_pow fuel stage w = Some w' ->
  exists r i c,
    stageResults (game w') = stageResults (game w) ++ [r]
    /\ nth_error (cars (game w')) i = Some c
    /\ StageResult.winner r = winnerLabel (Some c)
    /\ Car.currentLap c = (Stage.laps stage + 1)%Z
    /\ Forall (fun c => (1 <= Car.currentLap c <= Stage.laps stage + 1)%Z)
         (cars (game w')).
Proof.
  intros H.
  destruct (completed_stage Math_random performance_now Math_pow stage
              fuel w w' H) as (m & i & Hm & Hk & Hi & -> & Hlaps).
  destruct (winning_tick Math_random performance_now Math_pow stage
              w m i Hlaps Hk Hi)
    as (c0 & c & Hn & Hn' & Hf & Hf' & Hname & Hb & Hl).
  destruct (ticks_frame Math_random performance_now Math_pow stage w (S m))
    as (_ & F2 & _).
  pose proof (ticks_laps Math_random performance_now Math_pow stage w (S m))
    as L.
  set (w1 := snd (ticks Math_random performance_now Math_pow (S m) stage
                    (None, startStage performance_now stage w))) in *.
  exists (stageRecord stage (Some i) (cars (game w1))), i, c.
  cbn [finishStage onGame emit game cars stageResults with_stageResults
         with_currentStageIndex].
  rewrite F2. split; [reflexivity|]. split; [exact Hn'|].
  split; [unfold stageRecord; cbn [StageResult.winner]; now rewrite Hn'|].
  specialize (L ltac:(lia)).
  split.
  - rewrite Forall_forall in L. apply nth_error_In in Hn'.
    specialize (L c Hn'). unfold finished in Hf'. apply Z.ltb_lt in Hf'. lia.
  - eapply Forall_impl; [|exact L]. intros a (Ha & _). exact Ha.
Qed.

Lemma winner_is_one_lap_past_the_end_witness :
  match simulateStage (replay []) (clockEvery 50) pow_1_5 5 dragStrip
          easyWorld with
  | Some w' =>
      Forall (fun c => (1 <= Car.currentLap c <= Stage.laps dragStrip + 1)%Z)
        (cars (game w'))
  | None => False
  end.
Proof.
  destruct (simulateStage (replay []) (clockEvery 50) pow_1_5 5 dragStrip
              easyWorld) as [w'|] eqn:E; [|vm_compute in E; discriminate E].
  destruct (winner_is_one_lap_past_the_end (replay []) (clockEvery 50)
              pow_1_5 5 dragStrip easyWorld w' E)
    as (r & i & c & _ & _ & _ & _ & F).
  exact F.
Defined.

(** ** The accounts of a race *)

Lemma listed_names (lb : Dict.t Z) (cs : list Car.t) :
  listed lb cs
  <-> forall n, In n (map Car.name cs) -> Dict.get n lb <> None.
Proof.
  unfold listed. split.
  - intros H n Hn. apply in_map_iff in Hn. destruct Hn as (c & <- & Hc). auto.
  - intros H c Hc. apply H. now apply in_map.
Qed.

Lemma totalWins_set (k : string) (v v' : Z) (d : Dict.t Z) :
  Dict.get k d = Some v ->
  totalWins (Dict.set k v' d) = (totalWins d - v + v')%Z.
Proof.
  unfold totalWins. induction d as [|[k0 v0] d IH]; simpl; [discriminate|].
  destruct (String.eqb k k0) eqn:E; simpl.
  - intros [= ->]. lia.
  - intros H. rewrite IH by exact H. lia.
Qed.

Lemma totalWins_incr (k : string) (d : Dict.t Z) :
  Dict.get k d <> None -> totalWins (Dict.incr k d) = (totalWins d + 1)%Z.
Proof.
  intros H. unfold Dict.incr. destruct (Dict.get k d) as [v|] eqn:E;
    [|congruence].
  rewrite (totalWins_set k v) by exact E. lia.
Qed.

Section Accounts.

Variable Math_random : nat -> Q.
Variable performance_now : nat -> Q.
Variable Math_pow : Q -> Q -> Q.

Local Abbreviation simulateStage' :=
  (simulateStage Math_random performance_now Math_pow).
Local Abbreviation runStages' :=
  (runStages Math_random performance_now Math_pow).

(** A completed stage increments the entry of one of the car names. *)
Lemma simulateStage_leaderboard (fuel : nat) (stage : Stage.t) (w w' : World) :
  simulateStage' fuel stage w = Some w' ->
  (exists name,
     In name (map Car.name (cars (game w)))
     /\ leaderboard (game w') = Dict.incr name (leaderboard (game w)))
  /\ map Car.name (cars (game w')) = map Car.name (cars (game w)).
Proof.
  intros H.
  destruct (completed_stage Math_random performance_now Math_pow stage
              fuel w w' H) as (m & i & Hm & Hk & Hi & -> & Hlaps).
  destruct (winning_tick Math_random performance_now Math_pow stage
              w m i Hlaps Hk Hi)
    as (c0 & c & Hn & Hn' & Hf & Hf' & Hname & Hb & Hl).
  cbn [finishStage onGame emit game cars leaderboard with_stageResults
         with_currentStageIndex].
  split; [|apply ticks_names].
  exists (Car.name c0). split; [|exact Hl].
  rewrite <- (ticks_names Math_random performance_now Math_pow stage w m).
  apply in_map. eapply nth_error_In; eauto.
Qed.

Lemma runStages_wins (fuel : nat) (todo : list Stage.t) (w w' : World) :
  runStages' fuel todo w = Some w' ->
  listed (leaderboard (game w)) (cars (game w)) ->
  totalWins (leaderboard (game w'))
  = (totalWins (leaderboard (game w)) + Z.of_nat (List.length todo))%Z
  /\ Dict.keys (leaderboard (game w')) = Dict.keys (leaderboard (game w))
  /\ map Car.name (cars (game w')) = map Car.name (cars (game w)).
Proof.
  revert w. induction todo as [|stage rest IH]; intros w H Hl.
  - injection H as <-. cbn [List.length Z.of_nat]. split; [lia | auto].
  - cbn [runStages] in H.
    destruct (simulateStage' fuel stage w) as [w1|] eqn:E; [|discriminate].
    destruct (simulateStage_leaderboard fuel stage w w1 E)
      as ((name & Hin & Hlb) & Hnames).
    assert (Dict.get name (leaderboard (game w)) <> None) as Hg
      by (apply (proj1 (listed_names _ _) Hl); exact Hin).
    assert (Dict.keys (leaderboard (game w1)) = Dict.keys (leaderboard (game w)))
      as Hkeys.
    { rewrite Hlb. unfold Dict.incr.
      destruct (Dict.get name (leaderboard (game w))) as [v|] eqn:Ev;
        [|congruence].
      apply keys_set_present. congruence. }
    destruct (IH w1 H) as (T & K & N).
    { apply listed_names. intros n Hn. rewrite Hnames in Hn.
      apply get_in_keys. rewrite Hkeys. apply get_in_keys.
      now apply (proj1 (listed_names _ _) Hl). }
    rewrite T, K, N, Hlb, totalWins_incr by exact Hg.
    rewrite Hlb in Hkeys. cbn [List.length]. split; [lia | auto].
Qed.

End Accounts.

(** X7.  A new race ([currentStageIndex = 0]) that completes has run every
    stage once, in order: it leaves one record per stage, the cursor at the
    number of stages, and, when no car is named ["__proto__"], a leaderboard
    whose win counts add up to the number of stages, with one entry per car
    name.  The result it reports is the overall winner, the leaderboard and
    the records of that state. *)
Theorem new_race_accounts
  (Math_random performance_now : nat -> Q) (Math_pow : Q -> Q -> Q)
  (fuel : nat) (w w' : World) (result : RaceResult.t) :
  ownNames (cars (game w)) ->
  currentStageIndex (game w) = 0%nat ->
  runRace Math_random performance_now Math_pow fuel w = Some (w', result) ->
  map StageResult.stageName (stageResults (game w'))
  = map Stage.name (stages (game w))
  /\ currentStageIndex (game w') = List.length (stages (game w))
  /\ totalWins (leaderboard (game w'))
     = Z.of_nat (List.length (stages (game w)))
  /\ NoDup (Dict.keys (leaderboard (game w')))
  /\ (forall k, In k (Dict.keys (leaderboard (game w')))
                <-> In k (map Car.name (cars (game w))))
  /\ result = RaceResult.mk (getOverallWinner (game w'))
                (leaderboard (game w')) (stageResults (game w')).
Proof.
  intros _ H0 Hrun. unfold runRace in Hrun. rewrite H0 in Hrun.
  cbn [Nat.eqb onGame game resetForNewRace currentStageIndex stages skipn]
    in Hrun.
  destruct (runStages _ _ _ fuel _ _) as [w1|] eqn:Er; [|discriminate].
  destruct (reset_zeroes_helper (game w)) as (Z1 & Z2 & Z3 & Z4).
  destruct (runStages_appends Math_random performance_now Math_pow
              fuel _ _ w1 Er) as (new & N1 & N2 & N3 & N4).
  destruct (runStages_wins Math_random performance_now Math_pow
              fuel _ _ w1 Er Z3) as (T & K & _).
  cbn [game resetForNewRace stageResults currentStageIndex app Nat.add
         leaderboard cars] in N1, N3, T, K.
  match type of Hrun with Some (?a, ?b) = _ =>
    assert (stageResults (game a) = stageResults (game w1)
            /\ currentStageIndex (game a) = currentStageIndex (game w1)
            /\ leaderboard (game a) = leaderboard (game w1)) as (A1 & A2 & A3)
  end.
  { match goal with |- context [tryGenerateCommentary _ ?p ?x] =>
      destruct (tryGen_sameRace performance_now p x)
        as (_ & _ & _ & _ & H5 & H6);
      pose proof (tryGen_leaderboard performance_now p x) as H7 end.
    rewrite H5, H6, H7. repeat split. }
  injection Hrun as <- <-.
  set (wf := tryGenerateCommentary performance_now _ _) in *.
  assert (getOverallWinner (game wf) = getOverallWinner (game w1)) as A4
    by (unfold getOverallWinner; now rewrite A3).
  rewrite A4, A1, A2, A3, N1, N3, T, K.
  change (totalWins _ + _)%Z
    with (totalWins (leaderboard (resetForNewRace (game w)))
          + Z.of_nat (List.length (stages (game w))))%Z.
  rewrite Z4. split; [exact N2|]. split; [reflexivity|]. split; [lia|].
  split; [exact Z1|]. split; [exact Z2 | reflexivity].
Qed.

Lemma new_race_accounts_witness :
  ownNames (cars (game shortRace))
  /\ currentStageIndex (game shortRace) = 0%nat
  /\ match runRace (replay []) (clockEvery 50) pow_1_5 5 shortRace with
     | Some (w', result) =>
         totalWins (leaderboard (game w')) = 2%Z
         /\ RaceResult.stages result = stageResults (game w')
     | None => False
     end.
Proof.
  split; [reflexivity|]. split; [reflexivity|].
  destruct (runRace (replay []) (clockEvery 50) pow_1_5 5 shortRace)
    as [[w' result]|] eqn:E; [|vm_compute in E; discriminate E].
  destruct (new_race_accounts (replay []) (clockEvery 50) pow_1_5 5
              shortRace w' result eq_refl eq_refl E)
    as (_ & _ & T & _ & _ & R).
  split; [exact T | now rewrite R].
Defined.

(** X8.  [runRace] on a game whose cursor, other than 0, is at or past the
    end of the stages simulates nothing, whatever the bound on ticks: it
    plays the race-win sound, requests the champion commentary and reports
    the overall winner, leaderboard and records the game already holds,
    which it leaves as they are.  (This is the state a completed race is
    left in, so a second [runRace] repeats the summary.) *)
Theorem race_past_the_end_is_only_summarised
  (Math_random performance_now : nat -> Q) (Math_pow : Q -> Q -> Q)
  (fuel : nat) (w : World) :
  currentStageIndex (game w) <> 0%nat ->
  (List.length (stages (game w)) <= currentStageIndex (game w))%nat ->
  exists w',
    runRace Math_random performance_now Math_pow fuel w
    = Some (w', RaceResult.mk (getOverallWinner (game w))
                  (leaderboard (game w)) (stageResults (game w)))
    /\ sameRace w w'
    /\ leaderboard (game w') = leaderboard (game w)
    /\ randomCalls w' = randomCalls w
    /\ trace w'
       = trace w ++ PlayRaceWin
         :: (if cooldownOver (performance_now (clockCalls w))
                  (lastCommentaryTime (game w))
             then [GenerateCommentary (Champion (getOverallWinner (game w)))]
             else []).
Proof.
  intros H0 Hlen. unfold runRace.
  assert (Nat.eqb (currentStageIndex (game w)) 0 = false) as ->
    by now apply Nat.eqb_neq.
  rewrite skipn_all2 by exact Hlen. cbn [runStages].
  set (wf := tryGenerateCommentary performance_now
               (Champion (getOverallWinner (game w))) (emit PlayRaceWin w)).
  pose proof (tryGen_sameRace performance_now
                (Champion (getOverallWinner (game w))) (emit PlayRaceWin w))
    as S.
  pose proof (tryGen_leaderboard performance_now
                (Champion (getOverallWinner (game w))) (emit PlayRaceWin w))
    as L.
  pose proof (tryGen_randomCalls performance_now
                (Champion (getOverallWinner (game w))) (emit PlayRaceWin w))
    as R.
  pose proof (tryGen_trace performance_now
                (Champion (getOverallWinner (game w))) (emit PlayRaceWin w))
    as T.
  fold wf in S, L, R, T. cbn [emit game clockCalls trace randomCalls] in *.
  exists wf. destruct S as (S1 & S2 & S3 & S4 & S5 & S6).
  split; [now rewrite L, S5|].
  split; [repeat split; assumption|].
  split; [exact L|]. split; [exact R|].
  rewrite T, <- app_assoc. reflexivity.
Qed.

Lemma race_past_the_end_is_only_summarised_witness :
  currentStageIndex midRace <> 0%nat
  /\ exists w',
       runRace (replay []) (clockEvery 50) pow_1_5 0
         (freshWorld (with_currentStageIndex 2 midRace))
       = Some (w', RaceResult.mk "Eagle"
                     [("Eagle"%string, 1%Z); ("Viper"%string, 0%Z)]
                     (stageResults midRace)).
Proof.
  split; [intros X; discriminate X|].
  destruct (race_past_the_end_is_only_summarised (replay []) (clockEvery 50)
              pow_1_5 0 (freshWorld (with_currentStageIndex 2 midRace)))
    as (w' & H & _).
  - intros X; discriminate X.
  - cbn. lia.
  - exists w'. exact H.
Defined.

(** ** The race history *)

(** X9.  [updateRaceHistory] puts the new result first and keeps at most
    five results: on a history of at most five results, the new history is
    the first five of the new result followed by the old ones. *)
Theorem race_history_keeps_five (result : RaceResult.t)
  (raceHistory : list RaceResult.t) :
  (List.length raceHistory <= 5)%nat ->
  updateRaceHistory result raceHistory = firstn 5 (result :: raceHistory)
  /\ (List.length (updateRaceHistory result raceHistory) <= 5)%nat
  /\ hd_error (updateRaceHistory result raceHistory) = Some result.
Proof.
  intros H. unfold updateRaceHistory. cbv zeta.
  destruct raceHistory as [|a [|b [|c [|d [|e [|f t]]]]]];
    try (cbn in H; lia); cbn; repeat split; lia.
Qed.

Lemma race_history_keeps_five_witness :
  List.length
    (updateRaceHistory (RaceResult.mk "A" [] [])
       (repeat (RaceResult.mk "B" [] []) 5)) = 5%nat.
Proof.
  pose proof (race_history_keeps_five (RaceResult.mk "A" [] [])
                (repeat (RaceResult.mk "B" [] []) 5) (le_n 5)) as (H & _).
  rewrite H. reflexivity.
Defined.

(** ** The race summary *)

(** X10.  The rows of the race summary are the entries of the leaderboard,
    each once, by descending number of wins; when the counts are not
    negative, the name in the first row is one of the names
    [getOverallWinner] designates. *)
Theorem summary_rows_are_ranked (result : RaceResult.t) :
  Permutation (RaceResult.leaderboard result) (summaryRows result)
  /\ Sorted (fun a b => (snd b <= snd a)%Z) (summaryRows result)
  /\ ((forall k v, In (k, v) (RaceResult.leaderboard result) -> (0 <= v)%Z) ->
      forall name wins rest,
        summaryRows result = (name, wins) :: rest ->
        In name (snd (overallWinners (RaceResult.leaderboard result)))).
Proof.
  set (lb := RaceResult.leaderboard result). unfold summaryRows. fold lb.
  set (cmp := fun a b : string * Z => inject_Z (snd b) - inject_Z (snd a)).
  set (key := fun a : string * Z => - inject_Z (snd a)).
  assert (forall a b, cmp a b <= 0 <-> key a <= key b) as Hck.
  { intros a b. unfold cmp, key.
    generalize (inject_Z (snd a)) (inject_Z (snd b)). intros x y.
    split; intros H; lra. }
  assert (forall a b : string * Z, key a <= key b -> (snd b <= snd a)%Z) as Hk.
  { intros a b. unfold key. rewrite Zle_Qle.
    generalize (inject_Z (snd a)) (inject_Z (snd b)). intros x y H. lra. }
  split; [apply sort_perm|]. split.
  - eapply Sorted_weaken; [exact Hk|]. now apply sort_sorted.
  - intros Hpos name wins rest E.
    assert (In (name, wins) lb) as Hin.
    { apply Permutation_in with (l := Js.sort cmp lb);
        [symmetry; apply sort_perm | rewrite E; now left]. }
    assert (forall k v, In (k, v) lb -> (v <= wins)%Z) as Hmax.
    { intros k v Hkv.
      apply (Hk (name, wins) (k, v)).
      apply (sort_head cmp key Hck lb (name, wins) rest E). exact Hkv. }
    destruct (overallWinners_spec lb) as (H1 & H2 & H3 & H4).
    cbv zeta in H1, H2, H3, H4. rewrite H4.
    set (m := fst (overallWinners lb)) in *.
    assert (wins = m) as ->.
    { pose proof (H2 _ _ Hin). pose proof (Hpos _ _ Hin).
      destruct H3 as [H3|[k H3]]; [lia|]. specialize (Hmax _ _ H3). lia. }
    apply in_map_iff. exists (name, m). split; [reflexivity|].
    apply filter_In. split; [exact Hin|]. unfold winsAre. apply Z.eqb_refl.
Qed.

(** ** A race that has not started *)

Lemma zeroed_distinct (cs : list Car.t) (lb : Dict.t Z) :
  NoDup (Dict.keys lb ++ map Car.name cs) ->
  fold_left (fun lb car => Dict.set (Car.name car) 0%Z lb) cs lb
  = lb ++ map (fun c => (Car.name c, 0%Z)) cs.
Proof.
  revert lb. induction cs as [|c cs IH]; intros lb Hnd; cbn [fold_left map].
  - now rewrite app_nil_r.
  - assert (Dict.set (Car.name c) 0%Z lb = lb ++ [(Car.name c, 0%Z)]) as E.
    { apply NoDup_remove_2 in Hnd.
      assert (~ In (Car.name c) (Dict.keys lb)) as Hn
        by (intros X; apply Hnd; apply in_app_iff; now left).
      clear - Hn. induction lb as [|[k v] lb IH]; [reflexivity|].
      simpl in *. destruct (String.eqb (Car.name c) k) eqn:E.
      - apply String.eqb_eq in E. subst. tauto.
      - rewrite IH by tauto. reflexivity. }
    rewrite E, IH.
    + now rewrite <- app_assoc.
    + unfold Dict.keys in *. rewrite map_app, <- app_assoc. exact Hnd.
Qed.

(** X11.  Before any stage is won all cars are tied: for a roster with
    distinct names, none of them ["__proto__"] or a numeral,
    [getOverallWinner] on a new game is the list of all the car names, in
    roster order, joined by [" & "] (the empty string for an empty
    roster). *)
Theorem new_game_ties_all_cars (cs : list Car.t) (stages : list Stage.t) :
  NoDup (map Car.name cs) ->
  ownNames cs -> namesInOrder cs ->
  leaderboard (newRacingGame cs stages) = map (fun c => (Car.name c, 0%Z)) cs
  /\ getOverallWinner (newRacingGame cs stages)
     = Js.join " & " (map Car.name cs).
Proof.
  intros Hnd _ _.
  assert (leaderboard (newRacingGame cs stages)
          = map (fun c => (Car.name c, 0%Z)) cs) as E.
  { cbn [newRacingGame resetForNewRace leaderboard cars].
    now rewrite zeroed_distinct. }
  split; [exact E|]. unfold getOverallWinner. rewrite E. f_equal.
  set (lb := map (fun c => (Car.name c, 0%Z)) cs).
  destruct (overallWinners_spec lb) as (H1 & H2 & H3 & H4).
  cbv zeta in H1, H2, H3, H4. rewrite H4.
  set (m := fst (overallWinners lb)) in *.
  assert (forall e, In e lb -> snd e = 0%Z) as Hz.
  { intros e He. unfold lb in He. apply in_map_iff in He.
    destruct He as (c & <- & _). reflexivity. }
  destruct cs as [|c cs]; [reflexivity|].
  assert (m = 0%Z) as ->.
  { assert (0 <= m)%Z by (apply (H2 (Car.name c)); now left).
    destruct H3 as [H3|[k H3]]; [lia|]. apply (Hz _ H3). }
  clear - Hz. unfold lb in *.
  induction (c :: cs) as [|a l IH]; [reflexivity|].
  cbn [map filter]. unfold winsAre at 1. cbn [snd Z.eqb map fst].
  f_equal. apply IH. intros e He. apply Hz. now right.
Qed.

Lemma new_game_ties_all_cars_witness :
  getOverallWinner (initializeGame "easy") = "Eagle & Viper & Shadow & Bolt"%string.
Proof.
  refine (proj2 (new_game_ties_all_cars
                   [ Car.new "Eagle" 220 8 "#3498db";
                     Car.new "Viper" 210 9 "#e74c3c";
                     Car.new "Shadow" 230 7 "#333";
                     Car.new "Bolt" 215 8.5 "#f1c40f" ]
                   [ Stage.mk "Urban Sprint" 1000 3 ] _ eq_refl eq_refl)).
  simpl. repeat constructor; simpl; intuition discriminate.
Defined.

(** ** What [updateAllVisuals] shows *)

(** X12.  A car inside the lap is drawn inside the track: its offset is at
    least 0 and less than the room the track leaves, [containerWidth -
    carWidth], when the car is narrower than the track. *)
Theorem car_is_drawn_inside_the_track (stage : Stage.t)
  (containerWidth carWidth : Q) (car : Car.t) :
  onTrack stage car ->
  carWidth < containerWidth ->
  0 <= carOffset stage containerWidth carWidth car
       < containerWidth - carWidth.
Proof.
  intros [Hp0 Hp1] Hw. unfold carOffset.
  assert (0 < Stage.length stage) as HL by lra.
  assert (0 <= Car.position car / Stage.length stage) as Hq0
    by (apply Qle_shift_div_l; lra).
  assert (Car.position car / Stage.length stage < 1) as Hq1
    by (apply Qlt_shift_div_r; lra).
  set (q := Car.position car / Stage.length stage) in *.
  split.
  - apply Qmult_le_0_compat; lra.
  - assert (0 < (1 - q) * (containerWidth - carWidth))
      by (apply Qmult_lt_0_compat; lra).
    lra.
Qed.

Lemma car_is_drawn_inside_the_track_witness :
  0 <= carOffset urbanSprint 800 120 (Car.mk "Eagle" 220 8 "#3498db" 250 1 0 100)
       < 800 - 120.
Proof.
  apply car_is_drawn_inside_the_track.
  - split; [intros X; discriminate X | reflexivity].
  - reflexivity.
Defined.

Lemma raceCars_no_report
  (Math_random performance_now : nat -> Q) (Math_pow : Q -> Q -> Q)
  (stage : Stage.t) (i : nat) (cs : list Car.t) (st : Loop) (k : string) :
  (forall c, In c cs -> Car.name c = k -> finished stage c = true) ->
  Dict.get k (distanceIncrements
                (snd (raceCars Math_random performance_now Math_pow stage
                        i cs st)))
  = Dict.get k (distanceIncrements st).
Proof.
  revert i st. induction cs as [|car rest IH]; intros i st Hk; auto.
  rewrite raceCars_cons. cbn [snd].
  rewrite IH by (intros c Hc; apply Hk; now right).
  destruct (finished stage car) eqn:Hc.
  - now rewrite raceCar_finished by auto.
  - rewrite raceCar_active by auto. cbn [snd distanceIncrements].
    apply get_set_other. intros ->.
    rewrite (Hk car) in Hc; [discriminate | now left | reflexivity].
Qed.

(** X13.  The particles of a tick: the loop of [updateAllVisuals] pushes at
    most five particles for a car, and none for a car that had finished the
    stage before the tick (names being distinct): such a car has no entry in
    the tick's [distanceIncrements]. *)
Theorem finished_car_raises_no_dust
  (Math_random performance_now : nat -> Q) (Math_pow : Q -> Q -> Q)
  (stage : Stage.t) (win : option nat) (w : World) (j : nat) (car : Car.t) :
  NoDup (map Car.name (cars (game w))) ->
  nth_error (cars (game w)) j = Some car ->
  let incs := distanceIncrements
                (afterCars Math_random performance_now Math_pow stage win w) in
  (forall c, (particlesPushed incs c <= 5)%nat)
  /\ (finished stage car = true ->
      Dict.get (Car.name car) incs = None /\ particlesPushed incs car = 0%nat).
Proof.
  intros Hnd Hj. cbv zeta. split.
  - intros c. unfold particlesPushed, numNewParticles. lia.
  - intros Hf. rewrite afterCars_eq. cbn [distanceIncrements].
    assert (Dict.get (Car.name car)
              (distanceIncrements
                 (snd (raceCars Math_random performance_now Math_pow stage 0
                         (cars (game w)) (mkLoop win [] w)))) = None) as E.
    { rewrite raceCars_no_report; [reflexivity|].
      intros c Hc Hn. apply In_nth_error in Hc. destruct Hc as [i Hi].
      assert (i = j) as ->; [|congruence].
      apply (proj1 (NoDup_nth_error (map Car.name (cars (game w)))) Hnd).
      - rewrite length_map. apply nth_error_Some. congruence.
      - rewrite !nth_error_map, Hi, Hj. cbn. congruence. }
    split; [exact E|].
    unfold particlesPushed, numNewParticles, incrementOf. rewrite E.
    reflexivity.
Qed.

Lemma finished_car_raises_no_dust_witness :
  forallb
    (fun c => Nat.leb
                (particlesPushed
                   (distanceIncrements
                      (afterCars (replay []) (clockEvery 50) pow_1_5
                         urbanSprint None easyWorld)) c) 5)
    (cars (game easyWorld)) = true.
Proof.
  apply forallb_forall. intros c _. apply Nat.leb_le.
  apply (proj1 (finished_car_raises_no_dust (replay []) (clockEvery 50)
                  pow_1_5 urbanSprint None easyWorld 0
                  (Car.new "Eagle" 220 8 "#3498db")
                  ltac:(simpl; repeat constructor; simpl; intuition discriminate)
                  eq_refl)).
Defined.

(** ** The service worker *)

Section WorkerFacts.

Import ServiceWorker.

Variable Response : Type.

Local Abbreviation current :=
  (fun e : string * Cache Response => String.eqb (fst e) CACHE_NAME).

Lemma delete_skips (names : list string) (n : string) (c : Cache Response)
  (rest : CacheStorage Response) :
  (forall x, In x names -> x <> n) ->
  fold_left (fun cs name => delete Response name cs) names ((n, c) :: rest)
  = (n, c) :: fold_left (fun cs name => delete Response name cs) names rest.
Proof.
  revert rest. induction names as [|x names IH]; intros rest H; [reflexivity|].
  cbn [fold_left delete].
  assert (String.eqb x n = false) as ->
    by (apply String.eqb_neq; apply H; now left).
  apply IH. intros y Hy. apply H. now right.
Qed.

Lemma activate_filter (caches : CacheStorage Response) :
  activate Response caches = filter current caches.
Proof.
  unfold activate. induction caches as [|[n c] rest IH]; [reflexivity|].
  cbn [Dict.keys map fst filter].
  destruct (String.eqb n CACHE_NAME) eqn:E; cbn [negb].
  - rewrite delete_skips.
    + f_equal. exact IH.
    + intros x Hx. apply filter_In in Hx. destruct Hx as [_ Hx].
      apply negb_true_iff, String.eqb_neq in Hx.
      apply String.eqb_eq in E. congruence.
  - cbn [fold_left delete]. rewrite String.eqb_refl. exact IH.
Qed.

Lemma get_filter_current (caches : CacheStorage Response) (name : string) :
  Dict.get name (filter current caches)
  = if String.eqb name CACHE_NAME then Dict.get name caches else None.
Proof.
  induction caches as [|[n c] rest IH]; cbn [filter Dict.get fst].
  - now destruct (String.eqb name CACHE_NAME).
  - destruct (String.eqb n CACHE_NAME) eqn:E; cbn [Dict.get].
    + destruct (String.eqb name n) eqn:E2; [|exact IH].
      apply String.eqb_eq in E2. subst. now rewrite E.
    + rewrite IH. destruct (String.eqb name CACHE_NAME) eqn:E3; [|reflexivity].
      destruct (String.eqb name n) eqn:E2; [|reflexivity].
      apply String.eqb_eq in E2, E3. subst. rewrite String.eqb_refl in E.
      discriminate.
Qed.

(** X14.  The [activate] handler keeps the caches named [CACHE_NAME], as
    they are, and nothing else: every cache of another name is gone, and
    activating again changes nothing. *)
Theorem activate_keeps_only_the_current_cache
  (caches : CacheStorage Response) :
  activate Response caches = filter current caches
  /\ Dict.get CACHE_NAME (activate Response caches)
     = Dict.get CACHE_NAME caches
  /\ (forall name, name <> CACHE_NAME ->
                   Dict.get name (activate Response caches) = None)
  /\ activate Response (activate Response caches) = activate Response caches.
Proof.
  rewrite !activate_filter. split; [reflexivity|]. split; [|split].
  - rewrite get_filter_current. now rewrite String.eqb_refl.
  - intros name Hn. rewrite get_filter_current.
    apply String.eqb_neq in Hn. now rewrite Hn.
  - induction caches as [|e rest IH]; [reflexivity|].
    cbn [filter]. destruct (current e) eqn:E; [|exact IH].
    cbn [filter]. rewrite E. now rewrite IH.
Qed.

Lemma fetchAll_keys (network : string -> option Response)
  (urls : list string) (rs : list (string * Response)) :
  fetchAll Response network urls = Some rs -> map fst rs = urls.
Proof.
  revert rs. induction urls as [|u urls IH]; intros rs H; cbn [fetchAll] in H.
  - now injection H as <-.
  - destruct (network u) as [r|]; [|discriminate].
    destruct (fetchAll Response network urls) as [rs0|]; [|discriminate].
    injection H as <-. cbn. f_equal. now apply IH.
Qed.

Lemma fold_set_other (u : string) (rs : list (string * Response))
  (c : Cache Response) :
  ~ In u (map fst rs) ->
  Dict.get u (fold_left (fun c ur => Dict.set (fst ur) (snd ur) c) rs c)
  = Dict.get u c.
Proof.
  revert c. induction rs as [|[k r] rs IH]; intros c H; [reflexivity|].
  cbn [fold_left fst snd]. rewrite IH by (intros X; apply H; now right).
  apply get_set_other. intros ->. apply H. now left.
Qed.

Lemma fetchAll_get (network : string -> option Response)
  (urls : list string) (rs : list (string * Response)) (c : Cache Response)
  (u : string) :
  fetchAll Response network urls = Some rs -> In u urls ->
  network u <> None
  /\ Dict.get u (fold_left (fun c ur => Dict.set (fst ur) (snd ur) c) rs c)
     = network u.
Proof.
  revert rs c. induction urls as [|u0 urls IH]; intros rs c H Hin;
    [contradiction|].
  cbn [fetchAll] in H.
  destruct (network u0) as [r0|] eqn:E0; [|discriminate].
  destruct (fetchAll Response network urls) as [rs0|] eqn:E; [|discriminate].
  injection H as <-. cbn [fold_left fst snd].
  destruct (in_dec string_dec u urls) as [Hu|Hu].
  - now apply IH.
  - destruct Hin as [->|Hin]; [|contradiction].
    rewrite fold_set_other by (rewrite (fetchAll_keys _ _ _ E); exact Hu).
    rewrite get_set_same, E0. split; [discriminate | reflexivity].
Qed.

Lemma filter_set_current (cache : Cache Response)
  (caches : CacheStorage Response) :
  exists rest,
    filter current (Dict.set CACHE_NAME cache caches)
    = (CACHE_NAME, cache) :: rest.
Proof.
  induction caches as [|[n c] caches [rest IH]]; cbn [Dict.set].
  - exists []. cbn [filter fst]. now rewrite String.eqb_refl.
  - destruct (String.eqb CACHE_NAME n) eqn:E.
    + apply String.eqb_eq in E. subst n. cbn [filter fst].
      rewrite String.eqb_refl. eauto.
    + cbn [filter fst]. rewrite String.eqb_sym, E. eauto.
Qed.

(** X15.  Once the [install] handler has succeeded and [activate] has run,
    every URL of [URLS_TO_CACHE] is answered by the [fetch] handler with the
    response fetched at installation, whatever the network does then (also
    when it fails). *)
Theorem app_shell_is_served_offline
  (network network' : string -> option Response)
  (caches caches' : CacheStorage Response) (url : string) :
  install Response network caches = Some caches' ->
  In url URLS_TO_CACHE ->
  network url <> None
  /\ respondWith Response network' (activate Response caches') url
     = network url.
Proof.
  unfold install, addAll. intros H Hin.
  destruct (fetchAll Response network URLS_TO_CACHE) as [rs|] eqn:E;
    [|discriminate].
  injection H as <-.
  match goal with |- context [fold_left ?f rs ?c] =>
    destruct (fetchAll_get network URLS_TO_CACHE rs c url E Hin) as [Hn Hg];
    destruct (filter_set_current (fold_left f rs c) caches) as [rest Hf]
  end.
  split; [exact Hn|].
  rewrite activate_filter, Hf. unfold respondWith. cbn [matchAny].
  rewrite Hg. destruct (network url); [reflexivity | congruence].
Qed.

End WorkerFacts.

Lemma app_shell_is_served_offline_witness :
  ServiceWorker.respondWith string (fun _ => None)
    (ServiceWorker.activate string
       (match ServiceWorker.install string (fun u => Some u)
                [("js-grand-prix-v1"%string, [("/"%string, "old"%string)])]
        with Some cs => cs | None => [] end))
    "/index.css"%string
  = Some "/index.css"%string.
Proof.
  refine (proj2 (app_shell_is_served_offline string (fun u => Some u)
                   (fun _ => None)
                   [("js-grand-prix-v1"%string, [("/"%string, "old"%string)])]
                   _ "/index.css"%string eq_refl _)).
  simpl. tauto.
Defined.

(** ** The presets *)

(** X16.  Whatever the difficulty, [initializeGame] builds a game the engine
    can run: four cars with distinct names, handling within 0 and 10 and a
    positive speed, in their reset state; at least one stage, each of
    positive length and at least one lap; a leaderboard with 0 wins for each
    car; no results and the cursor at 0.  A difficulty that is neither
    ["easy"] nor ["medium"] gives the hard preset. *)
Theorem presets_can_be_raced (difficulty : string) :
  let g := initializeGame difficulty in
  List.length (cars g) = 4%nat
  /\ NoDup (map Car.name (cars g))
  /\ Forall (fun c => 0 <= Car.handling c <= 10 /\ 0 < Car.speed c
                      /\ c = Car.reset c) (cars g)
  /\ stages g <> []
  /\ Forall (fun s => 0 < Stage.length s /\ (1 <= Stage.laps s)%Z) (stages g)
  /\ leaderboard g = map (fun c => (Car.name c, 0%Z)) (cars g)
  /\ stageResults g = [] /\ currentStageIndex g = 0%nat
  /\ (difficulty <> "easy"%string -> difficulty <> "medium"%string ->
      g = initializeGame "hard").
Proof.
  cbv zeta. unfold initializeGame.
  destruct (String.eqb difficulty "easy") eqn:E1;
    [|destruct (String.eqb difficulty "medium") eqn:E2].
  all: split; [reflexivity|].
  all: split; [simpl; repeat constructor; simpl; intuition discriminate|].
  all: split; [repeat constructor; cbn; lra|].
  all: split; [discriminate|].
  all: split; [repeat constructor; cbn; lia|].
  all: split; [reflexivity|].
  all: split; [reflexivity|].
  all: split; [reflexivity|].
  - apply String.eqb_eq in E1. intros H. contradiction.
  - apply String.eqb_eq in E2. intros _ H. contradiction.
  - reflexivity.
Qed.

(** ** A wrecked car *)

(** X17.  A car at full damage goes nowhere, when [Math.pow] of 0 is 0: its
    distance increment is 0 whatever the random draw, so its position and
    lap stay as they are, and its damage stays at 100 (for a handling of at
    most 15 and a speed that is not negative). *)
Theorem wrecked_car_stands_still (pow : Q -> Q -> Q) (stage : Stage.t)
  (r : Q) (c : Car.t) :
  (forall x, x == 0 -> pow x 1.5 == 0) ->
  Car.damage c == 100 ->
  Car.handling c <= 15 -> 0 <= Car.speed c ->
  Car.position c < Stage.length stage ->
  snd (physics pow r c) == 0
  /\ Car.position (advance pow stage r c) == Car.position c
  /\ Car.currentLap (advance pow stage r c) = Car.currentLap c
  /\ Car.damage (advance pow stage r c) == 100.
Proof.
  intros Hpow Hd Hh Hs Hp.
  assert (snd (physics pow r c) == 0) as Hinc.
  { unfold physics. cbn [snd].
    rewrite (Hpow (1 - Car.damage c / 100)); [ring|].
    rewrite Hd. reflexivity. }
  assert (Car.position (fst (physics pow r c))
          = Car.position c + snd (physics pow r c)) as Epos by reflexivity.
  assert (Js.geb (Car.position (fst (physics pow r c))) (Stage.length stage)
          = false) as Hgeb.
  { unfold Js.geb. destruct (Qle_bool _ _) eqn:E; [|reflexivity].
    apply Qle_bool_iff in E. rewrite Epos, Hinc in E. lra. }
  split; [exact Hinc|]. unfold advance. rewrite Hgeb.
  split; [rewrite Epos, Hinc; ring|]. split; [reflexivity|].
  change (Car.damage (fst (physics pow r c))) with (Spec.newDamage r c).
  unfold Spec.newDamage, Spec.speedInMps.
  set (hf := Qabs (Spec.handlingFactor r c)).
  assert (0 <= hf) as Hhf by apply Qabs_nonneg.
  assert (0 <= Car.speed c / 3.6) as Hv
    by (apply Qle_shift_div_l; [reflexivity | lra]).
  set (v := Car.speed c / 3.6) in *.
  assert (0 <= v / 70) as Hv70 by (apply Qle_shift_div_l; [reflexivity | lra]).
  assert (0 <= hf * (15 - Car.handling c) * 0.08 * (1 + v / 70)) as HT
    by (repeat apply Qmult_le_0_compat; lra).
  apply Q.min_l. lra.
Qed.

Lemma pow_1_5_zero (x : Q) : x == 0 -> pow_1_5 x 1.5 == 0.
Proof.
  intros H. unfold pow_1_5.
  transitivity (0 * sqrt6 x); [|ring].
  apply Qmult_comp; [exact H | reflexivity].
Qed.

Lemma wrecked_car_stands_still_witness :
  Car.position
    (advance pow_1_5 urbanSprint 0.9
       (Car.mk "Shadow" 230 7 "#333" 400 2 100 35))
  == 400.
Proof.
  refine (proj1 (proj2 (wrecked_car_stands_still pow_1_5 urbanSprint 0.9
                          (Car.mk "Shadow" 230 7 "#333" 400 2 100 35)
                          pow_1_5_zero _ _ _ _))).
  - reflexivity.
  - intros X; discriminate X.
  - intros X; discriminate X.
  - reflexivity.
Defined.

(** ** The sounds of a stage *)

Lemma playsStageWin_refl (w : World) : playsStageWin 0 w w.
Proof. exists []. now rewrite app_nil_r. Qed.

Lemma playsStageWin_trans (a b : nat) (w1 w2 w3 : World) :
  playsStageWin a w1 w2 -> playsStageWin b w2 w3 ->
  playsStageWin (a + b) w1 w3.
Proof.
  intros (e1 & E1 & C1 & F1) (e2 & E2 & C2 & F2). exists (e1 ++ e2).
  rewrite E2, E1, <- app_assoc, filter_app, length_app, forallb_app, C1, C2,
    F1, F2.
  auto.
Qed.

Lemma playsStageWin_tryGen (performance_now : nat -> Q) (p : Prompt)
  (w : World) :
  playsStageWin 0 w (tryGenerateCommentary performance_now p w).
Proof.
  eexists. split; [apply tryGen_trace|]. now destruct (cooldownOver _ _).
Qed.

Section Sounds.

Variable Math_random : nat -> Q.
Variable performance_now : nat -> Q.
Variable Math_pow : Q -> Q -> Q.
Variable stage : Stage.t.

Local Abbreviation raceCars' :=
  (raceCars Math_random performance_now Math_pow stage).
Local Abbreviation tick' := (tick Math_random performance_now Math_pow stage).
Local Abbreviation ticks' n :=
  (ticks Math_random performance_now Math_pow n stage).
Local Abbreviation start := (startStage performance_now stage).

Lemma bodyWorld_sounds (i : nat) (car : Car.t) (st : Loop) :
  finished stage car = false ->
  playsStageWin
    (newWinner (winner st)
       (if finished stage
             (advance Math_pow stage
                (Math_random (randomCalls (world st))) car)
           && negb (Js.truthy (winner st))
        then Some i else winner st))
    (world st)
    (bodyWorld Math_random performance_now Math_pow stage i car st).
Proof.
  intros Hc. unfold bodyWorld.
  set (r := Math_random (randomCalls (world st))).
  destruct (Js.geb _ _) eqn:El.
  - destruct (finished stage (advance Math_pow stage r car)
              && negb (Js.truthy (winner st))) eqn:Ew.
    + apply andb_true_iff in Ew. destruct Ew as [_ Ew].
      destruct (winner st); [discriminate|]. cbn [newWinner].
      change 1%nat with (1 + 0)%nat.
      eapply playsStageWin_trans; [|apply playsStageWin_tryGen].
      exists [PlayLapCompletion; PlayStageWin]. cbn [emit onGame trace].
      rewrite <- app_assoc. repeat split.
    + replace (newWinner (winner st) (winner st)) with 0%nat
        by (now destruct (winner st)).
      exists [PlayLapCompletion]. repeat split.
  - assert (finished stage (advance Math_pow stage r car) = false) as Ef.
    { destruct (finished stage (advance Math_pow stage r car)) eqn:Ef; auto.
      apply advance_finished_lapped in Ef; auto. rewrite El in Ef.
      discriminate Ef. }
    rewrite Ef. cbn [andb].
    replace (newWinner (winner st) (winner st)) with 0%nat
      by (now destruct (winner st)).
    exists []. cbn [trace]. now rewrite app_nil_r.
Qed.

Lemma raceCars_sounds (i : nat) (cs : list Car.t) (st : Loop) :
  playsStageWin (newWinner (winner st) (winner (snd (raceCars' i cs st))))
    (world st) (world (snd (raceCars' i cs st))).
Proof.
  revert i st. induction cs as [|car rest IH]; intros i st.
  - cbn [raceCars snd].
    replace (newWinner (winner st) (winner st)) with 0%nat
      by (now destruct (winner st)).
    apply playsStageWin_refl.
  - rewrite raceCars_cons. cbn [snd].
    destruct (finished stage car) eqn:Hc.
    + rewrite raceCar_finished by auto. apply IH.
    + rewrite raceCar_active by auto. cbn [snd].
      set (st1 := mkLoop _ _ _).
      pose proof (playsStageWin_trans _ _ _ _ _
                    (bodyWorld_sounds i car st Hc) (IH (S i) st1)) as H.
      match goal with |- playsStageWin ?k _ _ =>
        match type of H with playsStageWin ?k' _ _ =>
          replace k with k'; [exact H|] end end.
      change (if finished stage
                   (advance Math_pow stage
                      (Math_random (randomCalls (world st))) car)
                 && negb (Js.truthy (winner st))
              then Some i else winner st) with (winner st1).
      destruct (winner st1) as [x|] eqn:E1.
      * destruct (raceCars_won Math_random performance_now Math_pow stage
                    (S i) rest st1 x E1) as [-> _].
        destruct (winner st); reflexivity.
      * assert (winner st = None) as ->.
        { unfold st1 in E1. cbn [winner] in E1.
          destruct (winner st); [|reflexivity].
          now destruct (_ && _). }
        reflexivity.
Qed.

Lemma tick_sounds (win : option nat) (w : World) :
  playsStageWin (newWinner win (fst (tick' win w))) w (snd (tick' win w)).
Proof.
  pose proof (raceCars_sounds 0 (cars (game w)) (mkLoop win [] w)) as H.
  cbn [winner world] in H. rewrite tick_winner.
  set (n := newWinner win _) in *.
  replace n with (n + 0)%nat by lia.
  eapply playsStageWin_trans; [exact H|].
  rewrite tick_eq. cbn [snd].
  match goal with |- playsStageWin 0 ?a ?b =>
    assert (exists evs, trace b = trace a ++ evs
                        /\ filter isStageWin evs = []
                        /\ forallb (fun e => negb (isEngineHum e)) evs = true)
      as (evs & E1 & E2 & E3)
  end.
  { eexists. split.
    - destruct (Js.truthy _); cbn [onGame emit trace];
        rewrite detect_trace, afterCars_eq; cbn [world onGame trace];
        rewrite <- app_assoc; reflexivity.
    - destruct (overtakes _ _) as [[c p]|]; [|now split].
      destruct (cooldownOver _ _); now split. }
  exists evs. rewrite E2. auto.
Qed.

Lemma ticks_sounds (w : World) (n : nat) :
  playsStageWin (newWinner None (fst (ticks' n (None, start w))))
    (start w) (snd (ticks' n (None, start w))).
Proof.
  induction n as [|n IH]; [apply playsStageWin_refl|].
  rewrite ticks_S.
  pose proof (tick_sounds (fst (ticks' n (None, start w)))
                (snd (ticks' n (None, start w)))) as H.
  pose proof (playsStageWin_trans _ _ _ _ _ IH H) as HH.
  match type of HH with playsStageWin ?k _ _ =>
    match goal with |- playsStageWin ?k' _ _ =>
      replace k' with k; [exact HH|] end end.
  destruct (fst (ticks' n (None, start w))) as [x|] eqn:E.
  - rewrite tick_winner.
    destruct (raceCars_won Math_random performance_now Math_pow stage 0
                (cars (game (snd (ticks' n (None, start w)))))
                (mkLoop (Some x) [] (snd (ticks' n (None, start w)))) x
                eq_refl) as [-> _].
    reflexivity.
  - reflexivity.
Qed.

End Sounds.

(** X18.  The sounds of a stage that completes: after the optional start
    commentary come the countdown and the start of the engine hum; then the
    stage-win jingle is played exactly once and the hum is left running,
    until the stage ends by stopping it. *)
Theorem stage_win_is_played_once
  (Math_random performance_now : nat -> Q) (Math_pow : Q -> Q -> Q)
  (fuel : nat) (stage : Stage.t) (w w' : World) :
  simulateStage Math_random performance_now Math_pow fuel stage w = Some w' ->
  exists evs,
    trace w'
    = trace w
      ++ (if cooldownOver (performance_now (clockCalls w))
               (lastCommentaryTime (game w))
          then [GenerateCommentary (StageStarting (Stage.name stage))]
          else [])
      ++ [PlayRaceStartCountdown; StartEngineHum] ++ evs ++ [StopEngineHum]
    /\ List.length (filter isStageWin evs) = 1%nat
    /\ forallb (fun e => negb (isEngineHum e)) evs = true.
Proof.
  intros H.
  destruct (completed_stage Math_random performance_now Math_pow stage
              fuel w w' H) as (m & i & _ & _ & Hi & -> & _).
  destruct (ticks_sounds Math_random performance_now Math_pow stage w (S m))
    as (evs & E & C & F).
  rewrite Hi in C. cbn [newWinner] in C.
  exists evs. split; [|split; [exact C | exact F]].
  cbn [finishStage onGame emit trace]. rewrite E.
  unfold startStage. cbn [emit trace].
  rewrite tryGen_trace. cbn [onGame game clockCalls trace lastCommentaryTime
                               with_previousLeader with_isFinished with_cars].
  rewrite <- !app_assoc. reflexivity.
Qed.

Lemma stage_win_is_played_once_witness :
  match simulateStage (replay []) (clockEvery 50) pow_1_5 5 dragStrip
          easyWorld with
  | Some w' => List.length (filter isStageWin (trace w')) = 1%nat
  | None => False
  end.
Proof.
  destruct (simulateStage (replay []) (clockEvery 50) pow_1_5 5 dragStrip
              easyWorld) as [w'|] eqn:E; [|vm_compute in E; discriminate E].
  destruct (stage_win_is_played_once (replay []) (clockEvery 50) pow_1_5 5
              dragStrip easyWorld w' E) as (evs & T & C & _).
  rewrite T, !filter_app, !length_app, C.
  destruct (cooldownOver _ _); reflexivity.
Defined.

(** ** The recorded standings *)

Lemma toFixed1_near (x : Q) :
  0 <= x ->
  - (1 # 20) < Js.parseFloat (Js.toFixed1 x) - x <= 1 # 20.
Proof.
  intros Hx. unfold Js.toFixed1, Js.parseFloat.
  assert (Qle_bool 0 x = true) as -> by now apply Qle_bool_iff.
  pose proof (Qfloor_le (x * 10 + 1 / 2)) as Hlo.
  pose proof (Qlt_floor (x * 10 + 1 / 2)) as Hhi.
  rewrite inject_Z_plus in Hhi. change (inject_Z 1) with 1 in Hhi.
  revert Hlo Hhi. generalize (inject_Z (Qfloor (x * 10 + 1 / 2))).
  intros f Hlo Hhi.
  assert (f / 10 == f * (1 # 10)) as -> by (unfold Qdiv; reflexivity).
  assert (1 / 2 == 1 # 2) as E by reflexivity.
  rewrite E in Hlo, Hhi. split; lra.
Qed.

(** X19.  What a standing records: the name of the car, and its damage and
    tire wear to the nearest tenth (at most 0.05 away); for a sound car both
    recorded values lie between 0.0 and 100.0. *)
Theorem standing_rounds_to_a_tenth (c : Car.t) :
  healthy c ->
  Standing.name (standing c) = Car.name c
  /\ - (1 # 20) < Js.parseFloat (Standing.damage (standing c)) - Car.damage c
     <= 1 # 20
  /\ - (1 # 20)
     < Js.parseFloat (Standing.tireWear (standing c)) - Car.tireWear c
     <= 1 # 20
  /\ (0 <= Standing.damage (standing c) <= 1000)%Z
  /\ (0 <= Standing.tireWear (standing c) <= 1000)%Z.
Proof.
  intros [[Hd0 Hd1] [Ht0 Ht1]]. cbn [standing Standing.name Standing.damage
                                       Standing.tireWear].
  split; [reflexivity|]. split; [now apply toFixed1_near|].
  split; [now apply toFixed1_near|].
  assert (forall x, 0 <= x <= 100 -> (0 <= Js.toFixed1 x <= 1000)%Z) as R.
  { intros x [H0 H1]. unfold Js.toFixed1.
    assert (Qle_bool 0 x = true) as -> by now apply Qle_bool_iff.
    assert (1 / 2 == 1 # 2) as E by reflexivity.
    split.
    - apply (Qfloor_resp_le 0). rewrite E. lra.
    - apply (Qfloor_resp_le _ (100 * 10 + 1 / 2)). rewrite E. lra. }
  split; apply R; split; assumption.
Qed.

Lemma standing_rounds_to_a_tenth_witness :
  (0 <= Standing.damage
          (standing (Car.mk "Eagle" 220 8 "#3498db" 250 2 12.34 67.89))
   <= 1000)%Z.
Proof.
  refine (proj1 (proj2 (proj2 (proj2
            (standing_rounds_to_a_tenth
               (Car.mk "Eagle" 220 8 "#3498db" 250 2 12.34 67.89) _))))).
  repeat split; intros X; discriminate X.
Defined.

(** ** The order of the tied winners *)

(** X20.  [getOverallWinner] lists the tied cars in the order of the
    leaderboard: its result joins, in that order, the names of the entries
    whose count is the final [maxWins] of the loop, which no count exceeds;
    on an empty leaderboard it is the empty string. *)
Theorem tied_winners_keep_leaderboard_order (g : RacingGame) :
  let maxWins := fst (overallWinners (leaderboard g)) in
  getOverallWinner g
  = Js.join " & " (map fst (filter (winsAre maxWins) (leaderboard g)))
  /\ (forall k v, In (k, v) (leaderboard g) -> (v <= maxWins)%Z)
  /\ (leaderboard g = [] -> getOverallWinner g = EmptyString)
  /\ getOverallWinner
       (with_leaderboard
          [("D"%string, 1%Z); ("A"%string, 3%Z); ("C"%string, 0%Z);
           ("B"%string, 3%Z)] g) = "A & B"%string.
Proof.
  cbv zeta. destruct (overallWinners_spec (leaderboard g)) as (_ & H2 & _ & H4).
  cbv zeta in H2, H4. unfold getOverallWinner. rewrite H4.
  split; [reflexivity|]. split; [exact H2|]. split; [|reflexivity].
  intros ->. reflexivity.
Qed.

(** ** The damage bar *)

(** X21.  The damage bar of a sound car: its width is between 0% and 100%
    and is what is left of the car, [100 - damage]; the bar is red exactly
    when the damage exceeds 70, yellow exactly when it exceeds 40 without
    exceeding 70, and green exactly when it is at most 40. *)
Theorem damage_bar_shows_the_damage (car : Car.t) :
  healthy car ->
  0 <= damagePercent car <= 100
  /\ damagePercent car + Car.damage car == 100
  /\ (damageBarColor car = "#e74c3c"%string <-> 70 < Car.damage car)
  /\ (damageBarColor car = "#f1c40f"%string
      <-> 40 < Car.damage car /\ Car.damage car <= 70)
  /\ (damageBarColor car = "#2ecc71"%string <-> Car.damage car <= 40).
Proof.
  intros [[Hlo Hhi] _]. unfold damageBarColor, damagePercent, Js.gtb.
  split; [split; lra|]. split; [ring|].
  destruct (Qle_bool 30 (100 - Car.damage car)) eqn:E30; cbn [negb].
  - apply Qle_bool_iff in E30.
    destruct (Qle_bool 60 (100 - Car.damage car)) eqn:E60; cbn [negb].
    + apply Qle_bool_iff in E60.
      split; [split; [intros X; discriminate X | lra]|].
      split; [split; [intros X; discriminate X | lra]|].
      split; [lra | reflexivity].
    + apply Qle_bool_false in E60.
      split; [split; [intros X; discriminate X | lra]|].
      split; [split; [lra | reflexivity]|].
      split; [intros X; discriminate X | lra].
  - apply Qle_bool_false in E30.
    split; [split; [lra | reflexivity]|].
    split; [split; [intros X; discriminate X | lra]|].
    split; [intros X; discriminate X | lra].
Qed.

Lemma damage_bar_shows_the_damage_witness :
  damageBarColor (Car.mk "Eagle" 220 8 "#3498db" 250 2 55 67.89)
  = "#f1c40f"%string.
Proof.
  refine (proj2 (proj1 (proj2 (proj2 (proj2
            (damage_bar_shows_the_damage
               (Car.mk "Eagle" 220 8 "#3498db" 250 2 55 67.89) _))))) _).
  - repeat split; intros X; discriminate X.
  - split; [reflexivity | intros X; discriminate X].
Defined.

(** ** Loading a saved game *)

(** X22.  What [loadGameState] restores, for any saved state: the cars with
    all their attributes, the stages, the leaderboard, the results and the
    cursor, whatever game was active before.  The time of the last
    commentary, the previous leader and [isFinished] are not saved: they
    are back at their initial values, so the first commentary requested
    after loading is produced whatever the clock says.  With nothing saved
    the active game stays as it is, and [saveGameState] without an active
    game leaves the saved state as it is. *)
Theorem load_restores_only_what_is_saved
  (performance_now : nat -> Q) (savedState : SavedState)
  (old : option RacingGame) (storage : option SavedState)
  (difficulty : string) (p : Prompt) (calls clock : nat)
  (events : list Event) :
  (exists g,
     loadGameState (Some savedState) old = Some g
     /\ cars g = saved_cars savedState
     /\ stages g = saved_stages savedState
     /\ leaderboard g = saved_leaderboard savedState
     /\ stageResults g = saved_stageResults savedState
     /\ currentStageIndex g = saved_currentStageIndex savedState
     /\ lastCommentaryTime g = None /\ previousLeader g = None
     /\ isFinished g = false
     /\ trace (tryGenerateCommentary performance_now p
                 (mkWorld g calls clock events))
        = events ++ [GenerateCommentary p])
  /\ loadGameState None old = old
  /\ saveGameState difficulty None storage = storage.
Proof.
  split; [|split; reflexivity].
  eexists. split; [reflexivity|].
  cbn [saved_cars saved_stages saved_leaderboard
         saved_stageResults saved_currentStageIndex with_cars with_leaderboard
         with_stageResults with_currentStageIndex newRacingGame
         resetForNewRace cars stages leaderboard stageResults
         currentStageIndex previousLeader lastCommentaryTime isFinished].
  split; [apply (restoreCars_all _ [] (saved_cars savedState))|].
  split; [apply stages_rebuilt|].
  do 6 (split; [reflexivity|]).
  rewrite tryGen_trace. reflexivity.
Qed.

(** ** The record of a stage *)

(** X23.  A stage that completes appends exactly one record to
    [stageResults]: it holds the name of the stage, the name of the winner
    that the last tick declared (for a name that is not the empty string),
    and one standing per car, sorted by ascending damage.  The records that
    were there are kept as they are, and [currentStageIndex] grows by
    one. *)
Theorem stage_appends_one_record
  (Math_random performance_now : nat -> Q) (Math_pow : Q -> Q -> Q)
  (fuel : nat) (stage : Stage.t) (w w' : World) :
  simulateStage Math_random performance_now Math_pow fuel stage w = Some w' ->
  let run k := ticks Math_random performance_now Math_pow k stage
                 (None, startStage performance_now stage w) in
  exists m i c r,
    (forall k, (k <= m)%nat -> fst (run k) = None)
    /\ fst (run (S m)) = Some i
    /\ nth_error (cars (game w')) i = Some c
    /\ stageResults (game w') = stageResults (game w) ++ [r]
    /\ currentStageIndex (game w') = S (currentStageIndex (game w))
    /\ StageResult.stageName r = Stage.name stage
    /\ (Car.name c <> EmptyString -> StageResult.winner r = Car.name c)
    /\ Permutation (map standing (cars (game w')))
         (StageResult.finalStandings r)
    /\ Sorted (fun a b => (Standing.damage a <= Standing.damage b)%Z)
         (StageResult.finalStandings r).
Proof.
  intros H. cbv zeta.
  destruct (completed_stage Math_random performance_now Math_pow stage
              fuel w w' H) as (m & i & Hm & Hk & Hi & -> & Hlaps).
  destruct (winning_tick Math_random performance_now Math_pow stage
              w m i Hlaps Hk Hi)
    as (c0 & c & Hn & Hn' & Hf & Hf' & Hname & Hb & Hl).
  destruct (ticks_frame Math_random performance_now Math_pow stage w (S m))
    as (_ & F2 & F3).
  set (w1 := snd (ticks Math_random performance_now Math_pow (S m) stage
                    (None, startStage performance_now stage w))) in *.
  exists m, i, c, (stageRecord stage (Some i) (cars (game w1))).
  split; [intros k Hle; apply (Hk k Hle)|]. split; [exact Hi|].
  cbn [finishStage onGame emit game cars stageResults currentStageIndex
         with_stageResults with_currentStageIndex].
  rewrite F2, F3. split; [exact Hn'|]. split; [reflexivity|].
  split; [reflexivity|]. split; [reflexivity|].
  split; [|apply finalStandings_sorted].
  intros Hne. unfold stageRecord. cbn [StageResult.winner]. rewrite Hn'.
  unfold winnerLabel. destruct (String.eqb (Car.name c) EmptyString) eqn:E;
    [|reflexivity].
  apply String.eqb_eq in E. contradiction.
Qed.

Lemma stage_appends_one_record_witness :
  exists w',
    simulateStage (replay []) (clockEvery 50) pow_1_5 5 dragStrip easyWorld
    = Some w'
    /\ currentStageIndex (game w') = 1%nat.
Proof.
  destruct (simulateStage (replay []) (clockEvery 50) pow_1_5 5 dragStrip
              easyWorld) as [w'|] eqn:E; [|vm_compute in E; discriminate].
  exists w'. split; [reflexivity|].
  destruct (stage_appends_one_record (replay []) (clockEvery 50) pow_1_5 5
              dragStrip easyWorld w' E)
    as (m & i & c & r & _ & _ & _ & _ & Hidx & _).
  exact Hidx.
Defined.
